(** * iamhardhey Portfolio: a shallow embedding of [script.js]

    The script wires independent UI modules onto a static page.  Each
    module is embedded below as the state it keeps (in the DOM or in its
    closure) and the listeners it registers; the browser is the
    environment that dispatches events to those listeners.

    - strings are sequences of UTF-16 code units, as in JavaScript;
    - a form is a tree of DOM nodes, element references are paths from
      the form element;
    - timers, animation-frame callbacks and the intersection observer are
      explicit queues and sets in the state of the module that uses them.

    Embedded are the mobile menu, the highlighting of the current page,
    the scroll manager, the form manager, the lazy loading of images and
    the fade-in of elements, the accessibility manager, and the
    utilities [throttle] and [debounce]. *)

From stdpp Require Import base option list strings gmap.
From Stdlib Require Import QArith.

Set Warnings "-register-all,-clear-no-such-hyp".
Open Scope nat_scope.
Open Scope list_scope.

(** ** JavaScript strings *)

Module JsString.

(** A string value: its UTF-16 code units. *)
Definition jsstring := list N.

(** A literal of the script, written in ASCII. *)
Definition lit (s : string) : jsstring :=
  Ascii.N_of_ascii <$> String.list_ascii_of_string s.

(** WhiteSpace and LineTerminator code points: what [\s] matches and
    what [String.prototype.trim] strips. *)
Definition is_space (c : N) : bool :=
  ((9 <=? c) && (c <=? 13) || (c =? 32) || (c =? 160) || (c =? 5760)
   || (8192 <=? c) && (c <=? 8202) || (c =? 8232) || (c =? 8233)
   || (c =? 8239) || (c =? 8287) || (c =? 12288) || (c =? 65279))%N.

Fixpoint trimStart (s : jsstring) : jsstring :=
  match s with
  | c :: s' => if is_space c then trimStart s' else s
  | [] => []
  end.

Definition trimEnd (s : jsstring) : jsstring := rev (trimStart (rev s)).

Definition trim (s : jsstring) : jsstring := trimEnd (trimStart s).

(** ToBoolean on a string: only the empty string is falsy. *)
Definition truthy (s : jsstring) : bool :=
  match s with [] => false | _ :: _ => true end.

(** [!value.trim()] *)
Definition blank (s : jsstring) : bool := negb (truthy (trim s)).

End JsString.

(** ** Regular expressions, as far as the script uses them *)

Module Regex.
Import JsString.

Inductive regex : Type :=
| Void : regex
| Eps : regex
| Class : (N -> bool) -> regex
| Cat : regex -> regex -> regex
| Alt : regex -> regex -> regex
| Star : regex -> regex.

(** [r+] *)
Definition Plus (r : regex) : regex := Cat r (Star r).

(** A literal character. *)
Definition Chr (c : N) : regex := Class (N.eqb c).

Fixpoint nullable (r : regex) : bool :=
  match r with
  | Void => false
  | Eps => true
  | Class _ => false
  | Cat r1 r2 => nullable r1 && nullable r2
  | Alt r1 r2 => nullable r1 || nullable r2
  | Star _ => true
  end.

Fixpoint deriv (c : N) (r : regex) : regex :=
  match r with
  | Void => Void
  | Eps => Void
  | Class p => if p c then Eps else Void
  | Cat r1 r2 =>
      if nullable r1
      then Alt (Cat (deriv c r1) r2) (deriv c r2)
      else Cat (deriv c r1) r2
  | Alt r1 r2 => Alt (deriv c r1) (deriv c r2)
  | Star r1 => Cat (deriv c r1) (Star r1)
  end.

(** Whole-input match: what [test] decides for a pattern written
    between [^] and [$] (no flags, so nothing is carried from one call
    to the next). *)
Fixpoint test (r : regex) (s : jsstring) : bool :=
  match s with
  | [] => nullable r
  | c :: s' => test (deriv c r) s'
  end.

(** The language of a pattern. *)
Inductive matches : regex -> jsstring -> Prop :=
| m_eps : matches Eps []
| m_class p c : p c = true -> matches (Class p) [c]
| m_cat r1 r2 s1 s2 :
    matches r1 s1 -> matches r2 s2 -> matches (Cat r1 r2) (s1 ++ s2)
| m_alt_l r1 r2 s : matches r1 s -> matches (Alt r1 r2) s
| m_alt_r r1 r2 s : matches r2 s -> matches (Alt r1 r2) s
| m_star_nil r : matches (Star r) []
| m_star_cons r s1 s2 :
    matches r s1 -> matches (Star r) s2 -> matches (Star r) (s1 ++ s2).

End Regex.

(** ** The DOM, as far as the script reads and writes it *)

Module Dom.
Import JsString.

(** [classList]: an ordered set of tokens. *)
Definition classList_contains (c : string) (l : list string) : bool :=
  bool_decide (c ∈ l).

Definition classList_add (c : string) (l : list string) : list string :=
  if classList_contains c l then l else l ++ [c].

Definition classList_remove (c : string) (l : list string) : list string :=
  filter (λ x, x ≠ c) l.

(** [classList.toggle(token, force)] *)
Definition classList_toggle (c : string) (force : bool) (l : list string)
  : list string :=
  if force then classList_add c l else classList_remove c l.

(** What the script reads and writes on an element: its tag name (in
    lower case), its class list, its attributes, and, for a control, its
    current value, the default value [form.reset()] gives back to it,
    and its [disabled] flag. *)
Record props : Type := Props {
  tag : string;
  classList : list string;
  attrs : gmap string string;
  value : jsstring;
  defaultValue : jsstring;
  disabled : bool
}.

Inductive node : Type :=
| Text (data : jsstring)
| Elem (p : props) (kids : list node).

(** A reference to a node: the child indices leading to it from the
    root of the tree under consideration. *)
Abbreviation path := (list nat) (only parsing).

Fixpoint get (n : node) (p : path) : option node :=
  match p with
  | [] => Some n
  | i :: p' =>
      match n with
      | Elem _ ks => ks !! i ≫= λ k, get k p'
      | Text _ => None
      end
  end.

(** Mutation of the node a reference points to. *)
Fixpoint update (f : node → node) (p : path) (n : node) : node :=
  match p with
  | [] => f n
  | i :: p' =>
      match n with
      | Elem pr ks => Elem pr (alter (update f p') i ks)
      | Text _ => n
      end
  end.

Definition on_props (f : props → props) (n : node) : node :=
  match n with
  | Elem pr ks => Elem (f pr) ks
  | Text _ => n
  end.

Definition set_classList (f : list string → list string) (pr : props) : props :=
  Props (tag pr) (f (classList pr)) (attrs pr) (value pr) (defaultValue pr)
        (disabled pr).

Definition set_attrs (f : gmap string string → gmap string string)
    (pr : props) : props :=
  Props (tag pr) (classList pr) (f (attrs pr)) (value pr) (defaultValue pr)
        (disabled pr).

Definition set_value (v : jsstring) (pr : props) : props :=
  Props (tag pr) (classList pr) (attrs pr) v (defaultValue pr) (disabled pr).

Definition set_disabled (b : bool) (pr : props) : props :=
  Props (tag pr) (classList pr) (attrs pr) (value pr) (defaultValue pr) b.

(** [el.classList.add(c)] *)
Definition addClass (c : string) : node → node :=
  on_props (set_classList (classList_add c)).

(** [el.setAttribute(a, v)] *)
Definition setAttribute (a v : string) : node → node :=
  on_props (set_attrs (insert a v)).

(** [parent.appendChild(k)] for a node [k] that is not yet in the tree. *)
Definition appendChild (k : node) (n : node) : node :=
  match n with
  | Elem pr ks => Elem pr (ks ++ [k])
  | Text _ => n
  end.

Definition childCount (n : node) : nat :=
  match n with
  | Elem _ ks => length ks
  | Text _ => 0
  end.

(** Reading [textContent]: the text of all descendants, in order. *)
Fixpoint textContent (n : node) : jsstring :=
  match n with
  | Text s => s
  | Elem _ ks => concat (map textContent ks)
  end.

(** Writing [textContent]: the children are replaced by one text node
    (by nothing for the empty string). *)
Definition set_textContent (s : jsstring) (n : node) : node :=
  match n with
  | Elem pr _ => Elem pr (if truthy s then [Text s] else [])
  | Text _ => Text s
  end.

(** Selectors: compounds of type, class and attribute-value tests
    ([input[type="email"]] is [[SelTag "input"; SelAttr "type" "email"]]);
    attribute values are compared as they are written. *)
Inductive simple : Type :=
| SelTag (t : string)
| SelClass (c : string)
| SelAttr (a v : string).

Definition selector := list simple.

Definition simple_holds (pr : props) (s : simple) : bool :=
  match s with
  | SelTag t => bool_decide (tag pr = t)
  | SelClass c => classList_contains c (classList pr)
  | SelAttr a v => bool_decide (attrs pr !! a = Some v)
  end.

Definition matches_sel (sel : selector) (pr : props) : bool :=
  forallb (simple_holds pr) sel.

(** First hit of [f] among a list of siblings, the first of which has
    index [i]. *)
Definition first_kid (f : node → option path)
  : list node → nat → option path :=
  fix go ks i :=
    match ks with
    | [] => None
    | k :: ks' =>
        match f k with
        | Some p => Some (i :: p)
        | None => go ks' (S i)
        end
    end.

(** First element in tree order, the node itself included. *)
Fixpoint find_incl (sel : selector) (n : node) : option path :=
  match n with
  | Text _ => None
  | Elem pr ks =>
      if matches_sel sel pr then Some []
      else first_kid (find_incl sel) ks 0
  end.

(** [n.querySelector(sel)]: the first descendant of [n] in tree order,
    as a path from [n]. *)
Definition querySelector (sel : selector) (n : node) : option path :=
  match n with
  | Text _ => None
  | Elem _ ks => first_kid (find_incl sel) ks 0
  end.

(** [el.parentElement], for an element below the root. *)
Definition parentElement (el : path) : path := removelast el.

(** Number of elements of a tree that match, the root included. *)
Fixpoint count_incl (sel : selector) (n : node) : nat :=
  match n with
  | Text _ => 0
  | Elem pr ks =>
      (if matches_sel sel pr then 1 else 0)
      + list_sum (map (count_incl sel) ks)
  end.

(** [n.querySelectorAll(sel).length] *)
Definition count_desc (sel : selector) (n : node) : nat :=
  match n with
  | Text _ => 0
  | Elem _ ks => list_sum (map (count_incl sel) ks)
  end.

Definition is_match (sel : selector) (n : node) : bool :=
  match n with
  | Elem pr _ => matches_sel sel pr
  | Text _ => false
  end.

(** Number of child elements that match. *)
Definition count_children (sel : selector) (n : node) : nat :=
  match n with
  | Elem _ ks => length (filter (λ k, is_match sel k = true) ks)
  | Text _ => 0
  end.

(** [h] applied to the properties of every element, the root included. *)
Fixpoint map_incl (h : props → props) (n : node) : node :=
  match n with
  | Text _ => n
  | Elem pr ks => Elem (h pr) (map (map_incl h) ks)
  end.

(** [h] applied to the properties of every element below the root. *)
Definition map_desc (h : props → props) (n : node) : node :=
  match n with
  | Text _ => n
  | Elem pr ks => Elem pr (map (map_incl h) ks)
  end.

(** [n.querySelectorAll(sel).forEach(el => f(el))] for an [f] that
    writes to the properties of [el] alone: the list is static and
    holds every descendant that matched before the loop. *)
Definition forEach_desc (sel : selector) (f : props → props) (n : node)
  : node :=
  map_desc (λ pr, if matches_sel sel pr then f pr else pr) n.

(** [f] applied to the siblings that [keep] retains. *)
Definition keep_map (keep : node → bool) (f : node → node)
  : list node → list node :=
  fix go ks :=
    match ks with
    | [] => []
    | k :: ks' => if keep k then f k :: go ks' else go ks'
    end.

(** [n.querySelectorAll(sel).forEach(el => el.remove())]: every
    descendant that matched is detached from its parent, so what is left
    of the tree is the tree without them. *)
Fixpoint remove_below (sel : selector) (n : node) : node :=
  match n with
  | Text _ => n
  | Elem pr ks =>
      Elem pr (keep_map (λ k, negb (is_match sel k)) (remove_below sel) ks)
  end.

(** [form.reset()]: every control goes back to its default value. *)
Definition is_control (pr : props) : bool :=
  bool_decide (tag pr ∈ ["input"; "textarea"; "select"]).

Definition reset (n : node) : node :=
  map_incl (λ pr, if is_control pr then set_value (defaultValue pr) pr else pr)
           n.

(** The value of the control a reference points to. *)
Definition valueOf (n : node) (p : path) : jsstring :=
  match get n p with
  | Some (Elem pr _) => value pr
  | _ => []
  end.

(** The values of all controls of a tree, in tree order. *)
Fixpoint control_values (n : node) : list jsstring :=
  match n with
  | Text _ => []
  | Elem pr ks =>
      (if is_control pr then [value pr] else [])
      ++ concat (map control_values ks)
  end.

(** The elements of a tree weighed by [w], the root included. *)
Fixpoint weight (w : props → nat) (n : node) : nat :=
  match n with
  | Text _ => 0
  | Elem pr ks => w pr + list_sum (map (weight w) ks)
  end.

(** The same, the root left out. *)
Definition weight_desc (w : props → nat) (n : node) : nat :=
  match n with
  | Text _ => 0
  | Elem _ ks => list_sum (map (weight w) ks)
  end.

(** Number of elements of a tree. *)
Definition size (n : node) : nat := weight (λ _, 1) n.

(** No element of the tree has two children that match. *)
Fixpoint tidy (sel : selector) (n : node) : bool :=
  match n with
  | Text _ => true
  | Elem pr ks =>
      (length (filter (λ k, is_match sel k = true) ks) <=? 1)
      && forallb (tidy sel) ks
  end.

(** The properties of the element a reference points to. *)
Definition props_of (n : node) : option props :=
  match n with
  | Elem pr _ => Some pr
  | Text _ => None
  end.

Definition props_at (n : node) (p : path) : option props :=
  get n p ≫= props_of.

(** Two references neither of which leads through the other. *)
Definition diverge (p q : path) : Prop :=
  ∃ c i j p' q', i ≠ j ∧ p = c ++ i :: p' ∧ q = c ++ j :: q'.

(** No control lies inside an element that matches. *)
Fixpoint controls_outside (sel : selector) (n : node) : bool :=
  match n with
  | Text _ => true
  | Elem _ ks =>
      forallb (λ k, if is_match sel k
                    then match control_values k with
                         | [] => true
                         | _ :: _ => false
                         end
                    else controls_outside sel k) ks
  end.

End Dom.

(** ** Module 1: mobile menu *)

Module MobileMenu.
Import Dom.

(** What the listeners read and write: the [checked] flag of
    [#menu-toggle] and the class list of the first [.nav] element.
    [init] registers the listeners only when both elements exist. *)
Record state : Type := State {
  checked : bool;
  navClasses : list string
}.

(** Where the elements sit in the document: the listeners only ask
    which element contains the target of a click. *)
Record layout : Type := Layout {
  nav : path;
  menuToggle : path;
  links : list path
}.

(** [a.contains(t)]: [t] is [a] or one of its descendants. *)
Definition contains (a t : path) : bool := bool_decide (a `prefix_of` t).

(** Listener of [change] on the toggle. *)
Definition on_change (s : state) : state :=
  State (checked s) (classList_toggle "active" (checked s) (navClasses s)).

(** The two statements every closing branch runs. *)
Definition close (s : state) : state :=
  State false (classList_remove "active" (navClasses s)).

(** Listener of [click] on each [.nav a] link. *)
Definition on_link_click (s : state) : state := close s.

(** Listener of [click] on the document. *)
Definition on_document_click (L : layout) (target : path) (s : state)
  : state :=
  if negb (contains (nav L) target)
     && negb (contains (menuToggle L) target)
     && checked s
  then close s else s.

(** Listener of [keydown] on the document. *)
Definition on_keydown (key : string) (s : state) : state :=
  if bool_decide (key = "Escape") && checked s then close s else s.

(** What the browser dispatches. [Change b]: the control has just been
    given the checked state [b] by the user.  A click bubbles from its
    target to the document, so it reaches the listener of every link
    that contains the target, then the listener of the document. *)
Inductive event : Type :=
| Change (b : bool)
| Click (target : path)
| KeyDown (key : string).

Definition dispatch_click (L : layout) (target : path) (s : state) : state :=
  on_document_click L target
    (foldr (λ link s, if contains link target then on_link_click s else s)
           s (links L)).

Definition step (L : layout) (e : event) (s : state) : state :=
  match e with
  | Change b => on_change (State b (navClasses s))
  | Click target => dispatch_click L target s
  | KeyDown key => on_keydown key s
  end.

Definition run (L : layout) (es : list event) (s : state) : state :=
  foldl (λ s e, step L e s) s es.

Definition nav_active (s : state) : bool :=
  classList_contains "active" (navClasses s).

(** The navigation container carries the active class exactly when the
    toggle is checked. *)
Definition consistent (s : state) : Prop := nav_active s = checked s.

End MobileMenu.

(** ** Module 3: scroll manager *)

Module ScrollManager.
Import Dom.

(** Callbacks handed to [requestAnimationFrame]. *)
Inductive callback : Type := UpdateScrollButton.

(** The closure variables [scrollToTopBtn] (the class list of the button,
    once created) and [ticking], the callbacks waiting for the next frame,
    [window.scrollY] and [PortfolioManager.config.scrollThreshold]. *)
Record state : Type := State {
  scrollToTopBtn : option (list string);
  ticking : bool;
  frameQueue : list callback;
  scrollY : Q;
  scrollThreshold : Q
}.

(** [a > b] on finite numbers. *)
Definition gt (a b : Q) : bool := if Qlt_le_dec b a then true else false.

Definition config_scrollThreshold : Q := 300.

(** State before [init]. *)
Definition initial (y : Q) : state :=
  State None false [] y config_scrollThreshold.

Definition createScrollToTopButton (s : state) : state :=
  State (Some ["scroll-to-top"]) (ticking s) (frameQueue s) (scrollY s)
        (scrollThreshold s).

(** The listener [setupScrollListener] registers. *)
Definition on_scroll (s : state) : state :=
  if negb (ticking s)
  then State (scrollToTopBtn s) true (frameQueue s ++ [UpdateScrollButton])
             (scrollY s) (scrollThreshold s)
  else s.

Definition updateScrollButton (s : state) : state :=
  match scrollToTopBtn s with
  | None => s
  | Some cls =>
      State (Some (classList_toggle "visible"
                     (gt (scrollY s) (scrollThreshold s)) cls))
            false (frameQueue s) (scrollY s) (scrollThreshold s)
  end.

Definition init (s : state) : state := createScrollToTopButton s.

Definition call (c : callback) (s : state) : state :=
  match c with
  | UpdateScrollButton => updateScrollButton s
  end.

(** What the browser does.  [Scroll y]: the page is now at offset [y]
    and a scroll event is dispatched.  [Frame]: the callbacks queued so
    far are taken off the queue and run.  [Configure t]: the exposed
    configuration object is given another threshold. *)
Inductive event : Type :=
| Scroll (y : Q)
| Frame
| Configure (t : Q).

Definition step (e : event) (s : state) : state :=
  match e with
  | Scroll y =>
      on_scroll (State (scrollToTopBtn s) (ticking s) (frameQueue s) y
                       (scrollThreshold s))
  | Frame =>
      foldl (λ s c, call c s)
            (State (scrollToTopBtn s) (ticking s) [] (scrollY s)
                   (scrollThreshold s))
            (frameQueue s)
  | Configure t =>
      State (scrollToTopBtn s) (ticking s) (frameQueue s) (scrollY s) t
  end.

Definition run (es : list event) (s : state) : state :=
  foldl (λ s e, step e s) s es.

Definition visible (s : state) : bool :=
  match scrollToTopBtn s with
  | Some cls => classList_contains "visible" cls
  | None => false
  end.

(** The state [init] leaves on a page that sits at offset [y]. *)
Definition started (y : Q) : state := init (initial y).

(** The flag is up exactly while one recomputation waits for its frame. *)
Definition coalesced (s : state) : Prop :=
  frameQueue s = (if ticking s then [UpdateScrollButton] else []).

(** States in which the button exists and the flag agrees with the
    frame queue. *)
Definition ready (s : state) : Prop :=
  is_Some (scrollToTopBtn s) ∧ coalesced s.

(** Every event but a scroll event. *)
Definition not_scroll (e : event) : bool :=
  match e with
  | Scroll _ => false
  | Frame | Configure _ => true
  end.


End ScrollManager.

(** ** Module 4: form manager *)

Module FormManager.
Import JsString Regex Dom.

(** [[^\s@]] *)
Definition not_space_at (c : N) : bool :=
  negb (is_space c) && negb (c =? 64)%N.

(** [/^[^\s@]+@[^\s@]+\.[^\s@]+$/] *)
Definition emailRegex : regex :=
  Cat (Plus (Class not_space_at))
   (Cat (Chr 64)
    (Cat (Plus (Class not_space_at))
     (Cat (Chr 46)
          (Plus (Class not_space_at))))).

Definition isValidEmail (email : jsstring) : bool := test emailRegex email.

Definition sel_email : selector := [SelTag "input"; SelAttr "type" "email"].
Definition sel_textarea : selector := [SelTag "textarea"].
Definition sel_submit : selector := [SelTag "button"; SelAttr "type" "submit"].
Definition sel_error : selector := [SelClass "error"].
Definition sel_error_message : selector := [SelClass "error-message"].

Definition msg_email_required : jsstring := lit "Email is required".
Definition msg_email_invalid : jsstring := lit "Please enter a valid email".
Definition msg_message_required : jsstring := lit "Message is required".
(** The check mark is U+2713. *)
Definition msg_sent : jsstring := 10003%N :: lit " Message Sent".

(** [document.createElement('span')] with [className = 'error-message']. *)
Definition errorSpan : node :=
  Elem (Props "span" ["error-message"] ∅ [] [] false) [].

(** [showError(element, message)].  The element comes from
    [form.querySelector], so it lies below the form and its parent is
    in the tree. *)
Definition showError (element : option path) (message : jsstring)
    (form : node) : node :=
  match element with
  | None => form
  | Some el =>
      let form := update (addClass "error") el form in
      let form := update (setAttribute "aria-invalid" "true") el form in
      let parent := parentElement el in
      match get form parent ≫= querySelector sel_error_message with
      | Some rel => update (set_textContent message) (parent ++ rel) form
      | None =>
          let idx := from_option childCount 0 (get form parent) in
          let form := update (appendChild errorSpan) parent form in
          update (set_textContent message) (parent ++ [idx]) form
      end
  end.

(** [showError] as the parent of the field sees it: the field is its
    child [i]. *)
Definition showError_in (i : nat) (message : jsstring) (parent : node)
  : node :=
  let parent := update (addClass "error") [i] parent in
  let parent := update (setAttribute "aria-invalid" "true") [i] parent in
  match querySelector sel_error_message parent with
  | Some rel => update (set_textContent message) rel parent
  | None =>
      update (set_textContent message) [childCount parent]
             (appendChild errorSpan parent)
  end.

(** [el.classList.remove('error'); el.removeAttribute('aria-invalid')] *)
Definition unmark (pr : props) : props :=
  set_attrs (delete "aria-invalid")
            (set_classList (classList_remove "error") pr).

(** [clearErrors(form)] *)
Definition clearErrors (form : node) : node :=
  remove_below sel_error_message (forEach_desc sel_error unmark form).

(** [validateForm(form)]: the returned flag and the form as the call
    leaves it. *)
Definition validateForm (form : node) : bool * node :=
  let email := querySelector sel_email form in
  let textarea := querySelector sel_textarea form in
  match email with
  | None => (false, showError email msg_email_required form)
  | Some e =>
      if blank (valueOf form e)
      then (false, showError email msg_email_required form)
      else if negb (isValidEmail (valueOf form e))
      then (false, showError email msg_email_invalid form)
      else
        match textarea with
        | None => (false, showError textarea msg_message_required form)
        | Some t =>
            if blank (valueOf form t)
            then (false, showError textarea msg_message_required form)
            else (true, clearErrors form)
        end
  end.

(** The closure handed to [setTimeout]: it keeps the form, the submit
    button and the text the button had. *)
Inductive task : Type :=
| ResetForm (submitBtn : path) (originalText : jsstring).

(** A pending timer: the time it is due, in milliseconds, and its
    callback. *)
Record timer : Type := Timer { due : N; job : task }.

(** One form of the page, the clock and the timers not yet run. *)
Record page : Type := Page {
  form : node;
  clock : N;
  timers : list timer
}.

Definition setTimeout (j : task) (delay : N) (pg : page) : page :=
  Page (form pg) (clock pg) (timers pg ++ [Timer (clock pg + delay)%N j]).

Definition run_task (j : task) (f : node) : node :=
  match j with
  | ResetForm submitBtn originalText =>
      let f := reset f in
      let f := update (set_textContent originalText) submitBtn f in
      update (on_props (set_disabled false)) submitBtn f
  end.

(** Listener of [submit], on the page that holds the form the event
    targets.  (The call of [preventDefault] only keeps the browser from
    navigating; it touches nothing the listener reads.) *)
Definition handleSubmit (pg : page) : page :=
  let '(ok, f) := validateForm (form pg) in
  if negb ok then Page f (clock pg) (timers pg)
  else
    match querySelector sel_submit f with
    | Some submitBtn =>
        let originalText := from_option textContent [] (get f submitBtn) in
        let f := update (set_textContent msg_sent) submitBtn f in
        let f := update (on_props (set_disabled true)) submitBtn f in
        setTimeout (ResetForm submitBtn originalText) 2000
                   (Page f (clock pg) (timers pg))
    | None => Page f (clock pg) (timers pg)
    end.

(** What happens to the page.  [Submit]: the form is submitted.
    [Input el v]: the user gives the control [el] the value [v].
    [Advance dt]: [dt] milliseconds pass, and the timers that are due
    run, oldest first. *)
Inductive event : Type :=
| Submit
| Input (el : path) (v : jsstring)
| Advance (dt : N).

Definition advance (dt : N) (pg : page) : page :=
  let now := (clock pg + dt)%N in
  Page (foldl (λ f t, run_task (job t) f) (form pg)
              (filter (λ t, (due t ≤ now)%N) (timers pg)))
       now
       (filter (λ t, ¬ (due t ≤ now)%N) (timers pg)).

Definition step (e : event) (pg : page) : page :=
  match e with
  | Submit => handleSubmit pg
  | Input el v =>
      Page (update (on_props (set_value v)) el (form pg)) (clock pg)
           (timers pg)
  | Advance dt => advance dt pg
  end.

Definition run (es : list event) (pg : page) : page :=
  foldl (λ pg e, step e pg) pg es.

(** The text of the first error-message element below the parent of a
    field: what the user reads next to the field. *)
Definition shownError (form : node) (el : path) : option jsstring :=
  n ← get form (parentElement el);
  rel ← querySelector sel_error_message n;
  textContent <$> get n rel.

Definition hasClass (c : string) (form : node) (el : path) : bool :=
  match get form el with
  | Some (Elem pr _) => classList_contains c (classList pr)
  | _ => false
  end.

Definition getAttribute (a : string) (form : node) (el : path)
  : option string :=
  match get form el with
  | Some (Elem pr _) => attrs pr !! a
  | _ => None
  end.

(** The shape the pattern asks for, in words: [local@domain.tld], the
    three parts non-empty and without white space or [@]. *)
Definition local_at_domain (v : jsstring) : Prop :=
  ∃ l d t, v = l ++ 64%N :: d ++ 46%N :: t
           ∧ l ≠ [] ∧ d ≠ [] ∧ t ≠ []
           ∧ Forall (λ c, is_space c = false ∧ c ≠ 64%N) (l ++ d ++ t).

(** Number of error-message elements below the parent of a field. *)
Definition errorMessagesIn (form : node) (el : path) : nat :=
  from_option (count_desc sel_error_message) 0 (get form (parentElement el)).

(** A reference to an element below the root: what [querySelector]
    returns. *)
Definition is_descendant (form : node) (el : path) : Prop :=
  el ≠ [] ∧ ∃ pe kse, get form el = Some (Elem pe kse).

(** Number of error-message elements among the children of the parent
    of a field. *)
Definition errorMessageChildren (form : node) (el : path) : nat :=
  from_option (count_children sel_error_message) 0
              (get form (parentElement el)).

(** [aria-invalid] attributes below the form, and those among them that
    sit on an element without the error class. *)
Definition has_aria_invalid (pr : props) : bool :=
  bool_decide (is_Some (attrs pr !! "aria-invalid")).

Definition ariaInvalidCount (form : node) : nat :=
  weight_desc (λ pr, if has_aria_invalid pr then 1 else 0) form.

Definition strayAriaInvalid (form : node) : nat :=
  weight_desc (λ pr, if has_aria_invalid pr
                        && negb (classList_contains "error" (classList pr))
                     then 1 else 0) form.

(** Controls whose value is not their default value. *)
Definition at_default (pr : props) : bool :=
  negb (is_control pr) || bool_decide (value pr = defaultValue pr).

Definition modifiedControls (form : node) : nat :=
  weight (λ pr, if at_default pr then 0 else 1) form.

Definition textAt (form : node) (el : path) : option jsstring :=
  textContent <$> get form el.

Definition disabledAt (form : node) (el : path) : option bool :=
  disabled <$> props_at form el.

(** The element does not lie inside an error-message element. *)
Definition outside_error_message (form : node) (el : path) : Prop :=
  ∀ q r, el = q ++ r → q ≠ [] → r ≠ [] →
         hasClass "error-message" form q = false.

(** The field shows the message: the error-message element of its
    parent reads [msg], and the field is marked invalid. *)
Definition displays (form : node) (el : path) (msg : jsstring) : Prop :=
  shownError form el = Some msg
  ∧ hasClass "error" form el = true
  ∧ getAttribute "aria-invalid" form el = Some "true".

End FormManager.

(** ** Module 5: lazy loading of images *)

Module PerformanceOptimizer.
Import JsString Dom.

Record img : Type := Img {
  src : jsstring;
  dataSrc : option jsstring;
  imgClasses : list string
}.

(** The images of the document by identity, the targets the image
    observer watches, and the record of the assignments to [src] made
    by the observer callback, oldest first. *)
Record state : Type := State {
  images : gmap nat img;
  observed : gset nat;
  loaded : list nat
}.



(** An [IntersectionObserverEntry]: its target and [isIntersecting]. *)
Definition entry : Type := nat * bool.







(** The elements of the document by identity, each with its class
    list, and the targets the element observer watches. *)
Record fade_state : Type := FadeState {
  elements : gmap nat (list string);
  watched : gset nat
}.

(** [.card, .project-card, .feature] *)
Definition animated (cls : list string) : bool :=
  classList_contains "card" cls
  || classList_contains "project-card" cls
  || classList_contains "feature" cls.

Definition on_fade_entry (s : fade_state) (e : entry) : fade_state :=
  if e.2
  then FadeState (alter (classList_add "fade-in") e.1 (elements s))
                 (watched s ∖ {[ e.1 ]})
  else s.

(** The callback of the element observer. *)
Definition elementObserver_callback (entries : list entry) (s : fade_state)
  : fade_state :=
  foldl on_fade_entry s entries.

(** [observeElementsForAnimation()] *)
Definition observeElementsForAnimation (hasObserver : bool)
    (els : gmap nat (list string)) : fade_state :=
  if negb hasObserver then FadeState els ∅
  else FadeState els (dom (filter (λ kv, animated kv.2 = true) els)).

(** The browser notifies the callback with entries for targets that
    are under observation when the entries are made. *)
Inductive fade_notify : fade_state → fade_state → Prop :=
| fade_notify_entries s (entries : list entry) :
    (∀ t, t ∈ entries.*1 → t ∈ watched s) →
    fade_notify s (elementObserver_callback entries s).

(** The watched elements are among those that matched at the start and
    are as they were; the others are as they were, or matched at the
    start and have been given the class. *)
Definition faded_once (els : gmap nat (list string)) (s : fade_state)
  : Prop :=
  ∀ i, (i ∈ watched s →
        elements s !! i = els !! i
        ∧ ∃ cls, els !! i = Some cls ∧ animated cls = true)
       ∧ (elements s !! i = els !! i
          ∨ ∃ cls, els !! i = Some cls ∧ animated cls = true
                   ∧ elements s !! i = Some (classList_add "fade-in" cls)).


End PerformanceOptimizer.

(** ** Sample markup *)

Module Samples.
Import JsString Dom.

Definition element (t : string) (attributes : list (string * string))
    (ks : list node) : node :=
  Elem (Props t [] (list_to_map attributes) [] [] false) ks.

(** A control with a current value and the value its markup gives it. *)
Definition control (t : string) (attributes : list (string * string))
    (v dv : string) : node :=
  Elem (Props t [] (list_to_map attributes) (lit v) (lit dv) false) [].

(** A contact form: a labelled email input and a textarea, each in a
    group of its own, and a submit button. *)
Definition contactForm (email message : string) : node :=
  element "form" []
    [ element "div" []
        [ element "label" [] [Text (lit "Email")];
          control "input" [("type", "email")] email "" ];
      element "div" []
        [ control "textarea" [] message "" ];
      element "button" [("type", "submit")] [Text (lit "Send")] ].

Definition emailField : path := [0; 1].
Definition messageField : path := [1; 0].


Definition submitButton : path := [2].

(** A contact form whose button carries no [type] attribute, so that
    [button[type="submit"]] does not select it. *)
Definition formWithPlainButton (email message : string) : node :=
  element "form" []
    [ element "div" []
        [ control "input" [("type", "email")] email "" ];
      element "div" []
        [ control "textarea" [] message "" ];
      element "button" [] [Text (lit "Send")] ].

(** The contact form after a submission with an empty email, and after
    the user has then typed an address into the email input. *)
Definition formWithStaleError : node :=
  update (on_props (set_value (lit "a@b.co"))) emailField
         (FormManager.validateForm (contactForm "" "")).2.

(** A form without an email input. *)
Definition formWithoutEmail (message : string) : node :=
  element "form" []
    [ control "textarea" [] message "";
      element "button" [("type", "submit")] [Text (lit "Send")] ].

(** A link of the navigation. *)
Definition navLink (href : string) (classes : list string) : props :=
  Props "a" classes {[ "href" := href ]} [] [] false.

(** The button [ScrollManager.createScrollToTopButton] appends to the
    body; the arrow is U+2191. *)
Definition scrollToTopButton : node :=
  Elem (Props "button" ["scroll-to-top"]
              {[ "aria-label" := "Scroll to top"; "title" := "Back to top" ]}
              [] [] false)
       [Text (8593%N :: lit " Top")].

(** A body with two elements in the role of a button, one of them
    taken out of the tab order by its markup, a call-to-action link
    that shows an icon only, and the scroll-to-top button. *)
Definition toolbar : node :=
  element "body" []
    [ element "div" [("role", "button")] [Text (lit "Menu")];
      element "span" [("role", "button"); ("tabindex", "-1")] [];
      Elem (Props "a" ["button-cta"] {[ "title" := "Hire me" ]} [] [] false)
           [element "i" [] []];
      scrollToTopButton ].


End Samples.

(** ** Utility functions *)

Module Utilities.

Section Throttle.
Context {A : Type}.










End Throttle.

Section Debounce.
Context {A : Type}.

(** A timer set by the debounced function: its id, the time it is due,
    and the arguments its callback will hand to [func]. *)
Record d_timer : Type := DTimer { d_id : nat; d_due : N; d_args : A }.

(** The closure [debounce(func, delay)] returns: its variable
    [timeoutId], the timers of the page that have not run yet, the id
    the next timer gets, the calls of [func] made so far (with the time
    they were due and the arguments), and the clock. *)
Record debounced : Type := Debounced {
  timeoutId : option nat;
  d_timers : list d_timer;
  nextId : nat;
  fired : list (N * A);
  d_clock : N
}.

Definition debounce (t0 : N) : debounced := Debounced None [] 0 [] t0.

(** [clearTimeout(id)]: the timer with that id is dropped if it is
    still pending; an undefined id, or the id of a timer that has run,
    drops nothing. *)
Definition clearTimeout (id : option nat) (ts : list d_timer)
  : list d_timer :=
  match id with
  | Some i => filter (λ t, d_id t ≠ i) ts
  | None => ts
  end.

(** A call of the returned function. *)
Definition d_call (delay : N) (a : A) (s : debounced) : debounced :=
  let ts := clearTimeout (timeoutId s) (d_timers s) in
  Debounced (Some (nextId s))
            (ts ++ [DTimer (nextId s) (d_clock s + delay)%N a])
            (S (nextId s)) (fired s) (d_clock s).

(** Time passes; the timers that are due call [func], oldest first. *)
Definition d_advance (dt : N) (s : debounced) : debounced :=
  let now := (d_clock s + dt)%N in
  Debounced (timeoutId s)
            (filter (λ t, ¬ (d_due t ≤ now)%N) (d_timers s))
            (nextId s)
            (fired s ++ ((λ t, (d_due t, d_args t))
                         <$> filter (λ t, (d_due t ≤ now)%N) (d_timers s)))
            now.

Inductive d_event : Type :=
| DCall (a : A)
| DAdvance (dt : N).

Definition d_step (delay : N) (e : d_event) (s : debounced) : debounced :=
  match e with
  | DCall a => d_call delay a s
  | DAdvance dt => d_advance dt s
  end.

Definition d_run (delay : N) (es : list d_event) (s : debounced)
  : debounced :=
  foldl (λ s e, d_step delay e s) s es.



(** What holds of the closure at any time: at most one timer is
    pending, it is the one [timeoutId] names, and it is due within
    [delay] from now. *)
Definition d_inv (delay : N) (s : debounced) : Prop :=
  d_timers s = []
  ∨ ∃ i d a, d_timers s = [DTimer i d a] ∧ timeoutId s = Some i
             ∧ (d ≤ d_clock s + delay)%N.

End Debounce.

End Utilities.

(** ** Navigation manager *)

Module NavigationManager.
Import JsString Dom.

(** [s.split(sep)] for a separator of one code unit: the pieces of [s]
    between the separators; there is always at least one piece. *)
Fixpoint split (sep : N) (s : jsstring) : list jsstring :=
  match s with
  | [] => [[]]
  | c :: s' =>
      if (c =? sep)%N then [] :: split sep s'
      else match split sep s' with
           | piece :: pieces => (c :: piece) :: pieces
           | [] => [[c]]
           end
  end.

(** The code unit of [/]. *)
Definition slash : N := 47.

(** [window.location.pathname.split('/').pop() || 'index.html'] *)
Definition currentPage (pathname : jsstring) : jsstring :=
  match last (split slash pathname) with
  | Some page => if truthy page then page else lit "index.html"
  | None => lit "index.html"
  end.

(** The body of the loop of [highlightActivePage], on the link itself;
    [getAttribute] gives null for a link without [href], and an [href]
    is written in ASCII, as the path of a location is. *)
Definition highlight (page : jsstring) (link : props) : props :=
  let href := attrs link !! "href" in
  let isActive :=
    bool_decide (lit <$> href = Some page)
    || bool_decide (page = []) && bool_decide (href = Some "index.html") in
  set_attrs (insert "aria-current" (if isActive then "page" else "false"))
            (set_classList (classList_toggle "active" isActive) link).

(** The link points to the page: its [href] is the page name. *)
Definition is_page (page : jsstring) (link : props) : Prop :=
  lit <$> attrs link !! "href" = Some page.

#[global] Instance is_page_dec (page : jsstring) (link : props)
  : Decision (is_page page link) :=
  decide (lit <$> attrs link !! "href" = Some page).

(** [highlightActivePage()], on the links that [.nav a] selects, in
    document order. *)
Definition highlightActivePage (pathname : jsstring) (links : list props)
  : list props :=
  map (highlight (currentPage pathname)) links.

End NavigationManager.

(** ** Accessibility manager *)

Module AccessibilityManager.
Import JsString Dom.

Definition sel_role_button : selector := [SelAttr "role" "button"].

(** The attribute part of the loop of [improveKeyboardNavigation]. *)
Definition add_tabindex (pr : props) : props :=
  if bool_decide (is_Some (attrs pr !! "tabindex")) then pr
  else set_attrs (insert "tabindex" "0") pr.

(** [improveKeyboardNavigation()], on the tree below the document.
    (The [keydown] listeners it registers write nothing to the tree.) *)
Definition improveKeyboardNavigation (doc : node) : node :=
  forEach_desc sel_role_button add_tabindex doc.

(** [.button-cta, .scroll-to-top] *)
Definition labelled (pr : props) : bool :=
  matches_sel [SelClass "button-cta"] pr
  || matches_sel [SelClass "scroll-to-top"] pr.

(** The result of [getAttribute] as a condition: null and the empty
    string are falsy. *)
Definition attr_truthy (v : option string) : bool :=
  match v with
  | Some s => negb (bool_decide (s = ""))
  | None => false
  end.

(** [btn.getAttribute('title') || 'Button'] *)
Definition fallback_label (pr : props) : string :=
  if attr_truthy (attrs pr !! "title")
  then default "Button" (attrs pr !! "title")
  else "Button".

(** The body of the loop of [ensureProperAriaLabels], on the
    properties of the element [n]. *)
Definition label_props (n : node) (pr : props) : props :=
  if labelled pr && blank (textContent n)
     && negb (attr_truthy (attrs pr !! "aria-label"))
  then set_attrs (insert "aria-label" (fallback_label pr)) pr
  else pr.

(** The loop on a tree, the root included.  It writes attributes only,
    so the text an element has when its turn comes is the text it had
    before the loop. *)
Fixpoint label_incl (n : node) : node :=
  match n with
  | Text _ => n
  | Elem pr ks => Elem (label_props n pr) (map label_incl ks)
  end.

(** [ensureProperAriaLabels()], on the tree below the document. *)
Definition ensureProperAriaLabels (doc : node) : node :=
  match doc with
  | Text _ => doc
  | Elem pr ks => Elem pr (map label_incl ks)
  end.

(** The element has an accessible name: text that is not blank, or a
    label that is not empty. *)
Definition named (n : node) : bool :=
  match n with
  | Text _ => false
  | Elem pr _ =>
      negb (blank (textContent n)) || attr_truthy (attrs pr !! "aria-label")
  end.

End AccessibilityManager.

(** * Properties *)

(** ** Strings and patterns *)

Section RegexFacts.
Import JsString Regex.

Lemma matches_cat_inv (r1 r2 : regex) (s : jsstring) :
  matches (Cat r1 r2) s ↔
  ∃ s1 s2, s = s1 ++ s2 ∧ matches r1 s1 ∧ matches r2 s2.
Proof.
  split.
  - inversion 1; subst. eauto.
  - intros (s1 & s2 & -> & H1 & H2). by constructor.
Qed.

Lemma matches_alt_inv (r1 r2 : regex) (s : jsstring) :
  matches (Alt r1 r2) s ↔ matches r1 s ∨ matches r2 s.
Proof.
  split.
  - inversion 1; subst; auto.
  - intros [H | H]; [by apply m_alt_l | by apply m_alt_r].
Qed.

Lemma matches_class_inv (p : N → bool) (s : jsstring) :
  matches (Class p) s ↔ ∃ c, s = [c] ∧ p c = true.
Proof.
  split.
  - inversion 1; subst. eauto.
  - intros (c & -> & Hc). by constructor.
Qed.

(** A non-empty match of [r*] starts with a non-empty match of [r]. *)
Lemma matches_star_cons_inv (r : regex) (c : N) (s : jsstring) :
  matches (Star r) (c :: s) →
  ∃ s1 s2, s = s1 ++ s2 ∧ matches r (c :: s1) ∧ matches (Star r) s2.
Proof.
  intros H. remember (Star r) as r' eqn:Hr. remember (c :: s) as s' eqn:Hs.
  induction H as [| | | | | |r0 s1 s2 H1 _ H2 IH2]; try discriminate.
  injection Hr as ->. destruct s1 as [|c1 s1]; simpl in Hs.
  - by apply IH2.
  - injection Hs as -> <-. eauto.
Qed.

Lemma nullable_spec (r : regex) : nullable r = true ↔ matches r [].
Proof.
  induction r as [| |p|r1 IH1 r2 IH2|r1 IH1 r2 IH2|r IH]; simpl.
  - split; [done | inversion 1].
  - split; [constructor | done].
  - split; [done | inversion 1].
  - rewrite andb_true_iff, IH1, IH2, matches_cat_inv. split.
    + intros [H1 H2]. by exists [], [].
    + intros (s1 & s2 & Hs & H1 & H2).
      symmetry in Hs. apply app_eq_nil in Hs as [-> ->]. done.
  - rewrite orb_true_iff, IH1, IH2, matches_alt_inv. done.
  - split; [constructor | done].
Qed.

Lemma deriv_spec (c : N) (r : regex) (s : jsstring) :
  matches (deriv c r) s ↔ matches r (c :: s).
Proof.
  revert s.
  induction r as [| |p|r1 IH1 r2 IH2|r1 IH1 r2 IH2|r IH]; intros s; simpl.
  - split; inversion 1.
  - split; inversion 1.
  - destruct (p c) eqn:Hp; split.
    + inversion 1; subst. by constructor.
    + inversion 1; subst. constructor.
    + inversion 1.
    + inversion 1; subst. congruence.
  - assert (matches (Cat (deriv c r1) r2) s ↔
            ∃ s1 s2, s = s1 ++ s2 ∧ matches r1 (c :: s1) ∧ matches r2 s2)
      as Hcat.
    { rewrite matches_cat_inv. by setoid_rewrite IH1. }
    rewrite (matches_cat_inv r1 r2 (c :: s)).
    destruct (nullable r1) eqn:Hn.
    + rewrite matches_alt_inv, Hcat, IH2. split.
      * intros [(s1 & s2 & -> & H1 & H2) | H2].
        -- by exists (c :: s1), s2.
        -- apply nullable_spec in Hn. by exists [], (c :: s).
      * intros (s1 & s2 & Hs & H1 & H2). destruct s1 as [|c1 s1].
        -- right. simpl in Hs. by subst.
        -- left. simpl in Hs. injection Hs as <- ->. eauto.
    + rewrite Hcat. split.
      * intros (s1 & s2 & -> & H1 & H2). by exists (c :: s1), s2.
      * intros (s1 & s2 & Hs & H1 & H2). destruct s1 as [|c1 s1].
        -- apply nullable_spec in H1. congruence.
        -- simpl in Hs. injection Hs as <- ->. eauto.
  - rewrite !matches_alt_inv, IH1, IH2. done.
  - rewrite matches_cat_inv. split.
    + intros (s1 & s2 & -> & H1 & H2). apply IH in H1.
      by apply (m_star_cons r (c :: s1) s2).
    + intros (s1 & s2 & -> & H1 & H2)%matches_star_cons_inv.
      exists s1, s2. by rewrite IH.
Qed.

Lemma test_spec (r : regex) (s : jsstring) : test r s = true ↔ matches r s.
Proof.
  revert r. induction s as [|c s IH]; intros r; simpl.
  - apply nullable_spec.
  - rewrite IH. apply deriv_spec.
Qed.

Lemma matches_star_class (p : N → bool) (s : jsstring) :
  matches (Star (Class p)) s ↔ Forall (λ c, p c = true) s.
Proof.
  induction s as [|c s IH].
  - split; constructor.
  - split.
    + intros (s1 & s2 & -> & H1 & H2)%matches_star_cons_inv.
      apply matches_class_inv in H1 as (c' & Heq & Hc).
      injection Heq as <- ->. constructor; [done |]. by apply IH.
    + intros [Hc Hs]%Forall_cons. apply IH in Hs.
      apply (m_star_cons _ [c] s); [by constructor | done].
Qed.

Lemma matches_plus_class (p : N → bool) (s : jsstring) :
  matches (Plus (Class p)) s ↔ s ≠ [] ∧ Forall (λ c, p c = true) s.
Proof.
  unfold Plus. rewrite matches_cat_inv. split.
  - intros (s1 & s2 & -> & (c & -> & Hc)%matches_class_inv
            & H2%matches_star_class).
    split; [done | by constructor].
  - intros [Hne Hall]. destruct s as [|c s]; [done |].
    apply Forall_cons in Hall as [Hc Hs].
    exists [c], s. split_and!; [done | by constructor |].
    by apply matches_star_class.
Qed.

Lemma matches_chr (c : N) (s : jsstring) : matches (Chr c) s ↔ s = [c].
Proof.
  unfold Chr. rewrite matches_class_inv. split.
  - intros (c' & -> & Hc%N.eqb_eq). by subst.
  - intros ->. exists c. split; [done | apply N.eqb_refl].
Qed.

Lemma trimStart_nil_iff (s : jsstring) :
  trimStart s = [] ↔ Forall (λ c, is_space c = true) s.
Proof.
  induction s as [|c s IH]; simpl.
  - split; constructor.
  - destruct (is_space c) eqn:Hc.
    + rewrite IH. split; [by constructor | by intros [_ ?]%Forall_cons].
    + split; [done |]. intros [? _]%Forall_cons. congruence.
Qed.

(** [!s.trim()] holds exactly of the strings that consist of white
    space, the empty one among them. *)
Lemma blank_spec (s : jsstring) :
  blank s = true ↔ Forall (λ c, is_space c = true) s.
Proof.
  unfold blank, trim, trimEnd.
  assert (∀ x : jsstring, negb (truthy x) = true ↔ x = []) as Hfalsy
    by (intros [|??]; simpl; split; congruence).
  rewrite Hfalsy.
  assert (∀ x : jsstring, rev x = [] ↔ x = []) as Hrev.
  { intros x. split; [| by intros ->].
    intros H. apply (f_equal (@rev N)) in H. by rewrite rev_involutive in H. }
  rewrite Hrev, trimStart_nil_iff.
  split.
  - intros Hall.
    destruct (trimStart s) as [|c s'] eqn:Hs; [by apply trimStart_nil_iff |].
    exfalso.
    assert (is_space c = false) as Hc.
    { clear -Hs. induction s as [|c0 s IH]; simpl in Hs; [done |].
      destruct (is_space c0) eqn:Hc0; [by apply IH |].
      by injection Hs as -> _. }
    apply Forall_forall with (x := c) in Hall; [congruence |].
    apply list_elem_of_In, (proj1 (in_rev _ _)). by left.
  - intros Hall. apply trimStart_nil_iff in Hall as ->. constructor.
Qed.

End RegexFacts.

(** ** Class lists *)

Section ClassList.
Import Dom.

Lemma elem_of_classList_add (c d : string) (l : list string) :
  d ∈ classList_add c l ↔ d = c ∨ d ∈ l.
Proof.
  unfold classList_add, classList_contains.
  case_bool_decide as Hc.
  - split; [auto | intros [-> | ?]; done].
  - rewrite elem_of_app, list_elem_of_singleton. tauto.
Qed.

Lemma elem_of_classList_remove (c d : string) (l : list string) :
  d ∈ classList_remove c l ↔ d ≠ c ∧ d ∈ l.
Proof. exact (list_elem_of_filter (λ x, x ≠ c) l d). Qed.

Lemma classList_contains_add (c : string) (l : list string) :
  classList_contains c (classList_add c l) = true.
Proof.
  unfold classList_contains. apply bool_decide_eq_true.
  apply elem_of_classList_add. by left.
Qed.

Lemma classList_contains_remove (c : string) (l : list string) :
  classList_contains c (classList_remove c l) = false.
Proof.
  unfold classList_contains. apply bool_decide_eq_false.
  rewrite elem_of_classList_remove. tauto.
Qed.

Lemma classList_contains_toggle (c : string) (force : bool) (l : list string) :
  classList_contains c (classList_toggle c force l) = force.
Proof.
  destruct force; simpl;
    [apply classList_contains_add | apply classList_contains_remove].
Qed.

Lemma classList_contains_add_ne (c d : string) (l : list string) :
  d ≠ c → classList_contains d (classList_add c l) = classList_contains d l.
Proof.
  intros Hne. unfold classList_contains. apply bool_decide_ext.
  rewrite elem_of_classList_add. tauto.
Qed.

Lemma classList_contains_remove_ne (c d : string) (l : list string) :
  d ≠ c → classList_contains d (classList_remove c l) = classList_contains d l.
Proof.
  intros Hne. unfold classList_contains. apply bool_decide_ext.
  rewrite elem_of_classList_remove. tauto.
Qed.

End ClassList.

(** ** Trees and references *)

Section DomFacts.
Import JsString Dom.

Lemma node_ind_kids (P : node → Prop) :
  (∀ s, P (Text s)) →
  (∀ pr ks, Forall P ks → P (Elem pr ks)) →
  ∀ n, P n.
Proof.
  intros HText HElem. fix IH 1. intros [s | pr ks].
  - apply HText.
  - apply HElem. induction ks as [|k ks IHks]; constructor; [apply IH | done].
Qed.

Lemma get_app (n : node) (p r : path) :
  get n (p ++ r) = get n p ≫= λ m, get m r.
Proof.
  revert n. induction p as [|i p IH]; intros n; simpl; [done |].
  destruct n as [s | pr ks]; [done |].
  destruct (ks !! i) as [k |]; simpl; [apply IH | done].
Qed.

Lemma update_app (f : node → node) (p r : path) (n : node) :
  update f (p ++ r) n = update (update f r) p n.
Proof.
  revert n. induction p as [|i p IH]; intros n; simpl; [done |].
  destruct n as [s | pr ks]; [done |]. f_equal.
  apply list_alter_ext; [| done]. intros k _. apply IH.
Qed.

Lemma get_update (f : node → node) (p : path) (n : node) :
  get (update f p n) p = f <$> get n p.
Proof.
  revert n. induction p as [|i p IH]; intros n; simpl; [done |].
  destruct n as [s | pr ks]; [done |].
  rewrite list_lookup_alter_eq. destruct (ks !! i) as [k |]; simpl; [apply IH | done].
Qed.

Lemma list_alter_None (h : node → node) (ks : list node) (i : nat) :
  ks !! i = None → alter h i ks = ks.
Proof.
  revert i. induction ks as [|k ks IH]; intros [|i] Hi; simpl in *; try done.
  f_equal. by apply IH.
Qed.

Lemma update_invalid (f : node → node) (p : path) (n : node) :
  get n p = None → update f p n = n.
Proof.
  revert n. induction p as [|i p IH]; intros n Hn; simpl in *; [done |].
  destruct n as [s | pr ks]; [done |]. f_equal.
  destruct (ks !! i) as [k |] eqn:Hk; simpl in Hn.
  - rewrite <- (list_alter_id id ks i) at 2 by done.
    apply list_alter_ext; [| done]. intros k' Hk'.
    assert (k' = k) as -> by congruence. by apply IH.
  - apply list_eq. intros j. destruct (decide (j = i)) as [-> | Hne].
    + by rewrite list_lookup_alter_eq, Hk.
    + by rewrite list_lookup_alter_ne.
Qed.

(** The node above the place of an update holds the updated subtree. *)
Lemma get_update_above (f : node → node) (p r : path) (n : node) :
  get (update f (p ++ r) n) p = update f r <$> get n p.
Proof. rewrite update_app. apply get_update. Qed.

(** A node below the place of an update is read in the updated subtree. *)
Lemma get_update_below (f : node → node) (q r : path) (n : node) :
  get (update f q n) (q ++ r) = get n q ≫= λ m, get (f m) r.
Proof.
  rewrite get_app, get_update. by destruct (get n q).
Qed.

(** A node aside of the place of an update is left alone. *)
Lemma get_update_diverge (f : node → node) (p q : path) (n : node) :
  diverge p q → get (update f q n) p = get n p.
Proof.
  intros (c & i & j & p' & q' & Hij & -> & ->).
  rewrite !get_app, get_update_above.
  destruct (get n c) as [[s | pr ks] |]; simpl; [done | | done].
  by rewrite list_lookup_alter_ne.
Qed.

Lemma path_cases (p q : path) :
  (∃ r, q = p ++ r) ∨ (∃ r, r ≠ [] ∧ p = q ++ r) ∨ diverge p q.
Proof.
  revert q. induction p as [|i p IH]; intros q.
  - left. by exists q.
  - destruct q as [|j q].
    + right. left. by exists (i :: p).
    + destruct (decide (i = j)) as [-> | Hij].
      * destruct (IH q) as [[r ->] | [(r & Hr & ->) | Hd]].
        -- left. by exists r.
        -- right. left. by exists r.
        -- right. right.
           destruct Hd as (c & i & j' & p' & q' & Hij & -> & ->).
           by exists (j :: c), i, j', p', q'.
      * right. right. by exists [], i, j, p, q.
Qed.

Lemma parentElement_snoc (p : path) (i : nat) : parentElement (p ++ [i]) = p.
Proof. apply removelast_last. Qed.

Lemma path_snoc (p : path) : p ≠ [] → ∃ q i, p = q ++ [i].
Proof.
  intros Hp. destruct (exists_last Hp) as (q & i & ->). by exists q, i.
Qed.

(** *** The first match *)

Lemma first_kid_None (f : node → option path) (ks : list node) (i : nat) :
  first_kid f ks i = None ↔ Forall (λ k, f k = None) ks.
Proof.
  revert i. induction ks as [|k ks IH]; intros i; simpl.
  - split; constructor.
  - destruct (f k) as [p |] eqn:Hk.
    + split; [done |]. intros [? _]%Forall_cons. congruence.
    + rewrite IH. split; [by constructor | by intros [_ ?]%Forall_cons].
Qed.

Lemma first_kid_Some (f : node → option path) (ks : list node) (i : nat)
    (p : path) :
  first_kid f ks i = Some p ↔
  ∃ j q k, p = (i + j) :: q ∧ ks !! j = Some k ∧ f k = Some q
           ∧ Forall (λ k', f k' = None) (take j ks).
Proof.
  revert i p. induction ks as [|k ks IH]; intros i p; simpl.
  - split; [done |]. by intros (j & q & k & _ & Hk & _).
  - destruct (f k) as [q0 |] eqn:Hk.
    + split.
      * intros [= <-]. exists 0, q0, k. rewrite Nat.add_0_r.
        split_and!; [done | done | done | constructor].
      * intros (j & q & k' & -> & Hj & Hq & Hbefore).
        destruct j as [|j]; simpl in *.
        -- injection Hj as <-. rewrite Nat.add_0_r. congruence.
        -- apply Forall_cons in Hbefore as [? _]. congruence.
    + rewrite IH. split.
      * intros (j & q & k' & -> & Hj & Hq & Hbefore).
        exists (S j), q, k'. split_and!; [f_equal; lia | done | done |].
        simpl. by constructor.
      * intros (j & q & k' & -> & Hj & Hq & Hbefore).
        destruct j as [|j]; simpl in *; [congruence |].
        apply Forall_cons in Hbefore as [_ Hbefore].
        exists j, q, k'. split_and!; [f_equal; lia | done | done | done].
Qed.

Lemma find_incl_None (sel : selector) (n : node) :
  find_incl sel n = None ↔ count_incl sel n = 0.
Proof.
  induction n as [s | pr ks IH] using node_ind_kids; simpl; [done |].
  destruct (matches_sel sel pr); [split; [done | lia] |].
  rewrite first_kid_None. simpl.
  induction IH as [|k ks Hk _ IHks]; simpl.
  - split; [done | constructor].
  - rewrite Forall_cons, Hk, IHks. lia.
Qed.

Lemma querySelector_None (sel : selector) (n : node) :
  querySelector sel n = None ↔ count_desc sel n = 0.
Proof.
  destruct n as [s | pr ks]; simpl; [done |].
  rewrite first_kid_None.
  induction ks as [|k ks IH]; simpl.
  - split; [done | constructor].
  - rewrite Forall_cons, find_incl_None, IH. lia.
Qed.

Lemma find_incl_Some (sel : selector) (n : node) (p : path) :
  find_incl sel n = Some p →
  ∃ pr ks, get n p = Some (Elem pr ks) ∧ matches_sel sel pr = true.
Proof.
  revert p. induction n as [s | pr ks IH] using node_ind_kids;
    intros p; simpl; [done |].
  destruct (matches_sel sel pr) eqn:Hpr.
  - intros [= <-]. by exists pr, ks.
  - intros (j & q & k & -> & Hj & Hq & _)%first_kid_Some. simpl.
    rewrite Hj. simpl.
    rewrite Forall_forall in IH. apply (IH k); [| done].
    by eapply list_elem_of_lookup_2.
Qed.

(** [querySelector] returns a descendant, and it matches. *)
Lemma querySelector_Some (sel : selector) (n : node) (p : path) :
  querySelector sel n = Some p →
  p ≠ [] ∧ ∃ pr ks, get n p = Some (Elem pr ks) ∧ matches_sel sel pr = true.
Proof.
  destruct n as [s | pr ks]; simpl; [done |].
  intros (j & q & k & -> & Hj & Hq & _)%first_kid_Some.
  split; [done |]. simpl. rewrite Hj. simpl. by apply find_incl_Some.
Qed.

Lemma list_sum_lookup_le (f : node → nat) (ks : list node) (i : nat)
    (k : node) :
  ks !! i = Some k → f k ≤ list_sum (map f ks).
Proof.
  revert i. induction ks as [|k' ks IH]; intros [|i] Hi; simpl in *; try done.
  - injection Hi as ->. lia.
  - specialize (IH i Hi). lia.
Qed.

Lemma count_desc_le_incl (sel : selector) (n : node) :
  count_desc sel n ≤ count_incl sel n.
Proof. destruct n; simpl; lia. Qed.

(** A subtree holds no more matches than the tree. *)
Lemma count_incl_get (sel : selector) (n : node) (p : path) (m : node) :
  get n p = Some m → count_incl sel m ≤ count_incl sel n.
Proof.
  revert n. induction p as [|i p IH]; intros n Hn; simpl in Hn.
  - injection Hn as ->. lia.
  - destruct n as [s | pr ks]; [done |].
    destruct (ks !! i) as [k |] eqn:Hk; simpl in Hn; [| done].
    specialize (IH k Hn).
    pose proof (list_sum_lookup_le (count_incl sel) ks i k Hk). simpl. lia.
Qed.

(** *** Weights and updates *)

Lemma list_sum_alter (f : node → nat) (h : node → node) (ks : list node)
    (i : nat) (k : node) :
  ks !! i = Some k →
  list_sum (map f (alter h i ks)) + f k = list_sum (map f ks) + f (h k).
Proof.
  revert i. induction ks as [|k' ks IH]; intros [|i] Hi; simpl in *; try done.
  - injection Hi as ->. lia.
  - specialize (IH i Hi). unfold alter in IH. lia.
Qed.

(** An update changes the weight of the tree by what it changes in the
    node it is applied to. *)
Lemma weight_update (w : props → nat) (g : node → node) (q : path)
    (n m : node) :
  get n q = Some m →
  weight w (update g q n) + weight w m = weight w n + weight w (g m).
Proof.
  revert n. induction q as [|i q IH]; intros n Hn; simpl in Hn.
  - injection Hn as ->. simpl. lia.
  - destruct n as [s | pr ks]; [done |].
    destruct (ks !! i) as [k |] eqn:Hk; simpl in Hn; [| done].
    specialize (IH k Hn). simpl.
    pose proof (list_sum_alter (weight w) (update g q) ks i k Hk). lia.
Qed.

Lemma count_incl_weight (sel : selector) (n : node) :
  count_incl sel n = weight (λ pr, if matches_sel sel pr then 1 else 0) n.
Proof.
  induction n as [s | pr ks IH] using node_ind_kids; simpl; [done |].
  f_equal. f_equal. apply map_ext_in. intros k Hk.
  rewrite Forall_forall in IH. apply IH. by apply list_elem_of_In.
Qed.

Lemma weight_set_textContent (w : props → nat) (t : jsstring) (pr : props)
    (ks : list node) :
  weight w (set_textContent t (Elem pr ks)) = w pr.
Proof. simpl. destruct (truthy t); simpl; lia. Qed.

Lemma count_incl_update (sel : selector) (g : node → node) (q : path)
    (n m : node) :
  get n q = Some m →
  count_incl sel (update g q n) + count_incl sel m
  = count_incl sel n + count_incl sel (g m).
Proof. rewrite !count_incl_weight. apply weight_update. Qed.

Lemma count_desc_update (sel : selector) (g : node → node) (q : path)
    (n m : node) :
  q ≠ [] → get n q = Some m →
  count_desc sel (update g q n) + count_incl sel m
  = count_desc sel n + count_incl sel (g m).
Proof.
  intros Hq Hm. pose proof (count_incl_update sel g q n m Hm) as Hincl.
  destruct q as [|i q]; [done |]. destruct n as [s | pr ks]; [done |].
  simpl in *. lia.
Qed.

Lemma size_update (g : node → node) (q : path) (n m : node) :
  get n q = Some m → size (update g q n) + size m = size n + size (g m).
Proof. apply weight_update. Qed.

Lemma count_incl_matching (sel : selector) (pr : props) (ks : list node) :
  matches_sel sel pr = true → 1 ≤ count_incl sel (Elem pr ks).
Proof. intros Hpr. simpl. rewrite Hpr. lia. Qed.

(** *** Trees in which no element has two matching children *)

Lemma tidy_Elem (sel : selector) (pr : props) (ks : list node) :
  tidy sel (Elem pr ks) = true ↔
  length (filter (λ k, is_match sel k = true) ks) ≤ 1
  ∧ Forall (λ k, tidy sel k = true) ks.
Proof.
  simpl. rewrite andb_true_iff, Nat.leb_le, forallb_forall, Forall_forall.
  by setoid_rewrite list_elem_of_In.
Qed.

Lemma filter_alter_is_match (sel : selector) (h : node → node)
    (ks : list node) (i : nat) :
  (∀ k, ks !! i = Some k → is_match sel (h k) = is_match sel k) →
  length (filter (λ k, is_match sel k = true) (alter h i ks))
  = length (filter (λ k, is_match sel k = true) ks).
Proof.
  revert i. induction ks as [|k ks IH]; intros [|i] Hh; simpl; try done.
  - change (list_alter ?h ?i ?l) with (alter h i l).
    rewrite !filter_cons. rewrite (Hh k eq_refl).
    by destruct (decide (is_match sel k = true)).
  - change (list_alter ?h ?i ?l) with (alter h i l).
    rewrite !filter_cons. specialize (IH i Hh).
    destruct (decide (is_match sel k = true)); simpl; by rewrite IH.
Qed.

Lemma is_match_update (sel : selector) (g : node → node) (q : path)
    (n m : node) :
  get n q = Some m → is_match sel (g m) = is_match sel m →
  is_match sel (update g q n) = is_match sel n.
Proof.
  intros Hm Hg. destruct q as [|i q]; simpl in *.
  - by injection Hm as ->.
  - by destruct n.
Qed.

(** An update keeps a tree tidy when it keeps the node it is applied
    to tidy and matching as before. *)
Lemma tidy_update (sel : selector) (g : node → node) (q : path) (n m : node) :
  get n q = Some m →
  is_match sel (g m) = is_match sel m →
  tidy sel (g m) = true →
  tidy sel n = true → tidy sel (update g q n) = true.
Proof.
  intros Hm Hmatch Hg. revert n Hm.
  induction q as [|i q IH]; intros n Hm Hn; simpl in Hm.
  - by injection Hm as ->.
  - destruct n as [s | pr ks]; [done |].
    destruct (ks !! i) as [k |] eqn:Hk; simpl in Hm; [| done].
    apply tidy_Elem in Hn as [Hone Hkids].
    change (update g (i :: q) (Elem pr ks))
      with (Elem pr (alter (update g q) i ks)).
    apply tidy_Elem. split.
    + rewrite filter_alter_is_match; [done |].
      intros k' Hk'. assert (k' = k) as -> by congruence.
      by apply (is_match_update sel g q k m).
    + apply Forall_alter; [done |].
      intros k' Hk'. assert (k' = k) as -> by congruence.
      by apply IH.
Qed.

(** The same for an update that keeps every node tidy and matching. *)
Lemma tidy_update_any (sel : selector) (g : node → node) (q : path)
    (n : node) :
  (∀ m, is_match sel (g m) = is_match sel m) →
  (∀ m, tidy sel m = true → tidy sel (g m) = true) →
  tidy sel n = true → tidy sel (update g q n) = true.
Proof.
  intros Hmatch Hg Hn. destruct (get n q) as [m |] eqn:Hm.
  - apply (tidy_update sel g q n m); [done | done | | done].
    apply Hg. clear Hmatch Hg. revert n Hm Hn.
    induction q as [|i q IH]; intros n Hm Hn; simpl in Hm.
    + by injection Hm as ->.
    + destruct n as [s | pr ks]; [done |].
      destruct (ks !! i) as [k |] eqn:Hk; simpl in Hm; [| done].
      apply tidy_Elem in Hn as [_ Hkids].
      apply (IH k); [done |].
      rewrite Forall_forall in Hkids. apply Hkids.
      by eapply list_elem_of_lookup_2.
  - by rewrite update_invalid.
Qed.

Lemma tidy_on_props (sel : selector) (h : props → props) (m : node) :
  tidy sel (on_props h m) = tidy sel m.
Proof. by destruct m. Qed.

Lemma is_match_on_props (sel : selector) (h : props → props) (m : node) :
  (∀ pr, matches_sel sel (h pr) = matches_sel sel pr) →
  is_match sel (on_props h m) = is_match sel m.
Proof. intros Hh. destruct m; simpl; [done | apply Hh]. Qed.

Lemma tidy_set_textContent (sel : selector) (t : jsstring) (m : node) :
  tidy sel (set_textContent t m) = true.
Proof. destruct m; simpl; [done |]. by destruct (truthy t). Qed.

Lemma is_match_map_incl (sel : selector) (h : props → props) (k : node) :
  (∀ pr, matches_sel sel (h pr) = matches_sel sel pr) →
  is_match sel (map_incl h k) = is_match sel k.
Proof. intros Hh. destruct k; simpl; [done | apply Hh]. Qed.

Lemma length_filter_map_is_match (sel : selector) (F : node → node)
    (ks : list node) :
  (∀ k, is_match sel (F k) = is_match sel k) →
  length (filter (λ k, is_match sel k = true) (map F ks))
  = length (filter (λ k, is_match sel k = true) ks).
Proof.
  intros HF. induction ks as [|k ks IH]; simpl; [done |].
  rewrite !filter_cons, HF.
  destruct (decide (is_match sel k = true)); simpl; by rewrite IH.
Qed.

Lemma tidy_map_incl (sel : selector) (h : props → props) (n : node) :
  (∀ pr, matches_sel sel (h pr) = matches_sel sel pr) →
  tidy sel n = true → tidy sel (map_incl h n) = true.
Proof.
  intros Hh. induction n as [s | pr ks IH] using node_ind_kids; [done |].
  intros [Hone Hkids]%tidy_Elem.
  change (map_incl h (Elem pr ks)) with (Elem (h pr) (map (map_incl h) ks)).
  apply tidy_Elem. split.
  - rewrite length_filter_map_is_match; [done |].
    intros k. by apply is_match_map_incl.
  - apply Forall_fmap. rewrite Forall_forall in IH, Hkids.
    apply Forall_forall. intros k Hk. apply IH; [done |]. by apply Hkids.
Qed.

Lemma keep_map_filter (keep : node → bool) (F : node → node)
    (ks : list node) :
  keep_map keep F ks = map F (filter (λ k, keep k = true) ks).
Proof.
  induction ks as [|k ks IH]; simpl; [done |].
  rewrite filter_cons. case_decide as Hk.
  - rewrite Hk. simpl. by rewrite IH.
  - by destruct (keep k).
Qed.

(** After the matching descendants are detached, none is left. *)
Lemma count_incl_remove_below (sel : selector) (n : node) :
  is_match sel n = false → count_incl sel (remove_below sel n) = 0.
Proof.
  induction n as [s | pr ks IH] using node_ind_kids; [done |].
  simpl. intros ->. simpl.
  induction IH as [|k ks Hk _ IHks]; simpl; [done |].
  destruct (is_match sel k) eqn:Hmatch; simpl; [done |].
  rewrite Hk by done. done.
Qed.

Lemma count_desc_remove_below (sel : selector) (n : node) :
  count_desc sel (remove_below sel n) = 0.
Proof.
  destruct n as [s | pr ks]; [done |]. simpl.
  induction ks as [|k ks IH]; simpl; [done |].
  destruct (is_match sel k) eqn:Hmatch; simpl; [done |].
  by rewrite count_incl_remove_below.
Qed.

Lemma count_incl_zero_is_match (sel : selector) (k : node) :
  count_incl sel k = 0 → is_match sel k = false.
Proof.
  destruct k as [s | pr ks]; simpl; [done |].
  destruct (matches_sel sel pr); [lia | done].
Qed.

Lemma tidy_of_count_desc (sel : selector) (n : node) :
  count_desc sel n = 0 → tidy sel n = true.
Proof.
  induction n as [s | pr ks IH] using node_ind_kids; [done |].
  intros Hz. simpl in Hz. apply tidy_Elem.
  induction IH as [|k ks Hk _ IHks]; simpl in *; [split; [lia | done] |].
  assert (count_incl sel k = 0) as Hzk by lia.
  destruct IHks as [Hone Hall]; [lia |].
  split.
  - rewrite filter_cons_False; [done |].
    by rewrite count_incl_zero_is_match.
  - constructor; [| done]. apply Hk.
    pose proof (count_desc_le_incl sel k). lia.
Qed.

Lemma tidy_remove_below (sel : selector) (n : node) :
  tidy sel (remove_below sel n) = true.
Proof. apply tidy_of_count_desc, count_desc_remove_below. Qed.

(** The subtrees of a tidy tree are tidy. *)
Lemma tidy_get (sel : selector) (n : node) (q : path) (m : node) :
  get n q = Some m → tidy sel n = true → tidy sel m = true.
Proof.
  revert n. induction q as [|i q IH]; intros n Hm Hn; simpl in Hm.
  - by injection Hm as ->.
  - destruct n as [s | pr ks]; [done |].
    destruct (ks !! i) as [k |] eqn:Hk; simpl in Hm; [| done].
    apply tidy_Elem in Hn as [_ Hkids]. apply (IH k); [done |].
    rewrite Forall_forall in Hkids. apply Hkids.
    by eapply list_elem_of_lookup_2.
Qed.

Lemma tidy_count_children (sel : selector) (n : node) :
  tidy sel n = true → count_children sel n ≤ 1.
Proof. destruct n as [s | pr ks]; simpl; [lia |]. by intros [? _]%tidy_Elem. Qed.

(** *** Weights under the operations of the script *)

Lemma list_sum_map_le (f g : node → nat) (ks : list node) :
  Forall (λ k, f k ≤ g k) ks → list_sum (map f ks) ≤ list_sum (map g ks).
Proof. induction 1; simpl; lia. Qed.

Lemma list_sum_map_eq (f g : node → nat) (ks : list node) :
  Forall (λ k, f k = g k) ks → list_sum (map f ks) = list_sum (map g ks).
Proof. induction 1; simpl; lia. Qed.

Lemma weight_le (w w' : props → nat) (n : node) :
  (∀ pr, w pr ≤ w' pr) → weight w n ≤ weight w' n.
Proof.
  intros Hw. induction n as [s | pr ks IH] using node_ind_kids; simpl; [done |].
  pose proof (list_sum_map_le _ _ ks IH). specialize (Hw pr). lia.
Qed.

Lemma weight_desc_le (w w' : props → nat) (n : node) :
  (∀ pr, w pr ≤ w' pr) → weight_desc w n ≤ weight_desc w' n.
Proof.
  intros Hw. destruct n as [s | pr ks]; simpl; [done |].
  apply list_sum_map_le, Forall_forall. intros k _. by apply weight_le.
Qed.

Lemma weight_desc_le_weight (w : props → nat) (n : node) :
  weight_desc w n ≤ weight w n.
Proof. destruct n; simpl; lia. Qed.

Lemma weight_map_incl (w : props → nat) (h : props → props) (n : node) :
  weight w (map_incl h n) = weight (λ pr, w (h pr)) n.
Proof.
  induction n as [s | pr ks IH] using node_ind_kids; simpl; [done |].
  f_equal. rewrite map_map. by apply list_sum_map_eq.
Qed.

Lemma weight_desc_map_desc (w : props → nat) (h : props → props) (n : node) :
  weight_desc w (map_desc h n) = weight_desc (λ pr, w (h pr)) n.
Proof.
  destruct n as [s | pr ks]; simpl; [done |].
  rewrite map_map. apply list_sum_map_eq, Forall_forall.
  intros k _. apply weight_map_incl.
Qed.

Lemma weight_remove_below (w : props → nat) (sel : selector) (n : node) :
  weight w (remove_below sel n) ≤ weight w n.
Proof.
  induction n as [s | pr ks IH] using node_ind_kids; simpl; [done |].
  apply Nat.add_le_mono_l.
  induction IH as [|k ks Hk _ IHks]; simpl; [done |].
  destruct (is_match sel k); simpl; lia.
Qed.

Lemma weight_desc_remove_below (w : props → nat) (sel : selector) (n : node) :
  weight_desc w (remove_below sel n) ≤ weight_desc w n.
Proof.
  destruct n as [s | pr ks]; simpl; [done |].
  induction ks as [|k ks IH]; simpl; [done |].
  pose proof (weight_remove_below w sel k).
  destruct (is_match sel k); simpl; lia.
Qed.

Lemma weight_get (w : props → nat) (n : node) (p : path) (m : node) :
  get n p = Some m → weight w m ≤ weight w n.
Proof.
  revert n. induction p as [|i p IH]; intros n Hn; simpl in Hn.
  - injection Hn as ->. lia.
  - destruct n as [s | pr ks]; [done |].
    destruct (ks !! i) as [k |] eqn:Hk; simpl in Hn; [| done].
    specialize (IH k Hn).
    pose proof (list_sum_lookup_le (weight w) ks i k Hk). simpl. lia.
Qed.

Lemma weight_desc_get (w : props → nat) (n : node) (p : path) (m : node) :
  p ≠ [] → get n p = Some m → weight w m ≤ weight_desc w n.
Proof.
  intros Hp Hn. destruct p as [|i p]; [done |]. simpl in Hn.
  destruct n as [s | pr ks]; [done |].
  destruct (ks !! i) as [k |] eqn:Hk; simpl in Hn; [| done].
  pose proof (weight_get w k p m Hn).
  pose proof (list_sum_lookup_le (weight w) ks i k Hk). simpl. lia.
Qed.

Lemma weight_desc_update (w : props → nat) (g : node → node) (q : path)
    (n m : node) :
  q ≠ [] → get n q = Some m →
  weight_desc w (update g q n) + weight w m
  = weight_desc w n + weight w (g m).
Proof.
  intros Hq Hm. pose proof (weight_update w g q n m Hm) as Hincl.
  destruct q as [|i q]; [done |]. destruct n as [s | pr ks]; [done |].
  simpl in *. lia.
Qed.

(** An update that does not add weight to the node it is applied to
    adds none to the tree. *)
Lemma weight_desc_update_le (w : props → nat) (g : node → node) (q : path)
    (n : node) :
  q ≠ [] → (∀ m, weight w (g m) ≤ weight w m) →
  weight_desc w (update g q n) ≤ weight_desc w n.
Proof.
  intros Hq Hg. destruct (get n q) as [m |] eqn:Hm.
  - pose proof (weight_desc_update w g q n m Hq Hm). specialize (Hg m). lia.
  - by rewrite update_invalid.
Qed.

Lemma weight_update_le (w : props → nat) (g : node → node) (q : path)
    (n : node) :
  (∀ m, weight w (g m) ≤ weight w m) → weight w (update g q n) ≤ weight w n.
Proof.
  intros Hg. destruct (get n q) as [m |] eqn:Hm.
  - pose proof (weight_update w g q n m Hm). specialize (Hg m). lia.
  - by rewrite update_invalid.
Qed.

Lemma count_desc_weight_desc (sel : selector) (n : node) :
  count_desc sel n
  = weight_desc (λ pr, if matches_sel sel pr then 1 else 0) n.
Proof.
  destruct n as [s | pr ks]; simpl; [done |].
  apply list_sum_map_eq, Forall_forall. intros k _. apply count_incl_weight.
Qed.

Lemma weight_set_textContent_le (w : props → nat) (t : jsstring) (m : node) :
  weight w (set_textContent t m) ≤ weight w m.
Proof.
  destruct m as [s | pr ks]; [done |].
  rewrite weight_set_textContent. simpl. lia.
Qed.

Lemma get_map_incl (h : props → props) (n : node) (p : path) :
  get (map_incl h n) p = map_incl h <$> get n p.
Proof.
  revert n. induction p as [|i p IH]; intros n; simpl; [done |].
  destruct n as [s | pr ks]; simpl; [done |].
  rewrite list_lookup_fmap. destruct (ks !! i) as [k |]; simpl; [apply IH | done].
Qed.

Lemma weight_zero (w : props → nat) (n : node) :
  (∀ pr, w pr = 0) → weight w n = 0.
Proof.
  intros Hw. induction n as [s | pr ks IH] using node_ind_kids; simpl; [done |].
  rewrite Hw. simpl. induction IH as [|k ks Hk _ IHks]; simpl; lia.
Qed.

Lemma weight_desc_zero (w : props → nat) (n : node) :
  (∀ pr, w pr = 0) → weight_desc w n = 0.
Proof.
  intros Hw. pose proof (weight_desc_le_weight w n).
  pose proof (weight_zero w n Hw). lia.
Qed.

Lemma weight_on_props_le (w : props → nat) (h : props → props) (m : node) :
  (∀ pr, w (h pr) ≤ w pr) → weight w (on_props h m) ≤ weight w m.
Proof.
  intros Hh. destruct m as [s | pr ks]; simpl; [done |].
  specialize (Hh pr). lia.
Qed.

Lemma matches_sel_set_disabled (sel : selector) (b : bool) (pr : props) :
  matches_sel sel (set_disabled b pr) = matches_sel sel pr.
Proof.
  unfold matches_sel. induction sel as [|s sel IH]; simpl; [done |].
  rewrite IH. by destruct s.
Qed.

Lemma textContent_on_props (h : props → props) (m : node) :
  textContent (on_props h m) = textContent m.
Proof. by destruct m. Qed.

(** *** The values of the controls *)

Lemma control_values_map_incl (h : props → props) (n : node) :
  (∀ pr, is_control (h pr) = is_control pr ∧ value (h pr) = value pr) →
  control_values (map_incl h n) = control_values n.
Proof.
  intros Hh. induction n as [s | pr ks IH] using node_ind_kids; simpl; [done |].
  destruct (Hh pr) as [-> ->]. f_equal. f_equal.
  rewrite map_map. induction IH as [|k ks Hk _ IHks]; simpl; [done |].
  by rewrite Hk, IHks.
Qed.

Lemma control_values_map_desc (h : props → props) (n : node) :
  (∀ pr, is_control (h pr) = is_control pr ∧ value (h pr) = value pr) →
  control_values (map_desc h n) = control_values n.
Proof.
  intros Hh. destruct n as [s | pr ks]; simpl; [done |]. f_equal. f_equal.
  rewrite map_map. apply map_ext. intros k. by apply control_values_map_incl.
Qed.

(** Detaching elements removes values from the sequence and changes
    none. *)
Lemma control_values_remove_below (sel : selector) (n : node) :
  control_values (remove_below sel n) `sublist_of` control_values n.
Proof.
  induction n as [s | pr ks IH] using node_ind_kids; simpl; [done |].
  apply sublist_app; [done |].
  induction IH as [|k ks Hk _ IHks]; simpl; [done |].
  destruct (is_match sel k); simpl.
  - by apply sublist_inserts_l.
  - by apply sublist_app.
Qed.

Lemma control_values_remove_below_outside (sel : selector) (n : node) :
  controls_outside sel n = true →
  control_values (remove_below sel n) = control_values n.
Proof.
  induction n as [s | pr ks IH] using node_ind_kids; simpl; [done |].
  intros Hout. f_equal.
  induction IH as [|k ks Hk _ IHks]; simpl in *; [done |].
  apply andb_true_iff in Hout as [Hk' Hks].
  destruct (is_match sel k); simpl.
  - destruct (control_values k); [| done]. simpl. by apply IHks.
  - by rewrite Hk, IHks.
Qed.

Lemma controls_outside_map_incl (sel : selector) (h : props → props)
    (n : node) :
  (∀ pr, matches_sel sel (h pr) = matches_sel sel pr) →
  (∀ pr, is_control (h pr) = is_control pr ∧ value (h pr) = value pr) →
  controls_outside sel (map_incl h n) = controls_outside sel n.
Proof.
  intros Hmatch Hh.
  induction n as [s | pr ks IH] using node_ind_kids; simpl; [done |].
  induction IH as [|k ks Hk _ IHks]; simpl; [done |].
  by rewrite is_match_map_incl, control_values_map_incl, Hk, IHks.
Qed.

Lemma controls_outside_map_desc (sel : selector) (h : props → props)
    (n : node) :
  (∀ pr, matches_sel sel (h pr) = matches_sel sel pr) →
  (∀ pr, is_control (h pr) = is_control pr ∧ value (h pr) = value pr) →
  controls_outside sel (map_desc h n) = controls_outside sel n.
Proof.
  intros Hmatch Hh. destruct n as [s | pr ks]; simpl; [done |].
  induction ks as [|k ks IH]; simpl; [done |].
  by rewrite is_match_map_incl, control_values_map_incl,
    controls_outside_map_incl, IH.
Qed.

(** *** What an update leaves as it was *)

Lemma get_on_props_below (h : props → props) (m : node) (r : path) :
  r ≠ [] → get (on_props h m) r = get m r.
Proof. intros Hr. destruct r; [done |]. by destruct m. Qed.

Lemma props_of_update_below (g : node → node) (r : path) (m : node) :
  r ≠ [] → props_of (update g r m) = props_of m.
Proof. intros Hr. destruct r; [done |]. by destruct m. Qed.

(** A write to the properties of the element at [t], seen from [x]:
    the node at [x] is as before, unless [x] lies on the way to [t]. *)
Lemma get_update_on_props_cases (h : props → props) (t x : path) (f : node) :
  get (update (on_props h) t f) x = get f x
  ∨ ∃ r, t = x ++ r
         ∧ get (update (on_props h) t f) x
           = update (on_props h) r <$> get f x.
Proof.
  destruct (path_cases x t) as [[r ->] | [(r & Hr & ->) | Hd]].
  - right. exists r. split; [done | apply get_update_above].
  - left. rewrite get_update_below, get_app.
    destruct (get f t) as [m |]; simpl; [| done].
    by apply get_on_props_below.
  - left. by apply get_update_diverge.
Qed.

Lemma props_at_update_on_props (h : props → props) (t x : path) (f : node) :
  x ≠ t → props_at (update (on_props h) t f) x = props_at f x.
Proof.
  intros Hne. unfold props_at.
  destruct (get_update_on_props_cases h t x f) as [-> | (r & -> & ->)];
    [done |].
  destruct (get f x) as [m |]; simpl; [| done].
  apply props_of_update_below. intros ->. by rewrite app_nil_r in Hne.
Qed.

Lemma count_desc_update_on_props (sel : selector) (h : props → props)
    (r : path) (m : node) :
  (∀ pr, matches_sel sel (h pr) = matches_sel sel pr) →
  count_desc sel (update (on_props h) r m) = count_desc sel m.
Proof.
  intros Hh. destruct r as [|i r]; [by destruct m |].
  destruct (get m (i :: r)) as [m' |] eqn:Hm'.
  - pose proof (count_desc_update sel (on_props h) (i :: r) m m'
                  ltac:(done) Hm') as Heq.
    assert (count_incl sel (on_props h m') = count_incl sel m') as Hm.
    { destruct m' as [s | pr ks]; simpl; [done |]. by rewrite Hh. }
    lia.
  - by rewrite update_invalid.
Qed.

Lemma count_at_update_on_props (sel : selector) (h : props → props)
    (t x : path) (f : node) :
  (∀ pr, matches_sel sel (h pr) = matches_sel sel pr) →
  count_desc sel <$> get (update (on_props h) t f) x
  = count_desc sel <$> get f x.
Proof.
  intros Hh.
  destruct (get_update_on_props_cases h t x f) as [-> | (r & -> & ->)];
    [done |].
  destruct (get f x) as [m |]; simpl; [| done].
  by rewrite count_desc_update_on_props.
Qed.

(** An update that keeps the properties of the node it is applied to,
    seen from an element that does not lie below that node. *)
Lemma props_at_update_keep (g : node → node) (q x : path) (f : node) :
  (∀ m, props_of (g m) = props_of m) →
  (∀ r, r ≠ [] → x ≠ q ++ r) →
  props_at (update g q f) x = props_at f x.
Proof.
  intros Hg Hx. unfold props_at.
  destruct (path_cases x q) as [[r ->] | [(r & Hr & ->) | Hd]].
  - rewrite get_update_above. destruct (get f x) as [m |]; simpl; [| done].
    destruct r as [|i r]; [apply Hg | by apply props_of_update_below].
  - by destruct (Hx r Hr).
  - by rewrite get_update_diverge.
Qed.

Lemma count_incl_le_desc (sel : selector) (m : node) (r : path) (m' : node) :
  r ≠ [] → get m r = Some m' → count_incl sel m' ≤ count_desc sel m.
Proof.
  intros Hr Hm'. rewrite count_incl_weight, count_desc_weight_desc.
  by apply (weight_desc_get _ m r).
Qed.

(** Writing the text of a matching element, seen from a node that is
    neither that element nor inside it: if matches lay below the node,
    some still do. *)
Lemma count_at_set_textContent (sel : selector) (t : jsstring) (q x : path)
    (f : node) (pr : props) (ks : list node) :
  get f q = Some (Elem pr ks) → matches_sel sel pr = true →
  (∀ r, x ≠ q ++ r) →
  1 ≤ from_option (count_desc sel) 0 (get f x) →
  1 ≤ from_option (count_desc sel) 0 (get (update (set_textContent t) q f) x).
Proof.
  intros Hq Hpr Hx Hone.
  destruct (path_cases x q) as [[r ->] | [(r & Hr & ->) | Hd]].
  - rewrite get_update_above.
    destruct (get f x) as [m |] eqn:Hm; simpl in *; [| done].
    assert (r ≠ []) as Hr.
    { intros ->. apply (Hx []). by rewrite !app_nil_r. }
    rewrite get_app, Hm in Hq. simpl in Hq.
    pose proof (count_desc_update sel (set_textContent t) r m _ Hr Hq) as Heq.
    pose proof (count_incl_le_desc sel m r _ Hr Hq) as Hle.
    rewrite (count_incl_weight sel (set_textContent t (Elem pr ks))),
      weight_set_textContent, Hpr in Heq.
    lia.
  - by destruct (Hx r).
  - by rewrite get_update_diverge.
Qed.

Lemma get_appendChild (c m : node) (r : path) :
  r ≠ [] → is_Some (get m r) → get (appendChild c m) r = get m r.
Proof.
  intros Hr Hm. destruct r as [|i r]; [done |].
  destruct m as [s | pr ks]; [done |]. simpl in *.
  destruct (ks !! i) as [k |] eqn:Hk; [| by destruct Hm].
  by rewrite lookup_app_l, Hk by by eapply lookup_lt_Some.
Qed.

(** Appending a child, seen from a node that was there before. *)
Lemma get_update_appendChild (c : node) (q x : path) (f : node) :
  is_Some (get f x) →
  get (update (appendChild c) q f) x = get f x
  ∨ ∃ r, q = x ++ r
         ∧ get (update (appendChild c) q f) x
           = update (appendChild c) r <$> get f x.
Proof.
  intros Hx.
  destruct (path_cases x q) as [[r ->] | [(r & Hr & ->) | Hd]].
  - right. exists r. split; [done | apply get_update_above].
  - left. rewrite get_update_below. rewrite get_app in Hx |- *.
    destruct (get f q) as [m |]; simpl in *; [| done].
    by apply get_appendChild.
  - left. by apply get_update_diverge.
Qed.

Lemma props_of_appendChild (c m : node) :
  props_of (appendChild c m) = props_of m.
Proof. by destruct m. Qed.

Lemma props_at_update_appendChild (c : node) (q x : path) (f : node) :
  is_Some (get f x) →
  props_at (update (appendChild c) q f) x = props_at f x.
Proof.
  intros Hx. unfold props_at.
  destruct (get_update_appendChild c q x f Hx) as [-> | (r & -> & ->)];
    [done |].
  destruct (get f x) as [m |]; simpl; [| done].
  destruct r as [|i r];
    [apply props_of_appendChild | by apply props_of_update_below].
Qed.

Lemma count_desc_appendChild (sel : selector) (c m : node) :
  count_desc sel m ≤ count_desc sel (appendChild c m).
Proof.
  destruct m as [s | pr ks]; simpl; [done |].
  rewrite map_app, list_sum_app. lia.
Qed.

Lemma count_incl_appendChild (sel : selector) (c m : node) :
  count_incl sel m ≤ count_incl sel (appendChild c m).
Proof.
  destruct m as [s | pr ks]; simpl; [done |].
  rewrite map_app, list_sum_app. lia.
Qed.

Lemma count_at_update_appendChild (sel : selector) (c : node) (q x : path)
    (f : node) :
  1 ≤ from_option (count_desc sel) 0 (get f x) →
  1 ≤ from_option (count_desc sel) 0 (get (update (appendChild c) q f) x).
Proof.
  intros Hone.
  assert (is_Some (get f x)) as Hx.
  { destruct (get f x); [by eexists | simpl in Hone; lia]. }
  destruct (get_update_appendChild c q x f Hx) as [-> | (r & -> & ->)];
    [done |].
  destruct (get f x) as [m |]; simpl in *; [| done].
  destruct r as [|i r].
  - pose proof (count_desc_appendChild sel c m). simpl. lia.
  - destruct (get m (i :: r)) as [m' |] eqn:Hm'.
    + pose proof (count_desc_update sel (appendChild c) (i :: r) m m'
                    ltac:(done) Hm').
      pose proof (count_incl_appendChild sel c m'). lia.
    + by rewrite update_invalid.
Qed.

Lemma weight_desc_map_incl (w : props → nat) (h : props → props) (n : node) :
  weight_desc w (map_incl h n) = weight_desc (λ pr, w (h pr)) n.
Proof.
  destruct n as [s | pr ks]; simpl; [done |].
  rewrite map_map. apply list_sum_map_eq, Forall_forall.
  intros k _. apply weight_map_incl.
Qed.

Lemma weight_appendChild (w : props → nat) (c m : node) :
  weight w (appendChild c m) ≤ weight w m + weight w c.
Proof.
  destruct m as [s | pr ks]; simpl; [lia |].
  rewrite map_app, list_sum_app. simpl. lia.
Qed.

(** An update anywhere, the root included, that adds no weight to the
    node it is applied to and keeps its properties. *)
Lemma weight_desc_update_keep_le (w : props → nat) (g : node → node)
    (q : path) (n : node) :
  (∀ m, weight w (g m) ≤ weight w m) →
  (∀ m, props_of (g m) = props_of m) →
  weight_desc w (update g q n) ≤ weight_desc w n.
Proof.
  intros Hg Hprops. destruct q as [|i q].
  - simpl. specialize (Hg n). specialize (Hprops n).
    destruct (g n) as [s | pr ks], n as [s' | pr' ks']; simpl in *;
      try done.
    injection Hprops as ->. lia.
  - by apply weight_desc_update_le.
Qed.

(** A write to the properties of an element, the root included. *)
Lemma weight_desc_update_on_props_le (w : props → nat) (h : props → props)
    (q : path) (n : node) :
  (∀ pr, w (h pr) ≤ w pr) →
  weight_desc w (update (on_props h) q n) ≤ weight_desc w n.
Proof.
  intros Hh. destruct q as [|i q]; [by destruct n |].
  apply weight_desc_update_le; [done |].
  intros m. by apply weight_on_props_le.
Qed.

End DomFacts.

(** ** Mobile menu *)

Section MobileMenuFacts.
Import Dom MobileMenu.

Lemma close_closed (s : state) :
  checked (close s) = false ∧ nav_active (close s) = false.
Proof. split; [done | apply classList_contains_remove]. Qed.

Lemma close_consistent (s : state) : consistent (close s).
Proof. unfold consistent. by destruct (close_closed s) as [-> ->]. Qed.

Lemma on_change_consistent (s : state) : consistent (on_change s).
Proof. apply classList_contains_toggle. Qed.

Lemma link_listeners_cases (ls : list path) (target : path) (s : state) :
  let s' := foldr (λ link s, if contains link target then on_link_click s
                             else s) s ls in
  (Exists (λ link, contains link target = true) ls ∧ s' = close s' )
  ∨ (Forall (λ link, contains link target = false) ls ∧ s' = s).
Proof.
  induction ls as [|l ls IH]; simpl.
  - right. by split.
  - destruct (contains l target) eqn:Hl.
    + left. split; [by apply Exists_cons_hd |].
      unfold on_link_click, close. simpl. f_equal.
      unfold classList_remove. by rewrite list_filter_filter_l.
    + destruct IH as [[Hex Heq] | [Hall Heq]].
      * left. split; [by apply Exists_cons_tl | done].
      * right. split; [by apply Forall_cons | done].
Qed.

Lemma link_listeners_consistent (ls : list path) (target : path) (s : state) :
  consistent s →
  consistent (foldr (λ link s, if contains link target then on_link_click s
                               else s) s ls).
Proof.
  intros Hs. destruct (link_listeners_cases ls target s) as [[_ ->] | [_ ->]];
    [apply close_consistent | done].
Qed.

Lemma on_document_click_consistent (L : layout) (target : path) (s : state) :
  consistent s → consistent (on_document_click L target s).
Proof.
  intros Hs. unfold on_document_click.
  destruct (_ && _); [apply close_consistent | done].
Qed.

Lemma on_keydown_consistent (key : string) (s : state) :
  consistent s → consistent (on_keydown key s).
Proof.
  intros Hs. unfold on_keydown.
  destruct (_ && _); [apply close_consistent | done].
Qed.

Lemma step_consistent (L : layout) (e : event) (s : state) :
  consistent s → consistent (step L e s).
Proof.
  intros Hs. destruct e as [b | target | key]; simpl.
  - apply on_change_consistent.
  - by apply on_document_click_consistent, link_listeners_consistent.
  - by apply on_keydown_consistent.
Qed.

Lemma run_consistent (L : layout) (es : list event) (s : state) :
  consistent s → consistent (run L es s).
Proof.
  revert s. induction es as [|e es IH]; intros s Hs; [done |].
  apply IH. by apply step_consistent.
Qed.

End MobileMenuFacts.

Section MobileMenuClaims.
Import Dom MobileMenu.

(** C2. The navigation container carries the active class if and only if
    the toggle is checked, at every point of every sequence of change,
    click and key events: each listener keeps the equivalence, and so
    does every run that starts in a state where it holds. *)
Theorem menu_active_iff_checked (L : layout) (s : state) :
  consistent s →
  consistent (on_change s)
  ∧ consistent (on_link_click s)
  ∧ (∀ target, consistent (on_document_click L target s))
  ∧ (∀ key, consistent (on_keydown key s))
  ∧ (∀ es, consistent (run L es s))
  ∧ (∀ es, "active" ∈ navClasses (run L es s) ↔ checked (run L es s) = true).
Proof.
  intros Hs. repeat split.
  - apply on_change_consistent.
  - apply close_consistent.
  - intros target. by apply on_document_click_consistent.
  - intros key. by apply on_keydown_consistent.
  - intros es. by apply run_consistent.
  - intros Hin. rewrite <- (run_consistent L es s Hs).
    by apply bool_decide_eq_true.
  - intros Hc. rewrite <- (run_consistent L es s Hs) in Hc.
    by apply bool_decide_eq_true in Hc.
Qed.

Lemma menu_active_iff_checked_witness :
  consistent
    (run (Layout [0] [1] [[0; 0]; [0; 1]])
         [Change true; Click [0; 1; 0]; Change true; Click [2];
          Change true; KeyDown "Escape"]
         (State false ["nav"])).
Proof.
  apply (menu_active_iff_checked (Layout [0] [1] [[0; 0]; [0; 1]])
           (State false ["nav"])).
  reflexivity.
Defined.






End MobileMenuClaims.

(** ** Scroll manager *)

Section ScrollManagerFacts.
Import Dom ScrollManager.

Lemma gt_spec (a b : Q) : gt a b = true ↔ (b < a)%Q.
Proof.
  unfold gt. destruct (Qlt_le_dec b a) as [Hlt | Hle].
  - tauto.
  - split; [done |]. intros Hlt. by apply Qle_not_lt in Hle.
Qed.

Lemma started_ready (y : Q) : ready (started y).
Proof. split; [by eexists | done]. Qed.

Lemma on_scroll_ready (s : state) : ready s → ready (on_scroll s).
Proof.
  intros [Hbtn Hq]. unfold on_scroll. unfold coalesced in Hq.
  destruct (ticking s) eqn:Ht; simpl.
  - split; [done |]. unfold coalesced. by rewrite Ht.
  - split; [done |]. unfold coalesced. simpl. by rewrite Hq.
Qed.

Lemma updateScrollButton_ticking (s : state) :
  is_Some (scrollToTopBtn s) →
  ticking (updateScrollButton s) = false
  ∧ frameQueue (updateScrollButton s) = frameQueue s
  ∧ is_Some (scrollToTopBtn (updateScrollButton s))
  ∧ scrollY (updateScrollButton s) = scrollY s
  ∧ scrollThreshold (updateScrollButton s) = scrollThreshold s.
Proof.
  intros [cls Hcls]. unfold updateScrollButton. rewrite Hcls. simpl.
  repeat split. by eexists.
Qed.

Lemma frame_ready (s : state) :
  ready s →
  ready (step Frame s)
  ∧ ticking (step Frame s) = false
  ∧ frameQueue (step Frame s) = [].
Proof.
  intros [Hbtn Hq]. unfold coalesced in Hq. simpl. rewrite Hq.
  destruct (ticking s) eqn:Ht; simpl.
  - destruct (updateScrollButton_ticking
                (State (scrollToTopBtn s) true [] (scrollY s)
                       (scrollThreshold s)) Hbtn)
      as (Htick & Hqueue & Hsome & _).
    unfold ready, coalesced. rewrite Htick, Hqueue. simpl. by repeat split.
  - unfold ready, coalesced. simpl. by repeat split.
Qed.

Lemma step_ready (e : event) (s : state) : ready s → ready (step e s).
Proof.
  intros Hs. destruct e as [y | | t].
  - simpl. apply on_scroll_ready. destruct Hs as [Hbtn Hq]. by split.
  - by apply frame_ready.
  - destruct Hs as [Hbtn Hq]. by split.
Qed.

Lemma run_ready (es : list event) (s : state) : ready s → ready (run es s).
Proof.
  revert s. induction es as [|e es IH]; intros s Hs; [done |].
  apply IH. by apply step_ready.
Qed.

Lemma updateScrollButton_visible (s : state) :
  is_Some (scrollToTopBtn s) →
  visible (updateScrollButton s) = gt (scrollY s) (scrollThreshold s).
Proof.
  intros [cls Hcls]. unfold visible, updateScrollButton. rewrite Hcls. simpl.
  apply classList_contains_toggle.
Qed.

Lemma scroll_then_frame (s : state) (y : Q) :
  ready s →
  step Frame (step (Scroll y) s)
  = updateScrollButton
      (State (scrollToTopBtn s) true [] y (scrollThreshold s)).
Proof.
  intros [Hbtn Hq]. unfold coalesced in Hq.
  unfold step at 2. unfold on_scroll. cbn [ticking frameQueue negb].
  destruct (ticking s) eqn:Ht; cbn [negb].
  - unfold step. cbn [frameQueue scrollToTopBtn ticking scrollY
                      scrollThreshold]. rewrite Hq. reflexivity.
  - unfold step. cbn [frameQueue scrollToTopBtn ticking scrollY
                      scrollThreshold]. rewrite Hq. reflexivity.
Qed.

(** C4. After [updateScrollButton] has run, the button carries the
    visible class if and only if the scroll offset exceeds the
    threshold: for every offset and threshold on any state in which the
    button exists, in every state the module can reach after [init], and
    at the end of the frame that follows a scroll event.  The threshold
    [init] starts with is 300. *)
Theorem scroll_button_visible_iff (y t : Q) :
  (∀ cls tick queue,
      visible (updateScrollButton (State (Some cls) tick queue y t)) = true
      ↔ (t < y)%Q)
  ∧ (∀ es y0,
        let s := run es (started y0) in
        visible (updateScrollButton s) = true
        ↔ (scrollThreshold s < scrollY s)%Q)
  ∧ (∀ es y0,
        let s := step (Configure t) (run es (started y0)) in
        visible (step Frame (step (Scroll y) s)) = true ↔ (t < y)%Q)
  ∧ (∀ y0, scrollThreshold (started y0) = 300%Q).
Proof.
  repeat apply conj.
  - intros cls tick queue. rewrite updateScrollButton_visible by by eexists.
    apply gt_spec.
  - intros es y0 s. destruct (run_ready es _ (started_ready y0)) as [Hbtn _].
    rewrite updateScrollButton_visible by done. apply gt_spec.
  - intros es y0 s.
    assert (ready s) as Hs by apply step_ready, run_ready, started_ready.
    rewrite scroll_then_frame by done.
    rewrite updateScrollButton_visible by apply Hs.
    apply gt_spec.
  - done.
Qed.

(** C5. In every state the module reaches after [init], whatever the
    sequence of scroll events, frames and reconfigurations: at most one
    recomputation waits for its frame; [ticking] is true exactly while
    one waits; a scroll event that finds it true schedules nothing; a
    frame runs the recomputation, which resets the flag and leaves
    nothing waiting; and the next scroll event schedules one again. *)
Theorem at_most_one_pending_recomputation (es : list event) (y0 : Q) :
  let s := run es (started y0) in
  length (frameQueue s) ≤ 1
  ∧ (ticking s = true ↔ frameQueue s = [UpdateScrollButton])
  ∧ (ticking s = false ↔ frameQueue s = [])
  ∧ (ticking s = true → ∀ y, frameQueue (step (Scroll y) s) = frameQueue s)
  ∧ ticking (step Frame s) = false
  ∧ frameQueue (step Frame s) = []
  ∧ (∀ y, frameQueue (step (Scroll y) (step Frame s)) = [UpdateScrollButton]
          ∧ ticking (step (Scroll y) (step Frame s)) = true).
Proof.
  intros s.
  assert (ready s) as Hs by apply run_ready, started_ready.
  destruct (frame_ready s Hs) as (Hs' & Htick & Hqueue).
  destruct Hs as [Hbtn Hq]. unfold coalesced in Hq.
  split_and!.
  - rewrite Hq. destruct (ticking s); simpl; lia.
  - rewrite Hq. by destruct (ticking s).
  - rewrite Hq. by destruct (ticking s).
  - intros Ht y. simpl. unfold on_scroll. simpl. by rewrite Ht.
  - done.
  - done.
  - intros y. set (s' := step Frame s) in *. unfold step, on_scroll.
    cbn [ticking frameQueue]. rewrite Htick, Hqueue. done.
Qed.

End ScrollManagerFacts.

(** ** Lazy loading of images *)

Section LazyLoadFacts.
Import JsString Dom PerformanceOptimizer.











End LazyLoadFacts.

(** ** Form manager *)

Section EmailPattern.
Import JsString Regex FormManager.

Lemma not_space_at_spec (c : N) :
  not_space_at c = true ↔ is_space c = false ∧ c ≠ 64%N.
Proof.
  unfold not_space_at.
  rewrite andb_true_iff, !negb_true_iff, N.eqb_neq. done.
Qed.

(** The pattern accepts exactly [local@domain.tld] with the three parts
    non-empty and free of white space and of [@]. *)
Lemma isValidEmail_spec (s : jsstring) :
  isValidEmail s = true ↔
  ∃ l d t, s = l ++ 64%N :: d ++ 46%N :: t
           ∧ l ≠ [] ∧ d ≠ [] ∧ t ≠ []
           ∧ Forall (λ c, not_space_at c = true) (l ++ d ++ t).
Proof.
  unfold isValidEmail, emailRegex. rewrite test_spec. split.
  - intros (l & s1 & -> & [Hl Hlok]%matches_plus_class
            & (a & s2 & -> & ->%matches_chr
            & (d & s3 & -> & [Hd Hdok]%matches_plus_class
            & (b & t & -> & ->%matches_chr
            & [Ht Htok]%matches_plus_class)%matches_cat_inv
              )%matches_cat_inv)%matches_cat_inv)%matches_cat_inv.
    exists l, d, t. split_and!; try done.
    by rewrite !Forall_app.
  - intros (l & d & t & -> & Hl & Hd & Ht & Hok).
    rewrite !Forall_app in Hok. destruct Hok as (Hlok & Hdok & Htok).
    apply (m_cat _ _ l); [by apply matches_plus_class |].
    apply (m_cat _ _ [64%N]); [by apply matches_chr |].
    apply (m_cat _ _ d); [by apply matches_plus_class |].
    apply (m_cat _ _ [46%N]); [by apply matches_chr |].
    by apply matches_plus_class.
Qed.

End EmailPattern.

Section ShowErrorFacts.
Import JsString Dom FormManager.

Lemma update_update (f g : node → node) (p : path) (n : node) :
  update f p (update g p n) = update (f ∘ g) p n.
Proof.
  revert n. induction p as [|i p IH]; intros n; simpl; [done |].
  destruct n as [s | pr ks]; [done |]. f_equal.
  rewrite list_alter_alter_eq. apply list_alter_ext; [| done].
  intros k _. apply IH.
Qed.

Lemma update_ext_at (f g : node → node) (p : path) (n m : node) :
  get n p = Some m → f m = g m → update f p n = update g p n.
Proof.
  revert n. induction p as [|i p IH]; intros n Hn Hfg; simpl in *.
  - by injection Hn as ->.
  - destruct n as [s | pr ks]; [done |]. f_equal.
    apply list_alter_ext; [| done]. intros k Hk. rewrite Hk in Hn.
    by apply IH.
Qed.

(** [showError] acts within the parent of the field. *)
Lemma showError_local (form : node) (q : path) (i : nat) (msg : jsstring)
    (n : node) :
  get form q = Some n →
  showError (Some (q ++ [i])) msg form = update (showError_in i msg) q form.
Proof.
  intros Hq. unfold showError. rewrite parentElement_snoc.
  rewrite !(update_app _ q [i]), update_update.
  set (mark := update (setAttribute "aria-invalid" "true") [i]
               ∘ update (addClass "error") [i]).
  assert (get (update mark q form) q = Some (mark n)) as Hq'
    by by rewrite get_update, Hq.
  rewrite Hq'. cbn [mbind option_bind from_option].
  assert (showError_in i msg n
          = match querySelector sel_error_message (mark n) with
            | Some rel => update (set_textContent msg) rel (mark n)
            | None => update (set_textContent msg) [childCount (mark n)]
                             (appendChild errorSpan (mark n))
            end) as Hin by done.
  destruct (querySelector sel_error_message (mark n)) as [rel |].
  - rewrite update_app, update_update.
    apply (update_ext_at _ _ _ _ n Hq). by rewrite Hin.
  - rewrite update_update, update_app, update_update.
    apply (update_ext_at _ _ _ _ n Hq). by rewrite Hin.
Qed.

Lemma is_match_set_textContent (sel : selector) (t : jsstring) (m : node) :
  is_match sel (set_textContent t m) = is_match sel m.
Proof. by destruct m. Qed.

Lemma props_of_set_textContent (t : jsstring) (m : node) :
  props_of (set_textContent t m) = props_of m.
Proof. by destruct m. Qed.

Lemma textContent_set_textContent (t : jsstring) (m : node) :
  textContent (set_textContent t m) = t.
Proof.
  destruct m as [s | pr ks]; simpl; [done |].
  destruct t; simpl; [done |]. by rewrite app_nil_r.
Qed.

Lemma matches_error_message (pr : props) :
  matches_sel sel_error_message pr
  = classList_contains "error-message" (classList pr).
Proof. unfold matches_sel. simpl. apply andb_true_r. Qed.

Lemma matches_error (pr : props) :
  matches_sel sel_error pr = classList_contains "error" (classList pr).
Proof. unfold matches_sel. simpl. apply andb_true_r. Qed.

Lemma props_of_update (g : node → node) (r : path) (m : node) :
  (∀ m', props_of (g m') = props_of m') →
  props_of (update g r m) = props_of m.
Proof.
  intros Hg. destruct r as [|j r]; simpl; [apply Hg |]. by destruct m.
Qed.

Lemma is_match_props_of (sel : selector) (m m' : node) :
  props_of m = props_of m' → is_match sel m = is_match sel m'.
Proof. destruct m, m'; simpl; congruence. Qed.

(** An update that keeps the node it is applied to matching leaves the
    first match where it was. *)
Lemma find_incl_update_same (sel : selector) (g : node → node) (n : node)
    (p : path) :
  (∀ m, is_match sel (g m) = is_match sel m) →
  find_incl sel n = Some p → find_incl sel (update g p n) = Some p.
Proof.
  intros Hg. revert p.
  induction n as [s | pr ks IH] using node_ind_kids; intros p; [done |].
  simpl. destruct (matches_sel sel pr) eqn:Hpr.
  - intros [= <-]. simpl.
    specialize (Hg (Elem pr ks)). simpl in Hg. rewrite Hpr in Hg.
    destruct (g (Elem pr ks)) as [s | pr' ks']; simpl in *; [done |].
    by rewrite Hg.
  - intros (j & q & k & -> & Hj & Hq & Hbefore)%first_kid_Some.
    simpl. rewrite Hpr. apply first_kid_Some.
    exists j, q, (update g q k). split_and!.
    + done.
    + by rewrite list_lookup_alter_eq, Hj.
    + rewrite Forall_forall in IH. apply IH; [| done].
      by eapply list_elem_of_lookup_2.
    + by rewrite take_alter_ge.
Qed.

Lemma querySelector_update_same (sel : selector) (g : node → node) (n : node)
    (p : path) :
  (∀ m, is_match sel (g m) = is_match sel m) →
  querySelector sel n = Some p → querySelector sel (update g p n) = Some p.
Proof.
  intros Hg. destruct n as [s | pr ks]; [done |]. simpl.
  intros (j & q & k & -> & Hj & Hq & Hbefore)%first_kid_Some.
  simpl. apply first_kid_Some.
  exists j, q, (update g q k). split_and!.
  - done.
  - by rewrite list_lookup_alter_eq, Hj.
  - by apply find_incl_update_same.
  - by rewrite take_alter_ge.
Qed.

(** What [showError] leaves in the parent of the field: the first
    error-message element below the parent reads [msg], and the field
    carries the error class and [aria-invalid="true"]. *)
Lemma showError_in_shown (i : nat) (msg : jsstring) (pr : props)
    (ks : list node) (pe : props) (kse : list node) :
  ks !! i = Some (Elem pe kse) →
  let n' := showError_in i msg (Elem pr ks) in
  (∃ rel, querySelector sel_error_message n' = Some rel
          ∧ textContent <$> get n' rel = Some msg)
  ∧ props_at n' [i]
    = Some (set_attrs (insert "aria-invalid" "true")
              (set_classList (classList_add "error") pe)).
Proof.
  intros Hi n'. subst n'. unfold showError_in.
  set (mark := λ k, setAttribute "aria-invalid" "true" (addClass "error" k)).
  assert (update (setAttribute "aria-invalid" "true") [i]
            (update (addClass "error") [i] (Elem pr ks))
          = Elem pr (alter mark i ks)) as ->.
  { simpl. by rewrite list_alter_alter_eq. }
  assert (alter mark i ks !! i
          = Some (Elem (set_attrs (insert "aria-invalid" "true")
                          (set_classList (classList_add "error") pe)) kse))
    as Hi' by by rewrite list_lookup_alter_eq, Hi.
  destruct (querySelector sel_error_message (Elem pr (alter mark i ks)))
    as [rel |] eqn:Hsel.
  - split.
    + exists rel. split.
      * apply querySelector_update_same; [| done].
        apply is_match_set_textContent.
      * rewrite get_update.
        apply querySelector_Some in Hsel as (_ & pr' & ks' & -> & _).
        cbn [fmap option_fmap option_map].
        by rewrite textContent_set_textContent.
    + apply querySelector_Some in Hsel as (Hrel & _).
      destruct rel as [|j r]; [done |]. unfold props_at. simpl.
      destruct (decide (j = i)) as [-> | Hne].
      * rewrite list_lookup_alter_eq, Hi'. simpl.
        rewrite props_of_update by apply props_of_set_textContent. done.
      * rewrite list_lookup_alter_ne, Hi' by done. done.
  - apply (first_kid_None _ _ 0) in Hsel.
    assert (update (set_textContent msg) [childCount (Elem pr (alter mark i ks))]
              (appendChild errorSpan (Elem pr (alter mark i ks)))
            = Elem pr (alter mark i ks ++ [set_textContent msg errorSpan]))
      as ->.
    { simpl. f_equal.
      rewrite <- (Nat.add_0_r (length (alter mark i ks))).
      by rewrite alter_app_r. }
    split.
    + exists [length (alter mark i ks)]. split.
      * simpl. apply first_kid_Some.
        exists (length (alter mark i ks)), [], (set_textContent msg errorSpan).
        split_and!.
        -- done.
        -- by rewrite lookup_app_r, Nat.sub_diag.
        -- done.
        -- by rewrite take_app_length.
      * simpl. rewrite lookup_app_r, Nat.sub_diag by done. simpl.
        f_equal. apply (textContent_set_textContent msg errorSpan).
    + unfold props_at. simpl.
      rewrite lookup_app_l by by eapply lookup_lt_Some.
      by rewrite Hi'.
Qed.

Lemma weight_mark (w : props → nat) (i : nat) (pr : props)
    (ks : list node) :
  (∀ pe, w (set_attrs (insert "aria-invalid" "true")
              (set_classList (classList_add "error") pe)) = w pe) →
  weight w (Elem pr (alter (λ k, setAttribute "aria-invalid" "true"
                                   (addClass "error" k)) i ks))
  = weight w (Elem pr ks).
Proof.
  intros Hw. simpl. f_equal.
  destruct (ks !! i) as [k |] eqn:Hi.
  - pose proof (list_sum_alter (weight w)
                  (λ k, setAttribute "aria-invalid" "true"
                          (addClass "error" k)) ks i k Hi) as Hsum.
    assert (weight w (setAttribute "aria-invalid" "true" (addClass "error" k))
            = weight w k) as Hk.
    { destruct k as [s | pe kse]; [done |]. simpl. by rewrite Hw. }
    lia.
  - change (list_alter ?h i ks) with (alter h i ks).
    by rewrite list_alter_None.
Qed.

(** The error-message elements below the parent of the field, and the
    elements of the parent, before and after [showError]. *)
Lemma showError_in_count (i : nat) (msg : jsstring) (pr : props)
    (ks : list node) (pe : props) (kse : list node) :
  ks !! i = Some (Elem pe kse) →
  let n := Elem pr ks in
  let n' := showError_in i msg n in
  props_of n' = Some pr
  ∧ 1 ≤ count_desc sel_error_message n'
  ∧ (1 ≤ count_desc sel_error_message n →
     count_desc sel_error_message n' ≤ count_desc sel_error_message n
     ∧ size n' ≤ size n)
  ∧ (count_desc sel_error_message n = 0 →
     count_desc sel_error_message n' = 1 ∧ size n' = size n + 1).
Proof.
  intros Hi n n'. subst n n'. unfold showError_in.
  set (mark := λ k, setAttribute "aria-invalid" "true" (addClass "error" k)).
  assert (update (setAttribute "aria-invalid" "true") [i]
            (update (addClass "error") [i] (Elem pr ks))
          = Elem pr (alter mark i ks)) as ->.
  { simpl. by rewrite list_alter_alter_eq. }
  assert (count_incl sel_error_message (Elem pr (alter mark i ks))
          = count_incl sel_error_message (Elem pr ks)) as Hcount.
  { rewrite !count_incl_weight. apply weight_mark. intros pe'.
    rewrite !matches_error_message. simpl.
    by rewrite classList_contains_add_ne. }
  assert (size (Elem pr (alter mark i ks)) = size (Elem pr ks)) as Hsize
    by by apply weight_mark.
  assert (count_desc sel_error_message (Elem pr (alter mark i ks))
          = count_desc sel_error_message (Elem pr ks)) as Hdesc.
  { simpl in Hcount. simpl. lia. }
  destruct (querySelector sel_error_message (Elem pr (alter mark i ks)))
    as [rel |] eqn:Hsel.
  - pose proof (querySelector_update_same _ (set_textContent msg) _ _
                  (is_match_set_textContent _ msg) Hsel) as Hsel'.
    apply querySelector_Some in Hsel as (Hrel & pr' & ks' & Hget & Hmatch).
    pose proof (count_desc_update sel_error_message (set_textContent msg)
                  rel _ _ Hrel Hget) as Hupd.
    pose proof (size_update (set_textContent msg) rel _ _ Hget) as Hupds.
    pose proof (count_incl_matching _ pr' ks' Hmatch) as Hone.
    assert (count_incl sel_error_message (set_textContent msg (Elem pr' ks'))
            = 1) as Htext
      by by rewrite count_incl_weight, weight_set_textContent, Hmatch.
    assert (size (set_textContent msg (Elem pr' ks')) = 1) as Htexts
      by apply weight_set_textContent.
    rewrite Htext in Hupd. rewrite Htexts in Hupds.
    assert (1 ≤ size (Elem pr' ks')) as Hones by (unfold size; simpl; lia).
    assert (count_desc sel_error_message
              (update (set_textContent msg) rel (Elem pr (alter mark i ks)))
            ≠ 0) as Hpos.
    { intros Hz. apply querySelector_None in Hz. congruence. }
    split_and!.
    + destruct rel as [|j r]; [done | done].
    + lia.
    + intros _. lia.
    + intros Hz. lia.
  - pose proof (proj1 (querySelector_None _ _) Hsel) as Hz.
    assert (update (set_textContent msg) [childCount (Elem pr (alter mark i ks))]
              (appendChild errorSpan (Elem pr (alter mark i ks)))
            = Elem pr (alter mark i ks ++ [set_textContent msg errorSpan]))
      as ->.
    { simpl. f_equal.
      rewrite <- (Nat.add_0_r (length (alter mark i ks))).
      by rewrite alter_app_r. }
    assert (count_desc sel_error_message
              (Elem pr (alter mark i ks ++ [set_textContent msg errorSpan]))
            = 1) as Hnew.
    { change (list_sum (map (count_incl sel_error_message)
                          (alter mark i ks ++ [set_textContent msg errorSpan]))
              = 1).
      rewrite map_app, list_sum_app.
      change (list_sum (map (count_incl sel_error_message) (alter mark i ks)))
        with (count_desc sel_error_message (Elem pr (alter mark i ks))).
      rewrite Hz. cbn [map list_sum]. unfold errorSpan.
      rewrite count_incl_weight, weight_set_textContent. reflexivity. }
    assert (size (Elem pr (alter mark i ks ++ [set_textContent msg errorSpan]))
            = size (Elem pr ks) + 1) as Hnews.
    { rewrite <- Hsize. unfold size. simpl.
      rewrite map_app, list_sum_app. simpl.
      destruct (truthy msg); simpl; lia. }
    split_and!.
    + done.
    + lia.
    + intros Hone. lia.
    + intros _. lia.
Qed.

End ShowErrorFacts.

Section ValidationFacts.
Import JsString Dom FormManager.

Lemma is_descendant_child (form : node) (e : path) :
  is_descendant form e →
  ∃ q i pr ks pe kse,
    e = q ++ [i] ∧ get form q = Some (Elem pr ks)
    ∧ ks !! i = Some (Elem pe kse).
Proof.
  intros (He & pe & kse & Hget).
  destruct (path_snoc e He) as (q & i & ->).
  rewrite get_app in Hget.
  destruct (get form q) as [[s | pr ks] |] eqn:Hq; simpl in Hget; try done.
  destruct (ks !! i) as [k |] eqn:Hi; simpl in Hget; [| done].
  injection Hget as ->. by exists q, i, pr, ks, pe, kse.
Qed.

(** An element found by [querySelector] lies below the root. *)
Lemma querySelector_is_descendant (sel : selector) (form : node) (e : path) :
  querySelector sel form = Some e → is_descendant form e.
Proof.
  intros (He & pe & kse & Hget & _)%querySelector_Some.
  split; [done |]. by exists pe, kse.
Qed.

Lemma showError_displays (form : node) (e : path) (msg : jsstring) :
  is_descendant form e → displays (showError (Some e) msg form) e msg.
Proof.
  intros (q & i & pr & ks & pe & kse & -> & Hq & Hi)%is_descendant_child.
  rewrite (showError_local _ _ _ _ _ Hq).
  destruct (showError_in_shown i msg pr ks pe kse Hi)
    as [(rel & Hrel & Htext) Hprops].
  assert (get (update (showError_in i msg) q form) q
          = Some (showError_in i msg (Elem pr ks))) as Hq'
    by by rewrite get_update, Hq.
  unfold displays, shownError, hasClass, getAttribute.
  rewrite parentElement_snoc, get_app, Hq'.
  cbn [mbind option_bind]. rewrite Hrel. cbn [mbind option_bind].
  unfold props_at in Hprops.
  destruct (get (showError_in i msg (Elem pr ks)) [i]) as [[s | pe' kse'] |];
    try done.
  injection Hprops as ->. split_and!; [done | | ].
  - simpl. apply classList_contains_add.
  - simpl. apply lookup_insert_eq.
Qed.

(** [showError] on a field: the field stays where it is; afterwards
    its parent holds at least one error-message element; if it held one
    before, it holds no more than before and the form has not grown; if
    it held none, it holds one and the form has grown by one element. *)
Lemma showError_errorMessages (form : node) (e : path) (msg : jsstring) :
  is_descendant form e →
  let f' := showError (Some e) msg form in
  is_descendant f' e
  ∧ 1 ≤ errorMessagesIn f' e
  ∧ (1 ≤ errorMessagesIn form e →
     errorMessagesIn f' e ≤ errorMessagesIn form e ∧ size f' ≤ size form)
  ∧ (errorMessagesIn form e = 0 →
     errorMessagesIn f' e = 1 ∧ size f' = size form + 1).
Proof.
  intros (q & i & pr & ks & pe & kse & -> & Hq & Hi)%is_descendant_child f'.
  subst f'. rewrite (showError_local _ _ _ _ _ Hq).
  destruct (showError_in_shown i msg pr ks pe kse Hi) as [_ Hprops].
  destruct (showError_in_count i msg pr ks pe kse Hi)
    as (_ & Hone & Hreuse & Hcreate).
  pose proof (size_update (showError_in i msg) q form _ Hq) as Hsize.
  assert (get (update (showError_in i msg) q form) q
          = Some (showError_in i msg (Elem pr ks))) as Hq'
    by by rewrite get_update, Hq.
  unfold errorMessagesIn. rewrite parentElement_snoc, Hq, Hq'.
  cbn [from_option]. split_and!.
  - split; [by destruct q |]. rewrite get_app, Hq'. cbn [mbind option_bind].
    unfold props_at in Hprops.
    destruct (get (showError_in i msg (Elem pr ks)) [i]) as [[s | pe' kse'] |];
      try done.
    by exists pe', kse'.
  - done.
  - intros Hpos. destruct (Hreuse Hpos). split; [done | lia].
  - intros Hz. destruct (Hcreate Hz). split; [done | lia].
Qed.

Lemma isValidEmail_local_at_domain (v : jsstring) :
  isValidEmail v = true ↔ local_at_domain v.
Proof.
  rewrite isValidEmail_spec. unfold local_at_domain.
  do 3 (apply exist_proper; intros ?).
  rewrite (Forall_iff _ _ _ not_space_at_spec). done.
Qed.

End ValidationFacts.

Section FormInvariantFacts.
Import JsString Dom FormManager.

Lemma matches_error_message_classList (h : props → props) (pr : props) :
  classList (h pr) = classList pr →
  matches_sel sel_error_message (h pr) = matches_sel sel_error_message pr.
Proof. intros Hh. by rewrite !matches_error_message, Hh. Qed.

Lemma matches_error_message_add_error (pr : props) :
  matches_sel sel_error_message (set_classList (classList_add "error") pr)
  = matches_sel sel_error_message pr.
Proof.
  rewrite !matches_error_message. simpl. by apply classList_contains_add_ne.
Qed.

Lemma matches_error_message_unmark (pr : props) :
  matches_sel sel_error_message
    (if matches_sel sel_error pr then unmark pr else pr)
  = matches_sel sel_error_message pr.
Proof.
  destruct (matches_sel sel_error pr); [| done].
  rewrite !matches_error_message. simpl.
  by apply classList_contains_remove_ne.
Qed.

Lemma no_matching_child (sel : selector) (pr : props) (ks : list node) :
  count_desc sel (Elem pr ks) = 0 →
  filter (λ k, is_match sel k = true) ks = [].
Proof.
  simpl. induction ks as [|k ks IH]; simpl; [done |]. intros Hz.
  rewrite filter_cons_False; [apply IH; lia |].
  rewrite count_incl_zero_is_match; [done | lia].
Qed.

Lemma tidy_appendChild_errorSpan (n : node) :
  count_desc sel_error_message n = 0 →
  tidy sel_error_message n = true →
  tidy sel_error_message (appendChild errorSpan n) = true.
Proof.
  destruct n as [s | pr ks]; [done |].
  intros Hz [_ Hkids]%tidy_Elem.
  change (appendChild errorSpan (Elem pr ks)) with (Elem pr (ks ++ [errorSpan])).
  apply tidy_Elem. split.
  - rewrite filter_app, (no_matching_child _ pr ks Hz). done.
  - apply Forall_app. split; [done |]. by constructor.
Qed.

Lemma tidy_showError_in (i : nat) (msg : jsstring) (n : node) :
  tidy sel_error_message n = true →
  tidy sel_error_message (showError_in i msg n) = true.
Proof.
  intros Hn. unfold showError_in.
  set (n2 := update (setAttribute "aria-invalid" "true") [i]
               (update (addClass "error") [i] n)).
  assert (tidy sel_error_message n2 = true) as Hn2.
  { subst n2. apply tidy_update_any.
    - intros m. apply is_match_on_props. intros pr.
      by apply matches_error_message_classList.
    - intros m Hm. unfold setAttribute, addClass. by rewrite tidy_on_props.
    - apply tidy_update_any; [| | done].
      + intros m. apply is_match_on_props.
        apply matches_error_message_add_error.
      + intros m Hm. unfold setAttribute, addClass. by rewrite tidy_on_props. }
  destruct (querySelector sel_error_message n2) as [rel |] eqn:Hsel.
  - apply tidy_update_any; [| | done].
    + intros m. apply is_match_set_textContent.
    + intros m _. apply tidy_set_textContent.
  - apply tidy_update_any.
    + intros m. apply is_match_set_textContent.
    + intros m _. apply tidy_set_textContent.
    + apply tidy_appendChild_errorSpan; [| done].
      by apply querySelector_None.
Qed.

Lemma tidy_showError (form : node) (e : path) (msg : jsstring) :
  is_descendant form e →
  tidy sel_error_message form = true →
  tidy sel_error_message (showError (Some e) msg form) = true.
Proof.
  intros (q & i & pr & ks & pe & kse & -> & Hq & Hi)%is_descendant_child Hf.
  rewrite (showError_local _ _ _ _ _ Hq).
  destruct (showError_in_count i msg pr ks pe kse Hi) as (Hprops & _).
  apply (tidy_update _ _ _ _ _ Hq); [| | done].
  - by apply is_match_props_of.
  - apply tidy_showError_in. by apply (tidy_get _ form q).
Qed.

Lemma tidy_clearErrors (form : node) :
  tidy sel_error_message (clearErrors form) = true.
Proof. apply tidy_remove_below. Qed.

Lemma tidy_validateForm (form : node) :
  tidy sel_error_message form = true →
  tidy sel_error_message (validateForm form).2 = true.
Proof.
  intros Hf. unfold validateForm.
  destruct (querySelector sel_email form) as [e |] eqn:He; [| done].
  apply querySelector_is_descendant in He.
  destruct (blank (valueOf form e)); [by apply tidy_showError |].
  destruct (isValidEmail (valueOf form e)); [| by apply tidy_showError].
  cbn [negb].
  destruct (querySelector sel_textarea form) as [t |] eqn:Ht; [| done].
  apply querySelector_is_descendant in Ht.
  destruct (blank (valueOf form t)); [by apply tidy_showError |].
  apply tidy_clearErrors.
Qed.

Lemma tidy_run_task (j : task) (f : node) :
  tidy sel_error_message f = true →
  tidy sel_error_message (run_task j f) = true.
Proof.
  intros Hf. destruct j as [b orig]. unfold run_task.
  apply tidy_update_any.
  - intros m. apply is_match_on_props. intros pr.
    by apply matches_error_message_classList.
  - intros m Hm. unfold setAttribute, addClass. by rewrite tidy_on_props.
  - apply tidy_update_any.
    + intros m. apply is_match_set_textContent.
    + intros m _. apply tidy_set_textContent.
    + apply tidy_map_incl; [| done]. intros pr.
      by destruct (is_control pr).
Qed.

Lemma tidy_handleSubmit (pg : page) :
  tidy sel_error_message (form pg) = true →
  tidy sel_error_message (form (handleSubmit pg)) = true.
Proof.
  intros Hf. unfold handleSubmit.
  pose proof (tidy_validateForm _ Hf) as Hv.
  destruct (validateForm (form pg)) as [ok f]. simpl in Hv.
  destruct ok; [| done]. cbn [negb].
  destruct (querySelector sel_submit f) as [b |]; [| done].
  simpl. apply tidy_update_any.
  - intros m. apply is_match_on_props. intros pr.
    by apply matches_error_message_classList.
  - intros m Hm. unfold setAttribute, addClass. by rewrite tidy_on_props.
  - apply tidy_update_any; [| | done].
    + intros m. apply is_match_set_textContent.
    + intros m _. apply tidy_set_textContent.
Qed.

Lemma tidy_step (e : event) (pg : page) :
  tidy sel_error_message (form pg) = true →
  tidy sel_error_message (form (step e pg)) = true.
Proof.
  intros Hf. destruct e as [| el v | dt]; simpl.
  - by apply tidy_handleSubmit.
  - apply tidy_update_any; [| | done].
    + intros m. apply is_match_on_props. intros pr.
      by apply matches_error_message_classList.
    + intros m Hm. unfold setAttribute, addClass. by rewrite tidy_on_props.
  - generalize (filter (λ t, (due t ≤ clock pg + dt)%N) (timers pg)).
    intros ts. revert Hf. generalize (form pg).
    induction ts as [|t ts IH]; intros f Hf; [done |].
    simpl. apply IH. by apply tidy_run_task.
Qed.

Lemma tidy_run (es : list event) (pg : page) :
  tidy sel_error_message (form pg) = true →
  tidy sel_error_message (form (run es pg)) = true.
Proof.
  revert pg. induction es as [|e es IH]; intros pg Hf; [done |].
  simpl. apply IH. by apply tidy_step.
Qed.

End FormInvariantFacts.


Section ValidationClaims.
Import JsString Dom FormManager.

(** C1, as the code has it.  Validation looks at the first email input
    and the first textarea of the form, in that order, and stops at the
    first failure.  A missing email input fails validation and nothing is
    displayed.  A present email input whose value is blank displays
    "Email is required"; one whose value is not blank and does not have
    the shape local@domain.tld displays "Please enter a valid email".
    When the email passes: a missing textarea fails validation and
    nothing is displayed, a blank textarea displays "Message is
    required", and otherwise validation succeeds and the errors of the
    form are cleared.  Blank means made of white space only; the shape
    is a non-empty local part, [@], a non-empty domain label, a dot and
    a non-empty rest, none of them holding white space or [@].
    "a@b.co" passes; "" is blank; "abc", "a@b" and "a @b.co" are not
    blank and do not have the shape. *)
Theorem validateForm_ordered_errors (form : node) :
  let email := querySelector sel_email form in
  let textarea := querySelector sel_textarea form in
  (email = None → validateForm form = (false, form))
  ∧ (∀ e, email = Some e →
       let v := valueOf form e in
       (blank v = true →
        validateForm form = (false, showError (Some e) msg_email_required form)
        ∧ displays (validateForm form).2 e msg_email_required)
       ∧ (blank v = false → isValidEmail v = false →
          validateForm form
          = (false, showError (Some e) msg_email_invalid form)
          ∧ displays (validateForm form).2 e msg_email_invalid)
       ∧ (blank v = false → isValidEmail v = true →
          (textarea = None → validateForm form = (false, form))
          ∧ (∀ t, textarea = Some t →
               (blank (valueOf form t) = true →
                validateForm form
                = (false, showError (Some t) msg_message_required form)
                ∧ displays (validateForm form).2 t msg_message_required)
               ∧ (blank (valueOf form t) = false →
                  validateForm form = (true, clearErrors form)))))
  ∧ (∀ v, (blank v = true ↔ Forall (λ c, is_space c = true) v)
          ∧ (isValidEmail v = true ↔ local_at_domain v))
  ∧ (blank (lit "a@b.co") = false ∧ isValidEmail (lit "a@b.co") = true)
  ∧ blank (lit "") = true
  ∧ (blank (lit "abc") = false ∧ isValidEmail (lit "abc") = false)
  ∧ (blank (lit "a@b") = false ∧ isValidEmail (lit "a@b") = false)
  ∧ (blank (lit "a @b.co") = false ∧ isValidEmail (lit "a @b.co") = false).
Proof.
  intros email textarea. split_and!.
  - intros He. unfold validateForm. fold email. by rewrite He.
  - intros e He v. unfold validateForm. fold email textarea.
    rewrite He. fold v. split_and!.
    + intros ->. split; [reflexivity |].
      by apply showError_displays, (querySelector_is_descendant sel_email).
    + intros -> ->. split; [reflexivity |].
      by apply showError_displays, (querySelector_is_descendant sel_email).
    + intros -> ->. cbn [negb]. split.
      * by intros ->.
      * intros t Ht. rewrite Ht. split.
        -- intros ->. split; [reflexivity |].
           by apply showError_displays,
             (querySelector_is_descendant sel_textarea).
        -- by intros ->.
  - intros v. split; [apply blank_spec | apply isValidEmail_local_at_domain].
  - vm_compute. reflexivity.
  - vm_compute. reflexivity.
  - vm_compute. reflexivity.
  - vm_compute. reflexivity.
  - vm_compute. reflexivity.
  - vm_compute. reflexivity.
  - vm_compute. reflexivity.
  - vm_compute. reflexivity.
  - vm_compute. reflexivity.
Qed.

Lemma validateForm_ordered_errors_witness :
  let form := Samples.contactForm "a@b.co" "  " in
  validateForm form
  = (false, showError (Some Samples.messageField) msg_message_required form)
  ∧ displays (validateForm form).2 Samples.messageField msg_message_required.
Proof.
  intros form.
  destruct (validateForm_ordered_errors form) as (_ & Hemail & _).
  destruct (Hemail Samples.emailField) as (_ & _ & Hpass);
    [vm_compute; reflexivity |].
  destruct Hpass as (_ & Hmessage);
    [vm_compute; reflexivity | vm_compute; reflexivity |].
  destruct (Hmessage Samples.messageField) as (Hblank & _);
    [vm_compute; reflexivity |].
  apply Hblank. vm_compute. reflexivity.
Defined.

(** C1, as it is worded, fails on a form without an email input:
    validation fails, but no error is displayed, because [showError]
    returns at once when it is handed no element. *)
Lemma missing_email_displays_nothing :
  let form := Samples.formWithoutEmail "hello" in
  querySelector sel_email form = None
  ∧ validateForm form = (false, form)
  ∧ count_desc sel_error_message (validateForm form).2 = 0
  ∧ ∀ el, ¬ displays (validateForm form).2 el msg_email_required.
Proof.
  intros form.
  assert (validateForm form = (false, form)) as Hv by (vm_compute; reflexivity).
  split_and!; [vm_compute; reflexivity | done | vm_compute; reflexivity |].
  intros el (Hshown & _). revert Hshown. rewrite Hv.
  change ((false, form).2) with form. unfold shownError.
  destruct (get form (parentElement el)) as [n |] eqn:Hn; [| done].
  cbn [mbind option_bind].
  assert (querySelector sel_error_message n = None) as ->; [| done].
  apply querySelector_None.
  pose proof (count_desc_le_incl sel_error_message n).
  pose proof (count_incl_get sel_error_message form _ n Hn) as Hle.
  assert (count_incl sel_error_message form = 0) as Hform
    by (vm_compute; reflexivity).
  lia.
Qed.

(** The contact form with each of the sample addresses. *)
Example validateForm_samples :
  (validateForm (Samples.contactForm "a@b.co" "hello")).1 = true
  ∧ displays (validateForm (Samples.contactForm "" "hello")).2
             Samples.emailField msg_email_required
  ∧ displays (validateForm (Samples.contactForm "   " "hello")).2
             Samples.emailField msg_email_required
  ∧ displays (validateForm (Samples.contactForm "abc" "hello")).2
             Samples.emailField msg_email_invalid
  ∧ displays (validateForm (Samples.contactForm "a@b" "hello")).2
             Samples.emailField msg_email_invalid
  ∧ displays (validateForm (Samples.contactForm "a @b.co" "hello")).2
             Samples.emailField msg_email_invalid
  ∧ displays (validateForm (Samples.contactForm "a@b.co" "")).2
             Samples.messageField msg_message_required
  ∧ shownError (validateForm (Samples.contactForm "" "")).2
               Samples.messageField = None.
Proof. unfold displays. split_and!; vm_compute; reflexivity. Qed.

End ValidationClaims.

Section ErrorMessageClaims.
Import JsString Dom FormManager.

Lemma repeated_showError (form : node) (e : path) (msgs : list jsstring) :
  is_descendant form e →
  is_descendant (foldl (λ f m, showError (Some e) m f) form msgs) e
  ∧ errorMessagesIn (foldl (λ f m, showError (Some e) m f) form msgs) e
    ≤ 1 `max` errorMessagesIn form e.
Proof.
  revert form. induction msgs as [|msg msgs IH]; intros form He; cbn [foldl].
  - split; [done | lia].
  - destruct (showError_errorMessages form e msg He)
      as (He' & Hone & Hreuse & Hcreate).
    destruct (IH _ He') as [Hdesc Hle]. split; [done |].
    destruct (errorMessagesIn form e) as [|k] eqn:Hk.
    + destruct Hcreate as [Heq _]; [done |]. lia.
    + destruct Hreuse as [Hle' _]; [lia |]. lia.
Qed.

(** C6. [showError] on a field reuses an error-message element that its
    parent already holds: the form gains no element, the parent holds no
    more error-message elements than before, and the message is what the
    first of them reads.  Only when the parent holds none is one
    created, and then it holds exactly one.  So errors shown again and
    again on the same field never leave more error-message elements
    below its parent than one, or than were there to begin with.  And
    for every sequence of submissions, valid or not, of edits and of
    timer runs: if no element of the form starts with two error-message
    children, then none ever has two, the parent of any field among
    them. *)
Theorem at_most_one_error_message (form : node) (e : path) :
  is_descendant form e →
  (∀ msg,
     let f' := showError (Some e) msg form in
     is_descendant f' e
     ∧ displays f' e msg
     ∧ 1 ≤ errorMessagesIn f' e
     ∧ (1 ≤ errorMessagesIn form e →
        errorMessagesIn f' e ≤ errorMessagesIn form e ∧ size f' ≤ size form)
     ∧ (errorMessagesIn form e = 0 →
        errorMessagesIn f' e = 1 ∧ size f' = size form + 1))
  ∧ (∀ msgs,
       errorMessagesIn (foldl (λ f m, showError (Some e) m f) form msgs) e
       ≤ 1 `max` errorMessagesIn form e)
  ∧ (tidy sel_error_message form = true →
     ∀ es now pending el,
       let pg := run es (Page form now pending) in
       tidy sel_error_message (FormManager.form pg) = true
       ∧ errorMessageChildren (FormManager.form pg) el ≤ 1).
Proof.
  intros He. split_and!.
  - intros msg f'.
    destruct (showError_errorMessages form e msg He) as (? & ? & ? & ?).
    split_and!; try done. by apply showError_displays.
  - intros msgs. by apply repeated_showError.
  - intros Htidy es now pending el pg.
    assert (tidy sel_error_message (FormManager.form pg) = true) as Hpg
      by by apply tidy_run.
    split; [done |]. unfold errorMessageChildren.
    destruct (get (FormManager.form pg) (parentElement el)) as [n |] eqn:Hn;
      simpl; [| lia].
    by apply tidy_count_children, (tidy_get _ _ _ _ Hn).
Qed.

Lemma at_most_one_error_message_witness :
  let form := Samples.contactForm "" "" in
  let pg := run [Submit; Submit; Input Samples.emailField (lit "abc"); Submit;
                 Input Samples.emailField (lit "a@b.co"); Submit; Submit]
                (Page form 0 []) in
  errorMessageChildren (FormManager.form pg) Samples.emailField ≤ 1
  ∧ errorMessageChildren (FormManager.form pg) Samples.messageField ≤ 1.
Proof.
  intros form pg.
  assert (is_descendant form Samples.emailField) as He.
  { split; [done |]. vm_compute. eauto. }
  destruct (at_most_one_error_message form Samples.emailField He)
    as (_ & _ & Hrun).
  split; apply Hrun; vm_compute; reflexivity.
Defined.

End ErrorMessageClaims.

Section SubmissionFacts.
Import JsString Dom FormManager.

(** Validation succeeds only by way of [clearErrors]. *)
Lemma validateForm_true (f f1 : node) :
  validateForm f = (true, f1) → f1 = clearErrors f.
Proof.
  unfold validateForm.
  destruct (querySelector sel_email f) as [e |]; [| done].
  destruct (blank (valueOf f e)); [done |].
  destruct (isValidEmail (valueOf f e)); [| done]. cbn [negb].
  destruct (querySelector sel_textarea f) as [t |]; [| done].
  destruct (blank (valueOf f t)); [done |]. congruence.
Qed.

Lemma count_desc_error_clearErrors (f : node) :
  count_desc sel_error (clearErrors f) = 0.
Proof.
  unfold clearErrors, forEach_desc.
  rewrite count_desc_weight_desc.
  pose proof (weight_desc_remove_below
                (λ pr, if matches_sel sel_error pr then 1 else 0)
                sel_error_message
                (map_desc (λ pr, if matches_sel sel_error pr then unmark pr
                                 else pr) f)) as Hle.
  rewrite weight_desc_map_desc in Hle.
  rewrite (weight_desc_zero _ f) in Hle; [lia |].
  intros pr. destruct (matches_sel sel_error pr) eqn:Hpr; [| by rewrite Hpr].
  rewrite matches_error. simpl. by rewrite classList_contains_remove.
Qed.

Lemma count_desc_error_message_clearErrors (f : node) :
  count_desc sel_error_message (clearErrors f) = 0.
Proof. apply count_desc_remove_below. Qed.

Lemma ariaInvalidCount_clearErrors (f : node) :
  ariaInvalidCount (clearErrors f) ≤ strayAriaInvalid f.
Proof.
  unfold ariaInvalidCount, strayAriaInvalid, clearErrors, forEach_desc.
  etrans; [apply weight_desc_remove_below |].
  rewrite weight_desc_map_desc. apply weight_desc_le. intros pr.
  rewrite matches_error.
  destruct (classList_contains "error" (classList pr)); simpl.
  - unfold has_aria_invalid. simpl. rewrite lookup_delete_eq.
    rewrite bool_decide_eq_false_2; [lia |]. by intros [? ?].
  - rewrite andb_true_r. done.
Qed.

(** The two writes to the submit button add nothing that a selector or
    an attribute test could count. *)
Lemma weight_desc_button_updates (w : props → nat) (t : jsstring) (d : bool)
    (b : path) (f : node) :
  b ≠ [] → (∀ pr, w (set_disabled d pr) = w pr) →
  weight_desc w (update (on_props (set_disabled d)) b
                   (update (set_textContent t) b f))
  ≤ weight_desc w f.
Proof.
  intros Hb Hw.
  etrans; [apply weight_desc_update_le; [done |] |].
  - intros m. apply weight_on_props_le. intros pr. by rewrite Hw.
  - apply weight_desc_update_le; [done |].
    intros m. apply weight_set_textContent_le.
Qed.

Lemma button_after_updates (t : jsstring) (d : bool) (b : path) (f : node)
    (pr : props) (ks : list node) :
  get f b = Some (Elem pr ks) →
  let f' := update (on_props (set_disabled d)) b
              (update (set_textContent t) b f) in
  textAt f' b = Some t ∧ disabledAt f' b = Some d
  ∧ ∃ ks', get f' b = Some (Elem (set_disabled d pr) ks').
Proof.
  intros Hb f'. subst f'. unfold textAt, disabledAt, props_at.
  rewrite !get_update, Hb. cbn [fmap option_fmap option_map mbind option_bind].
  rewrite textContent_on_props, textContent_set_textContent.
  split_and!; [done | done |]. simpl. eauto.
Qed.

Lemma handleSubmit_success (pg : page) (f1 : node) (b : path) :
  validateForm (form pg) = (true, f1) →
  querySelector sel_submit f1 = Some b →
  handleSubmit pg
  = Page (update (on_props (set_disabled true)) b
            (update (set_textContent msg_sent) b f1))
         (clock pg)
         (timers pg
          ++ [Timer (clock pg + 2000)
                    (ResetForm b (from_option textContent [] (get f1 b)))]).
Proof.
  intros Hv Hb. unfold handleSubmit. rewrite Hv. cbn [negb]. by rewrite Hb.
Qed.

Lemma handleSubmit_no_button (pg : page) (f1 : node) :
  validateForm (form pg) = (true, f1) →
  querySelector sel_submit f1 = None →
  handleSubmit pg = Page f1 (clock pg) (timers pg).
Proof.
  intros Hv Hb. unfold handleSubmit. rewrite Hv. cbn [negb]. by rewrite Hb.
Qed.

Lemma modifiedControls_reset (f : node) : modifiedControls (reset f) = 0.
Proof.
  unfold modifiedControls, reset. rewrite weight_map_incl.
  apply weight_zero. intros pr. unfold at_default.
  destruct (is_control pr) eqn:Hc.
  - assert (is_control (set_value (defaultValue pr) pr) = true) as ->
      by done.
    simpl. by rewrite bool_decide_eq_true_2.
  - by rewrite Hc.
Qed.

Lemma modifiedControls_run_task (b : path) (t : jsstring) (f : node) :
  modifiedControls (run_task (ResetForm b t) f) = 0.
Proof.
  unfold run_task.
  assert (∀ n, modifiedControls n = 0 →
               modifiedControls (update (on_props (set_disabled false)) b
                                   (update (set_textContent t) b n)) = 0)
    as Hupd.
  { intros n Hn. unfold modifiedControls in *.
    pose proof (weight_update_le (λ pr, if at_default pr then 0 else 1)
                  (on_props (set_disabled false)) b
                  (update (set_textContent t) b n)) as H1.
    pose proof (weight_update_le (λ pr, if at_default pr then 0 else 1)
                  (set_textContent t) b n) as H2.
    assert (∀ m, weight (λ pr, if at_default pr then 0 else 1)
                   (on_props (set_disabled false) m)
                 ≤ weight (λ pr, if at_default pr then 0 else 1) m) as Hdis.
    { intros m. by apply weight_on_props_le. }
    specialize (H1 Hdis).
    specialize (H2 (weight_set_textContent_le _ t)). lia. }
  apply Hupd, modifiedControls_reset.
Qed.

Lemma modifiedControls_zero (f : node) (p : path) (pr : props)
    (ks : list node) :
  modifiedControls f = 0 → get f p = Some (Elem pr ks) →
  is_control pr = true → value pr = defaultValue pr.
Proof.
  unfold modifiedControls. intros Hz Hp Hc.
  pose proof (weight_get (λ pr, if at_default pr then 0 else 1) f p _ Hp)
    as Hle.
  simpl in Hle. destruct (at_default pr) eqn:Hd; [| lia].
  unfold at_default in Hd. rewrite Hc in Hd. simpl in Hd.
  by apply bool_decide_eq_true in Hd.
Qed.

Lemma advance_single_timer (f : node) (now dt : N) (j : task) :
  advance dt (Page f now [Timer (now + 2000) j])
  = if decide (2000 ≤ dt)%N
    then Page (run_task j f) (now + dt) []
    else Page f (now + dt) [Timer (now + 2000) j].
Proof.
  unfold advance. cbn [form clock timers].
  rewrite !filter_cons, !filter_nil. cbn [due].
  destruct (decide (2000 ≤ dt)%N) as [Hle | Hlt].
  - rewrite decide_True by lia. rewrite decide_False by lia. done.
  - rewrite decide_False by lia. rewrite decide_True by lia. done.
Qed.

Lemma control_values_clearErrors (f : node) :
  control_values (clearErrors f) `sublist_of` control_values f
  ∧ (controls_outside sel_error_message f = true →
     control_values (clearErrors f) = control_values f).
Proof.
  unfold clearErrors, forEach_desc.
  set (h := λ pr, if matches_sel sel_error pr then unmark pr else pr).
  assert (∀ pr, is_control (h pr) = is_control pr ∧ value (h pr) = value pr)
    as Hh
    by (intros pr; subst h; cbv beta;
        destruct (matches_sel sel_error pr); split; reflexivity).
  assert (∀ pr, matches_sel sel_error_message (h pr)
                = matches_sel sel_error_message pr) as Hmatch
    by (intros pr; apply matches_error_message_unmark).
  split.
  - rewrite <- (control_values_map_desc h f Hh).
    apply control_values_remove_below.
  - intros Hout. rewrite <- (control_values_map_desc h f Hh).
    apply control_values_remove_below_outside.
    by rewrite controls_outside_map_desc.
Qed.

(** *** Where [aria-invalid] sits *)

Lemma props_of_showError_in (i : nat) (msg : jsstring) (n : node) :
  props_of (showError_in i msg n) = props_of n.
Proof.
  unfold showError_in.
  set (n2 := update (setAttribute "aria-invalid" "true") [i]
               (update (addClass "error") [i] n)).
  assert (props_of n2 = props_of n) as <-
    by (subst n2; by rewrite !props_of_update_below).
  destruct (querySelector sel_error_message n2) as [rel |] eqn:Hsel.
  - apply querySelector_Some in Hsel as [Hrel _].
    by apply props_of_update_below.
  - rewrite props_of_update_below by done. apply props_of_appendChild.
Qed.

(** [showError] adds no weight, for a weight that marking a field does
    not raise and that the new error-message element does not carry. *)
Lemma weight_showError_in (w : props → nat) (i : nat) (msg : jsstring)
    (n : node) :
  (∀ pr, w (set_attrs (insert "aria-invalid" "true")
              (set_classList (classList_add "error") pr)) ≤ w pr) →
  weight w errorSpan = 0 →
  weight w (showError_in i msg n) ≤ weight w n.
Proof.
  intros Hmark Hspan. unfold showError_in. rewrite update_update.
  set (n2 := update (setAttribute "aria-invalid" "true"
                     ∘ addClass "error") [i] n).
  assert (weight w n2 ≤ weight w n) as Hn2.
  { subst n2. apply weight_update_le. intros m.
    destruct m as [s | pr ks]; simpl; [done |]. specialize (Hmark pr). lia. }
  destruct (querySelector sel_error_message n2) as [rel |].
  - etrans; [| exact Hn2]. apply weight_update_le.
    intros m. apply weight_set_textContent_le.
  - etrans; [apply weight_update_le; intros m;
             apply weight_set_textContent_le |].
    pose proof (weight_appendChild w errorSpan n2). lia.
Qed.

Lemma stray_mark (pr : props) :
  (if has_aria_invalid
        (set_attrs (insert "aria-invalid" "true")
           (set_classList (classList_add "error") pr))
      && negb (classList_contains "error"
                 (classList (set_attrs (insert "aria-invalid" "true")
                               (set_classList (classList_add "error") pr))))
   then 1 else 0)
  ≤ (if has_aria_invalid pr
        && negb (classList_contains "error" (classList pr))
     then 1 else 0).
Proof.
  simpl. rewrite classList_contains_add. simpl.
  rewrite andb_false_r. lia.
Qed.

Lemma strayAriaInvalid_showError (form : node) (e : path) (msg : jsstring) :
  is_descendant form e →
  strayAriaInvalid (showError (Some e) msg form) ≤ strayAriaInvalid form.
Proof.
  intros (q & i & pr & ks & pe & kse & -> & Hq & Hi)%is_descendant_child.
  rewrite (showError_local _ _ _ _ _ Hq). unfold strayAriaInvalid.
  apply weight_desc_update_keep_le.
  - intros m. apply weight_showError_in; [apply stray_mark | done].
  - intros m. apply props_of_showError_in.
Qed.

Lemma strayAriaInvalid_clearErrors (form : node) :
  strayAriaInvalid (clearErrors form) ≤ strayAriaInvalid form.
Proof.
  unfold strayAriaInvalid, clearErrors, forEach_desc.
  etrans; [apply weight_desc_remove_below |].
  rewrite weight_desc_map_desc. apply weight_desc_le. intros pr.
  rewrite matches_error.
  destruct (classList_contains "error" (classList pr)) eqn:Herr;
    [| by rewrite Herr].
  unfold has_aria_invalid. simpl. rewrite lookup_delete_eq.
  rewrite bool_decide_eq_false_2; [simpl; lia |]. by intros [? ?].
Qed.

Lemma strayAriaInvalid_validateForm (form : node) :
  strayAriaInvalid (validateForm form).2 ≤ strayAriaInvalid form.
Proof.
  unfold validateForm.
  destruct (querySelector sel_email form) as [e |] eqn:He; [| done].
  apply querySelector_is_descendant in He.
  destruct (blank (valueOf form e)); [by apply strayAriaInvalid_showError |].
  destruct (isValidEmail (valueOf form e));
    [| by apply strayAriaInvalid_showError].
  cbn [negb].
  destruct (querySelector sel_textarea form) as [t |] eqn:Ht; [| done].
  apply querySelector_is_descendant in Ht.
  destruct (blank (valueOf form t)); [by apply strayAriaInvalid_showError |].
  apply strayAriaInvalid_clearErrors.
Qed.

Lemma strayAriaInvalid_button (t : jsstring) (d : bool) (b : path) (f : node) :
  strayAriaInvalid (update (on_props (set_disabled d)) b
                      (update (set_textContent t) b f))
  ≤ strayAriaInvalid f.
Proof.
  unfold strayAriaInvalid.
  etrans; [by apply weight_desc_update_on_props_le |].
  apply weight_desc_update_keep_le.
  - intros m. apply weight_set_textContent_le.
  - intros m. apply props_of_set_textContent.
Qed.

Lemma strayAriaInvalid_handleSubmit (pg : page) :
  strayAriaInvalid (form (handleSubmit pg)) ≤ strayAriaInvalid (form pg).
Proof.
  unfold handleSubmit.
  pose proof (strayAriaInvalid_validateForm (form pg)) as Hv.
  destruct (validateForm (form pg)) as [ok f]. simpl in Hv.
  destruct ok; [| done]. cbn [negb].
  destruct (querySelector sel_submit f) as [b |]; [| done].
  simpl. pose proof (strayAriaInvalid_button msg_sent true b f). lia.
Qed.

Lemma strayAriaInvalid_run_task (j : task) (f : node) :
  strayAriaInvalid (run_task j f) ≤ strayAriaInvalid f.
Proof.
  destruct j as [b orig]. unfold run_task.
  etrans; [apply strayAriaInvalid_button |].
  unfold strayAriaInvalid, reset. rewrite weight_desc_map_incl.
  apply weight_desc_le. intros pr. by destruct (is_control pr).
Qed.

Lemma strayAriaInvalid_step (e : event) (pg : page) :
  strayAriaInvalid (form (step e pg)) ≤ strayAriaInvalid (form pg).
Proof.
  destruct e as [| el v | dt]; simpl.
  - apply strayAriaInvalid_handleSubmit.
  - by apply weight_desc_update_on_props_le.
  - generalize (filter (λ t, (due t ≤ clock pg + dt)%N) (timers pg)).
    intros ts. generalize (form pg).
    induction ts as [|t ts IH]; intros f; [done |].
    simpl. etrans; [apply IH |]. apply strayAriaInvalid_run_task.
Qed.

(** Where the markup puts no [aria-invalid] on an element without the
    error class, no run of the page ever does. *)
Lemma strayAriaInvalid_run (es : list event) (pg : page) :
  strayAriaInvalid (form pg) = 0 → strayAriaInvalid (form (run es pg)) = 0.
Proof.
  revert pg. induction es as [|e es IH]; intros pg Hz; [done |].
  simpl. apply IH. pose proof (strayAriaInvalid_step e pg). lia.
Qed.

End SubmissionFacts.

Section SubmissionClaims.
Import JsString Dom FormManager.




(** C10. When validation passes and the form, once its errors are
    cleared, holds no button of submit type: the handler leaves the
    form with its errors cleared and does nothing else.  No timer is
    created and the clock is not touched; no element keeps the error
    class, no error-message element is left, and no [aria-invalid]
    attribute where these sat on elements with the error class; no
    value is written, the
    values of the controls being those of before, less those of
    controls that sat inside a removed error-message element, and
    exactly those of before when no control sat inside one. *)
Theorem submission_without_submit_button (pg : page) (f1 : node) :
  validateForm (form pg) = (true, f1) →
  querySelector sel_submit f1 = None →
  let pg' := handleSubmit pg in
  pg' = Page (clearErrors (form pg)) (clock pg) (timers pg)
  ∧ timers pg' = timers pg
  ∧ count_desc sel_error (form pg') = 0
  ∧ count_desc sel_error_message (form pg') = 0
  ∧ (strayAriaInvalid (form pg) = 0 → ariaInvalidCount (form pg') = 0)
  ∧ (∀ pg0 es, pg = run es pg0 → strayAriaInvalid (form pg0) = 0 →
               ariaInvalidCount (form pg') = 0)
  ∧ control_values (form pg') `sublist_of` control_values (form pg)
  ∧ (controls_outside sel_error_message (form pg) = true →
     control_values (form pg') = control_values (form pg)).
Proof.
  intros Hv Hb pg'.
  pose proof (handleSubmit_no_button pg f1 Hv Hb) as Hpg'. fold pg' in Hpg'.
  pose proof (validateForm_true _ _ Hv) as ->.
  rewrite Hpg'. cbn [form timers]. split_and!.
  - done.
  - done.
  - apply count_desc_error_clearErrors.
  - apply count_desc_error_message_clearErrors.
  - intros Hstray. pose proof (ariaInvalidCount_clearErrors (form pg)). lia.
  - intros pg0 es Heq Hz.
    pose proof (ariaInvalidCount_clearErrors (form pg)) as Hle.
    rewrite Heq in Hle at 2. rewrite (strayAriaInvalid_run es pg0 Hz) in Hle.
    lia.
  - apply control_values_clearErrors.
  - apply control_values_clearErrors.
Qed.

Lemma submission_without_submit_button_witness :
  let pg := Page (Samples.formWithPlainButton "a@b.co" "hello") 0 [] in
  handleSubmit pg
  = Page (clearErrors (Samples.formWithPlainButton "a@b.co" "hello")) 0 []
  ∧ control_values (form (handleSubmit pg)) = [lit "a@b.co"; lit "hello"].
Proof.
  intros pg.
  destruct (submission_without_submit_button pg
              (clearErrors (Samples.formWithPlainButton "a@b.co" "hello")))
    as (Hpg' & _ & _ & _ & _ & _ & _ & Hvalues).
  - vm_compute. reflexivity.
  - vm_compute. reflexivity.
  - split; [exact Hpg' |]. rewrite Hvalues; vm_compute; reflexivity.
Defined.

End SubmissionClaims.

Section StaleErrorFacts.
Import JsString Dom FormManager.

Lemma hasClass_props_at (c : string) (f : node) (x : path) :
  hasClass c f x
  = from_option (λ pr, classList_contains c (classList pr)) false
                (props_at f x).
Proof.
  unfold hasClass, props_at. by destruct (get f x) as [[s | pr ks] |].
Qed.

Lemma getAttribute_props_at (a : string) (f : node) (x : path) :
  getAttribute a f x = props_at f x ≫= λ pr, attrs pr !! a.
Proof.
  unfold getAttribute, props_at. by destruct (get f x) as [[s | pr ks] |].
Qed.

Lemma props_at_update_on_props_eq (h : props → props) (t : path) (f : node) :
  props_at (update (on_props h) t f) t = h <$> props_at f t.
Proof.
  unfold props_at. rewrite get_update.
  by destruct (get f t) as [[s | pr ks] |].
Qed.

(** Marking a field invalid changes the error-message class of no
    element. *)
Lemma hasClass_error_message_mark (t x : path) (f : node) :
  hasClass "error-message"
    (update (setAttribute "aria-invalid" "true") t
       (update (addClass "error") t f)) x
  = hasClass "error-message" f x.
Proof.
  rewrite !hasClass_props_at. unfold setAttribute, addClass.
  destruct (decide (x = t)) as [-> | Hne].
  - rewrite !props_at_update_on_props_eq.
    destruct (props_at f t) as [pr |]; simpl; [| done].
    by apply classList_contains_add_ne.
  - by rewrite !props_at_update_on_props.
Qed.

(** [showError] on one field, seen from another element that does not
    lie inside an error-message element: the properties of that element
    are as before, and if its parent held an error-message element it
    still holds one. *)
Lemma showError_elsewhere (form : node) (t e : path) (msg : jsstring) :
  is_descendant form t → is_descendant form e → e ≠ t →
  outside_error_message form e →
  let f' := showError (Some t) msg form in
  props_at f' e = props_at form e
  ∧ (1 ≤ errorMessagesIn form e → 1 ≤ errorMessagesIn f' e).
Proof.
  intros Ht He Hne Hout f'. subst f'.
  destruct (is_descendant_child _ _ Ht)
    as (qt & j & pr & ks & pt & kst & -> & Hqt & Hj).
  destruct (is_descendant_child _ _ He)
    as (qe & i & pr' & ks' & pe & kse & -> & Hqe & Hi).
  unfold showError, errorMessagesIn. rewrite !parentElement_snoc.
  set (form2 := update (setAttribute "aria-invalid" "true") (qt ++ [j])
                  (update (addClass "error") (qt ++ [j]) form)).
  assert (props_at form2 (qe ++ [i]) = props_at form (qe ++ [i])) as Hprops2
    by (subst form2; unfold setAttribute, addClass;
        by rewrite !props_at_update_on_props).
  assert (∀ x, count_desc sel_error_message <$> get form2 x
               = count_desc sel_error_message <$> get form x) as Hcount2.
  { intros x. subst form2. unfold setAttribute, addClass.
    rewrite !count_at_update_on_props; [done | |].
    - apply matches_error_message_add_error.
    - intros pr0. by apply matches_error_message_classList. }
  assert (1 ≤ from_option (count_desc sel_error_message) 0 (get form qe) →
          1 ≤ from_option (count_desc sel_error_message) 0 (get form2 qe))
    as Hone2.
  { specialize (Hcount2 qe).
    destruct (get form2 qe), (get form qe); simpl in *; congruence. }
  assert (is_Some (get form2 (qe ++ [i]))) as Hvalid.
  { assert (is_Some (props_at form2 (qe ++ [i]))) as [pe' Hpe'].
    { rewrite Hprops2. unfold props_at. rewrite get_app, Hqe. simpl.
      rewrite Hi. by eexists. }
    unfold props_at in Hpe'. destruct (get form2 (qe ++ [i])); [by eexists |].
    done. }
  assert (∃ ks2, get form2 qt = Some (Elem pr ks2)) as [ks2 Hqt2].
  { subst form2. rewrite !get_update_above, Hqt. simpl. eauto. }
  rewrite Hqt2. cbn [mbind option_bind from_option childCount].
  destruct (querySelector sel_error_message (Elem pr ks2)) as [rel |] eqn:Hsel.
  - apply querySelector_Some in Hsel as (Hrel & prE & ksE & HgetE & HmatchE).
    assert (get form2 (qt ++ rel) = Some (Elem prE ksE)) as HE
      by by rewrite get_app, Hqt2.
    assert (hasClass "error-message" form (qt ++ rel) = true) as Hclass.
    { rewrite <- (hasClass_error_message_mark (qt ++ [j])). fold form2.
      unfold hasClass. rewrite HE. by rewrite <- matches_error_message. }
    assert (∀ r, r ≠ [] → qe ++ [i] ≠ (qt ++ rel) ++ r) as Hnot.
    { intros r Hr Heq. specialize (Hout (qt ++ rel) r Heq).
      rewrite Hclass in Hout. destruct qt, rel; try done;
        by discriminate Hout. }
    split.
    + rewrite props_at_update_keep; [done | | done].
      apply props_of_set_textContent.
    + intros Hone. apply (count_at_set_textContent _ _ _ _ _ prE ksE);
        [done | done | | by apply Hone2].
      intros r Heq. apply (Hnot (r ++ [i])); [by destruct r |].
      by rewrite Heq, !app_assoc.
  - set (k := length ks2).
    assert (∀ r, get form2 ((qt ++ [k]) ++ r) = None) as Hfresh.
    { intros r. rewrite <- app_assoc, get_app, Hqt2. simpl.
      by rewrite lookup_ge_None_2. }
    set (F := update (appendChild errorSpan) qt form2).
    assert (get F (qt ++ [k]) = Some errorSpan) as Hspan.
    { subst F. rewrite get_app, get_update, Hqt2. simpl.
      by rewrite lookup_app_r, Nat.sub_diag. }
    split.
    + rewrite props_at_update_keep.
      * subst F. by rewrite props_at_update_appendChild.
      * apply props_of_set_textContent.
      * intros r _ Heq. rewrite Heq, Hfresh in Hvalid. by destruct Hvalid.
    + intros Hone. apply Hone2 in Hone.
      apply (count_at_set_textContent _ _ _ _ _ _ [] Hspan); [done | |].
      * intros r Heq. rewrite Heq, Hfresh in Hone. simpl in Hone. lia.
      * subst F. by apply count_at_update_appendChild.
Qed.

Lemma count_desc_matching_at (sel : selector) (f : node) (x : path)
    (pr : props) (ks : list node) :
  x ≠ [] → get f x = Some (Elem pr ks) → matches_sel sel pr = true →
  1 ≤ count_desc sel f.
Proof.
  intros Hx Hget Hpr.
  pose proof (count_incl_le_desc sel f x _ Hx Hget).
  pose proof (count_incl_matching sel pr ks Hpr). lia.
Qed.

Lemma email_is_not_textarea (form : node) (e t : path) :
  querySelector sel_email form = Some e →
  querySelector sel_textarea form = Some t → e ≠ t.
Proof.
  intros (_ & pe & kse & Hge & Hme)%querySelector_Some
         (_ & pt & kst & Hgt & Hmt)%querySelector_Some ->.
  assert (pe = pt) as -> by congruence.
  unfold matches_sel in Hme, Hmt. simpl in Hme, Hmt.
  apply andb_true_iff in Hme as [Hme _]. apply andb_true_iff in Hmt as [Hmt _].
  apply bool_decide_eq_true in Hme, Hmt. congruence.
Qed.

End StaleErrorFacts.

Section StaleErrorClaims.
Import JsString Dom FormManager.

(** C9. When the email passes and the textarea is missing or blank,
    validation fails and does nothing but [showError] for the textarea:
    it returns before the clearing step, which runs only when validation
    succeeds.  The markings an earlier submission left on the email
    field are not removed: an email input that does not lie inside an
    error-message element keeps its classes and attributes, the error
    class and [aria-invalid] among them, and if its parent held an
    error-message element it still holds one; the form then still has
    an element with the error class, which [clearErrors] would not have
    left. *)
Theorem stale_email_error_survives (form : node) (e : path) :
  querySelector sel_email form = Some e →
  blank (valueOf form e) = false →
  isValidEmail (valueOf form e) = true →
  querySelector sel_textarea form = None
  ∨ (∃ t, querySelector sel_textarea form = Some t
          ∧ blank (valueOf form t) = true) →
  let f' := (validateForm form).2 in
  (validateForm form).1 = false
  ∧ f' = showError (querySelector sel_textarea form) msg_message_required form
  ∧ (∀ g, (validateForm g).1 = true → (validateForm g).2 = clearErrors g)
  ∧ (outside_error_message form e →
     props_at f' e = props_at form e
     ∧ hasClass "error" f' e = hasClass "error" form e
     ∧ getAttribute "aria-invalid" f' e = getAttribute "aria-invalid" form e
     ∧ (1 ≤ errorMessagesIn form e → 1 ≤ errorMessagesIn f' e)
     ∧ (hasClass "error" form e = true →
        1 ≤ count_desc sel_error f' ∧ f' ≠ clearErrors form)).
Proof.
  intros He Hblank Hvalid Htextarea f'.
  assert (validateForm form
          = (false, showError (querySelector sel_textarea form)
                      msg_message_required form)) as Hv.
  { unfold validateForm. rewrite He, Hblank, Hvalid. cbn [negb].
    destruct Htextarea as [-> | (t & -> & ->)]; done. }
  subst f'. rewrite Hv. cbn [fst snd]. split_and!; [done | done | |].
  { intros g Hg. destruct (validateForm g) as [ok g'] eqn:Hvg.
    simpl in *. subst ok. by apply validateForm_true. }
  intros Hout.
  assert (props_at (showError (querySelector sel_textarea form)
                      msg_message_required form) e = props_at form e
          ∧ (1 ≤ errorMessagesIn form e →
             1 ≤ errorMessagesIn (showError (querySelector sel_textarea form)
                                    msg_message_required form) e))
    as [Hprops Hcount].
  { destruct Htextarea as [-> | (t & Ht & _)]; [done |]. rewrite Ht.
    apply showError_elsewhere; [| | | done].
    - by apply (querySelector_is_descendant sel_textarea).
    - by apply (querySelector_is_descendant sel_email).
    - by apply (email_is_not_textarea form). }
  split_and!; try done.
  - by rewrite !hasClass_props_at, Hprops.
  - by rewrite !getAttribute_props_at, Hprops.
  - intros Herr.
    assert (1 ≤ count_desc sel_error
                  (showError (querySelector sel_textarea form)
                     msg_message_required form)) as Hone.
    { rewrite hasClass_props_at, <- Hprops in Herr. unfold props_at in Herr.
      destruct (get _ e) as [[s | pr ks] |] eqn:Hget; try done.
      apply (count_desc_matching_at _ _ e pr ks); [| done |].
      - by apply querySelector_Some in He as [? _].
      - by rewrite matches_error. }
    split; [done |]. intros Heq. rewrite Heq in Hone.
    rewrite count_desc_error_clearErrors in Hone. lia.
Qed.

Lemma stale_email_error_survives_witness :
  let form := Samples.formWithStaleError in
  hasClass "error" (validateForm form).2 Samples.emailField = true
  ∧ getAttribute "aria-invalid" (validateForm form).2 Samples.emailField
    = Some "true"
  ∧ 1 ≤ errorMessagesIn (validateForm form).2 Samples.emailField.
Proof.
  intros form.
  destruct (stale_email_error_survives form Samples.emailField)
    as (_ & _ & _ & Hkept).
  - vm_compute. reflexivity.
  - vm_compute. reflexivity.
  - vm_compute. reflexivity.
  - right. exists Samples.messageField. split; vm_compute; reflexivity.
  - destruct Hkept as (_ & Hclass & Haria & Hmessage & _).
    + intros q r Heq Hq Hr. change ([0; 1] = q ++ r) in Heq.
      destruct q as [|a q]; [done |]. simpl in Heq. injection Heq as <- Heq.
      destruct q as [|b q]; simpl in Heq.
      * vm_compute. reflexivity.
      * injection Heq as <- Heq. destruct q; simpl in Heq; [| discriminate].
        by subst r.
    + split_and!.
      * rewrite Hclass. vm_compute. reflexivity.
      * rewrite Haria. vm_compute. reflexivity.
      * apply Hmessage. vm_compute. lia.
Defined.

End StaleErrorClaims.

(** ** The utility functions [throttle] and [debounce] *)

Section UtilitiesFacts.
Import Utilities.






Lemma d_inv_init {A : Type} (delay t0 : N) : d_inv (A:=A) delay (debounce t0).
Proof. by left. Qed.

Lemma d_call_timers {A : Type} (delay : N) (a : A) (s : debounced) :
  d_inv delay s →
  d_timers (d_call delay a s)
  = [DTimer (nextId s) (d_clock s + delay)%N a].
Proof.
  intros [Hnil|(i & d & a' & Hts & Hid & _)]; unfold d_call;
    cbn [d_timers].
  - rewrite Hnil. by destruct (timeoutId s).
  - rewrite Hts, Hid. cbn [clearTimeout]. rewrite filter_cons, filter_nil.
    by rewrite decide_False; [|intros []].
Qed.

Lemma d_inv_call {A : Type} (delay : N) (a : A) (s : debounced) :
  d_inv delay s → d_inv delay (d_call delay a s).
Proof.
  intros Hs. right. eexists _, _, _. rewrite d_call_timers; [|done].
  split_and!; [done..|]. cbn. lia.
Qed.

Lemma d_inv_advance {A : Type} (delay dt : N) (s : debounced (A:=A)) :
  d_inv delay s → d_inv delay (d_advance dt s).
Proof.
  intros [Hnil|(i & d & a & Hts & Hid & Hd)]; unfold d_advance, d_inv;
    cbn [d_timers timeoutId d_clock].
  - left. by rewrite Hnil.
  - rewrite Hts, filter_cons, filter_nil. cbn [d_due].
    destruct (decide (d ≤ d_clock s + dt)%N).
    + left. by rewrite decide_False; [|intros []].
    + right. rewrite decide_True; [|done]. exists i, d, a.
      split_and!; [done..|]. lia.
Qed.

Lemma d_inv_run {A : Type} (delay : N) (es : list d_event)
      (s : debounced (A:=A)) :
  d_inv delay s → d_inv delay (d_run delay es s).
Proof.
  revert s. induction es as [|e es IH]; intros s Hs; [done|].
  apply IH. destruct e; [by apply d_inv_call|by apply d_inv_advance].
Qed.






(** X3 ([debounce], one timer).  Whatever the calls and however time
    passes between them, at most one timer of the debounced function is
    pending; it is the one [timeoutId] names, and it is due no later
    than [delay] from now. *)
Theorem debounce_single_pending {A : Type} (delay t0 : N)
        (es : list (d_event (A:=A))) :
  let s := d_run delay es (debounce t0) in
  length (d_timers s) ≤ 1
  ∧ ∀ t, t ∈ d_timers s →
         timeoutId s = Some (d_id t) ∧ (d_due t ≤ d_clock s + delay)%N.
Proof.
  intros s.
  destruct (d_inv_run delay es _ (d_inv_init delay t0))
    as [Hnil|(i & d & a & Hts & Hid & Hd)]; fold s in Hnil || fold s in Hts.
  - rewrite Hnil. split; [cbn; lia|]. by intros t Ht%elem_of_nil.
  - fold s in Hid, Hd. rewrite Hts. split; [done|].
    by intros t ->%list_elem_of_singleton.
Qed.



End UtilitiesFacts.

(** ** The scroll-to-top button before the first scroll event *)

Section ScrollManagerIdle.
Import Dom ScrollManager.

Lemma idle_step (e : event) (s : state) :
  not_scroll e = true → ticking s = false → frameQueue s = [] →
  visible (step e s) = visible s
  ∧ ticking (step e s) = false
  ∧ frameQueue (step e s) = []
  ∧ scrollToTopBtn (step e s) = scrollToTopBtn s.
Proof.
  intros He Ht Hq. destruct e as [y| |t]; [done|..]; cbn [step].
  - rewrite Hq. cbn [foldl]. unfold visible. cbn [scrollToTopBtn]. done.
  - unfold visible. cbn [scrollToTopBtn]. done.
Qed.

Lemma idle_run (es : list event) (s : state) :
  Forall (λ e, not_scroll e = true) es →
  ticking s = false → frameQueue s = [] →
  visible (run es s) = visible s
  ∧ ticking (run es s) = false
  ∧ frameQueue (run es s) = []
  ∧ scrollToTopBtn (run es s) = scrollToTopBtn s.
Proof.
  revert s. induction es as [|e es IH]; intros s Hes Ht Hq; [done|].
  apply Forall_cons in Hes as [He Hes].
  destruct (idle_step e s He Ht Hq) as (Hv & Ht' & Hq' & Hb).
  destruct (IH (step e s) Hes Ht' Hq') as (Hv2 & Ht2 & Hq2 & Hb2).
  cbn [run foldl]. fold (run es (step e s)).
  rewrite Hv2, Hv, Hb2, Hb. done.
Qed.

(** X5 ([ScrollManager.init], [updateScrollButton]).  [init] creates
    the button without the visible class and computes nothing, so a page
    that is opened already scrolled past the threshold does not show the
    button: as long as no scroll event arrives, frames and changes of
    the threshold leave it hidden and schedule nothing.  A scroll event
    alone does not show it either; the frame after it does, when the
    offset exceeds the threshold. *)
Theorem button_hidden_until_scroll (y0 : Q) (es : list event) :
  Forall (λ e, not_scroll e = true) es →
  let s := run es (started y0) in
  visible s = false
  ∧ ticking s = false
  ∧ frameQueue s = []
  ∧ (∀ y, visible (step (Scroll y) s) = false)
  ∧ (∀ y, visible (step Frame (step (Scroll y) s))
          = gt y (scrollThreshold s)).
Proof.
  intros Hes s.
  destruct (idle_run es (started y0) Hes eq_refl eq_refl)
    as (Hv & Ht & Hq & Hb).
  fold s in Hv, Ht, Hq, Hb. change (visible (started y0)) with false in Hv.
  split_and!; [done..| |].
  - intros y. cbn [step]. unfold on_scroll. cbn [ticking].
    rewrite Ht. cbn [negb]. unfold visible in *. cbn [scrollToTopBtn]. done.
  - intros y. cbn [step]. unfold on_scroll. cbn [ticking].
    rewrite Ht, Hq. cbn [negb frameQueue app scrollToTopBtn ticking
                           scrollY scrollThreshold foldl call].
    rewrite updateScrollButton_visible; [done|].
    cbn [scrollToTopBtn]. by rewrite Hb.
Qed.

Lemma button_hidden_until_scroll_witness :
  let s := run [Frame; Configure 10; Frame] (started 1000) in
  visible s = false
  ∧ ticking s = false
  ∧ frameQueue s = []
  ∧ (∀ y, visible (step (Scroll y) s) = false)
  ∧ (∀ y, visible (step Frame (step (Scroll y) s))
          = gt y (scrollThreshold s)).
Proof.
  apply (button_hidden_until_scroll 1000 [Frame; Configure 10; Frame]).
  repeat constructor.
Defined.

End ScrollManagerIdle.

(** ** The mobile menu while it is closed *)

Section MobileMenuClosed.
Import Dom MobileMenu.

Lemma close_nav_active (s : state) : nav_active (close s) = false.
Proof. apply classList_contains_remove. Qed.

Lemma link_listeners_closed (ls : list path) (target : path) (s : state) :
  checked s = false → nav_active s = false →
  let s' := foldr (λ link s, if contains link target then on_link_click s
                             else s) s ls in
  checked s' = false ∧ nav_active s' = false.
Proof.
  intros Hc Hn. induction ls as [|l ls IH]; [done|]. cbn [foldr].
  destruct (contains l target); [|done].
  split; [done|apply close_nav_active].
Qed.

Lemma step_closed (L : layout) (e : event) (s : state) :
  e ≠ Change true → checked s = false → nav_active s = false →
  checked (step L e s) = false ∧ nav_active (step L e s) = false.
Proof.
  intros He Hc Hn. destruct e as [[]|target|key]; [done|..]; cbn [step].
  - split; [done|]. unfold on_change, nav_active. cbn [checked navClasses].
    apply classList_contains_remove.
  - unfold dispatch_click.
    destruct (link_listeners_closed (links L) target s Hc Hn) as [Hc' Hn'].
    unfold on_document_click. rewrite Hc'.
    by rewrite andb_false_r.
  - unfold on_keydown. rewrite Hc. by rewrite andb_false_r.
Qed.

(** X6 ([MobileMenu.init], the four listeners).  Only the toggle opens
    the menu: while the user does not check the toggle, no click,
    wherever it lands, and no key changes a closed menu into an open
    one; the flag stays down and the navigation container stays without
    the active class. *)
Theorem menu_opens_only_by_toggle (L : layout) (es : list event)
        (s : state) :
  checked s = false → nav_active s = false →
  Forall (λ e, e ≠ Change true) es →
  checked (run L es s) = false ∧ nav_active (run L es s) = false.
Proof.
  revert s. induction es as [|e es IH]; intros s Hc Hn Hes; [done|].
  apply Forall_cons in Hes as [He Hes].
  destruct (step_closed L e s He Hc Hn) as [Hc' Hn'].
  exact (IH (step L e s) Hc' Hn' Hes).
Qed.

Lemma menu_opens_only_by_toggle_witness :
  let L := Layout [0] [1] [[0; 0]; [0; 1]] in
  let s := run L [Click [1]; KeyDown "Enter"; Change false; Click [0; 1];
                  Click [2]; KeyDown "Escape"] (State false ["nav"]) in
  checked s = false ∧ nav_active s = false.
Proof.
  apply (menu_opens_only_by_toggle (Layout [0] [1] [[0; 0]; [0; 1]])
           [Click [1]; KeyDown "Enter"; Change false; Click [0; 1];
            Click [2]; KeyDown "Escape"] (State false ["nav"])).
  - reflexivity.
  - vm_compute. reflexivity.
  - repeat constructor; discriminate.
Defined.

End MobileMenuClosed.

(** ** Highlighting the link of the current page *)

Section NavigationFacts.
Import JsString Dom NavigationManager.

Lemma split_spec (sep : N) (s : jsstring) :
  ∃ pieces seg dir,
    split sep s = pieces ++ [seg]
    ∧ s = dir ++ seg
    ∧ (sep ∉ seg)
    ∧ ((pieces = [] ∧ dir = []) ∨ (pieces ≠ [] ∧ last dir = Some sep)).
Proof.
  induction s as [|c s IH].
  - exists [], [], []. split_and!; [done..| |by left].
    by intros ?%elem_of_nil.
  - destruct IH as (pieces & seg & dir & Hsplit & -> & Hseg & Hdir).
    cbn [split]. destruct (N.eqb_spec c sep) as [->|Hc].
    + exists ([] :: pieces), seg, (sep :: dir). rewrite Hsplit.
      split_and!; [done..|]. right. split; [done|].
      destruct Hdir as [[_ ->]|[_ Hl]]; [done|].
      destruct dir; [done|]. done.
    + rewrite Hsplit. destruct Hdir as [[-> ->]|[Hp Hl]].
      * exists [], (c :: seg), []. split_and!; [done..| |by left].
        intros [?|?]%elem_of_cons; [congruence|done].
      * destruct pieces as [|p ps]; [done|]. cbn [app].
        exists ((c :: p) :: ps), seg, (c :: dir).
        split_and!; [done..|]. right. split; [done|].
        destruct dir; [done|]. done.
Qed.

Lemma classList_toggle_idemp (c : string) (b : bool) (l : list string) :
  classList_toggle c b (classList_toggle c b l) = classList_toggle c b l.
Proof.
  destruct b; cbn [classList_toggle].
  - unfold classList_add at 1. by rewrite classList_contains_add.
  - unfold classList_remove. induction l as [|x l IH]; [done|].
    rewrite filter_cons. destruct (decide (x ≠ c)); [|done].
    rewrite filter_cons, decide_True by done. by rewrite IH.
Qed.

Lemma highlight_href (page : jsstring) (link : props) :
  attrs (highlight page link) !! "href" = attrs link !! "href".
Proof. unfold highlight. cbn [attrs set_attrs]. by rewrite lookup_insert_ne. Qed.

Lemma currentPage_split (pathname : jsstring) :
  ∃ dir seg,
    pathname = dir ++ seg
    ∧ (dir = [] ∨ last dir = Some slash)
    ∧ (slash ∉ seg)
    ∧ currentPage pathname = if truthy seg then seg else lit "index.html".
Proof.
  destruct (split_spec slash pathname)
    as (pieces & seg & dir & Hsplit & Hpath & Hseg & Hdir).
  exists dir, seg. split_and!; [done| |done|].
  - destruct Hdir as [[_ ->]|[_ Hl]]; [by left|by right].
  - unfold currentPage. by rewrite Hsplit, last_snoc.
Qed.

Lemma currentPage_nonempty (pathname : jsstring) : currentPage pathname ≠ [].
Proof.
  destruct (currentPage_split pathname) as (dir & seg & _ & _ & _ & ->).
  by destruct seg.
Qed.

Lemma highlight_currentPage (pathname : jsstring) (link : props) :
  highlight (currentPage pathname) link
  = set_attrs (insert "aria-current"
                 (if bool_decide (is_page (currentPage pathname) link)
                  then "page" else "false"))
      (set_classList
         (classList_toggle "active"
            (bool_decide (is_page (currentPage pathname) link))) link).
Proof.
  unfold highlight, is_page.
  rewrite (bool_decide_eq_false_2 (currentPage pathname = []))
    by apply currentPage_nonempty.
  cbn [andb]. by rewrite orb_false_r.
Qed.

(** X7 ([highlightActivePage], the page name).  The page name the
    links are compared with is the part of the path after its last
    slash, and [index.html] when that part is empty: it is never empty
    and holds no slash.  Hence the second alternative of the test, for
    an empty page name, never decides anything: a link is active
    exactly when its [href] is the page name. *)
Theorem currentPage_spec (pathname : jsstring) :
  currentPage pathname ≠ []
  ∧ (slash ∉ currentPage pathname)
  ∧ (∃ dir seg,
       pathname = dir ++ seg
       ∧ (dir = [] ∨ last dir = Some slash)
       ∧ (slash ∉ seg)
       ∧ currentPage pathname
         = if truthy seg then seg else lit "index.html")
  ∧ (∀ link,
       classList_contains "active"
         (classList (highlight (currentPage pathname) link)) = true
       ↔ is_page (currentPage pathname) link).
Proof.
  split_and!.
  - apply currentPage_nonempty.
  - destruct (currentPage_split pathname) as (dir & seg & _ & _ & Hseg & ->).
    destruct seg; [|done]. cbn [truthy]. vm_compute. intros H.
    repeat (apply elem_of_cons in H as [H|H]; [discriminate H|]).
    by apply elem_of_nil in H.
  - apply currentPage_split.
  - intros link. rewrite highlight_currentPage.
    cbn [classList set_attrs set_classList].
    rewrite classList_contains_toggle. apply bool_decide_eq_true.
Qed.

(** X8 ([highlightActivePage], the links).  After the call a link
    carries the active class exactly when its [href] is the page name,
    and then its [aria-current] is [page]; every other link, one without
    [href] included, has [aria-current] set to [false].  Nothing else
    of a link changes, and calling the function again for the same path
    (as the [hashchange] listener does) changes nothing at all. *)
Theorem highlightActivePage_links (pathname : jsstring)
        (links : list props) :
  length (highlightActivePage pathname links) = length links
  ∧ (∀ i link, links !! i = Some link →
       ∃ link',
         highlightActivePage pathname links !! i = Some link'
         ∧ (classList_contains "active" (classList link') = true
            ↔ is_page (currentPage pathname) link)
         ∧ (attrs link' !! "aria-current" = Some "page"
            ↔ is_page (currentPage pathname) link)
         ∧ (attrs link' !! "aria-current" = Some "false"
            ↔ ¬ is_page (currentPage pathname) link)
         ∧ (∀ a, a ≠ "aria-current" → attrs link' !! a = attrs link !! a)
         ∧ (∀ c, c ≠ "active" →
                 classList_contains c (classList link')
                 = classList_contains c (classList link))
         ∧ tag link' = tag link ∧ value link' = value link)
  ∧ highlightActivePage pathname (highlightActivePage pathname links)
    = highlightActivePage pathname links.
Proof.
  split_and!.
  - unfold highlightActivePage. by rewrite length_map.
  - intros i link Hi. exists (highlight (currentPage pathname) link).
    split.
    { unfold highlightActivePage. by rewrite list_lookup_fmap, Hi. }
    rewrite highlight_currentPage.
    cbn [classList attrs tag value set_attrs set_classList].
    rewrite lookup_insert_eq.
    split_and!.
    + rewrite classList_contains_toggle. apply bool_decide_eq_true.
    + case_bool_decide; split; try done; intros [=].
    + case_bool_decide; split; try done; intros [=].
    + intros a Ha. by rewrite lookup_insert_ne.
    + intros c Hc. destruct (bool_decide _); cbn [classList_toggle].
      * by apply classList_contains_add_ne.
      * by apply classList_contains_remove_ne.
    + done.
    + done.
  - unfold highlightActivePage. rewrite <- list_fmap_compose.
    apply list_fmap_ext. intros _ link _. cbn [compose].
    rewrite (highlight_currentPage pathname (highlight _ link)).
    assert (Hb : bool_decide (is_page (currentPage pathname)
                                (highlight (currentPage pathname) link))
                 = bool_decide (is_page (currentPage pathname) link)).
    { apply bool_decide_ext. unfold is_page. by rewrite highlight_href. }
    rewrite Hb, highlight_currentPage.
    unfold set_attrs, set_classList.
    cbn [classList attrs tag value defaultValue disabled].
    by rewrite classList_toggle_idemp, insert_insert_eq.
Qed.

Lemma highlightActivePage_links_witness :
  let links := [Samples.navLink "index.html" [];
                Samples.navLink "about.html" ["active"]] in
  ∃ link', highlightActivePage (lit "/portfolio/") links !! 0 = Some link'
           ∧ classList_contains "active" (classList link') = true
           ∧ attrs link' !! "aria-current" = Some "page".
Proof.
  intros links.
  destruct (highlightActivePage_links (lit "/portfolio/") links)
    as (_ & H & _).
  destruct (H 0 (Samples.navLink "index.html" []) eq_refl)
    as (link' & Hl & Ha & Hc & _).
  exists link'. split_and!; [exact Hl|apply Ha|apply Hc];
    vm_compute; reflexivity.
Defined.


End NavigationFacts.

(** ** Keyboard navigation and labels *)

Section AccessibilityFacts.
Import JsString Dom AccessibilityManager.

Lemma get_map_desc (h : props → props) (n : node) (p : path) :
  p ≠ [] → get (map_desc h n) p = map_incl h <$> get n p.
Proof.
  intros Hp. destruct p as [|i p]; [done|].
  destruct n as [s|pr ks]; [done|]. cbn [map_desc get].
  rewrite list_lookup_fmap. destruct (ks !! i) as [k|]; [|done].
  apply get_map_incl.
Qed.

Lemma props_at_map_desc (h : props → props) (n : node) (p : path) :
  p ≠ [] → props_at (map_desc h n) p = h <$> props_at n p.
Proof.
  intros Hp. unfold props_at. rewrite get_map_desc by done.
  destruct (get n p) as [[s|pr ks]|]; done.
Qed.

Lemma map_incl_ext (h h' : props → props) (n : node) :
  (∀ pr, h pr = h' pr) → map_incl h n = map_incl h' n.
Proof.
  intros Hh. induction n as [s|pr ks IH] using node_ind_kids; [done|].
  cbn [map_incl]. rewrite Hh. f_equal.
  induction IH as [|k ks Hk _ IHks]; [done|]. cbn [map]. by rewrite Hk, IHks.
Qed.

Lemma map_incl_compose (h h' : props → props) (n : node) :
  map_incl h (map_incl h' n) = map_incl (λ pr, h (h' pr)) n.
Proof.
  induction n as [s|pr ks IH] using node_ind_kids; [done|].
  cbn [map_incl]. f_equal. rewrite map_map.
  induction IH as [|k ks Hk _ IHks]; [done|]. cbn [map]. by rewrite Hk, IHks.
Qed.

Lemma map_desc_idemp (h : props → props) (n : node) :
  (∀ pr, h (h pr) = h pr) → map_desc h (map_desc h n) = map_desc h n.
Proof.
  intros Hh. destruct n as [s|pr ks]; [done|]. cbn [map_desc]. f_equal.
  rewrite map_map. apply map_ext. intros k.
  rewrite map_incl_compose. by apply map_incl_ext.
Qed.

Lemma textContent_map_incl (h : props → props) (n : node) :
  textContent (map_incl h n) = textContent n.
Proof.
  induction n as [s|pr ks IH] using node_ind_kids; [done|].
  cbn [map_incl textContent]. f_equal. rewrite map_map.
  induction IH as [|k ks Hk _ IHks]; [done|]. cbn [map]. by rewrite Hk, IHks.
Qed.

Lemma textContent_map_desc (h : props → props) (n : node) :
  textContent (map_desc h n) = textContent n.
Proof.
  destruct n as [s|pr ks]; [done|]. cbn [map_desc textContent]. f_equal.
  rewrite map_map. apply map_ext. intros k. apply textContent_map_incl.
Qed.

Lemma role_add_tabindex (pr : props) :
  matches_sel sel_role_button (add_tabindex pr)
  = matches_sel sel_role_button pr.
Proof.
  unfold add_tabindex. case_bool_decide; [done|].
  unfold matches_sel, sel_role_button. cbn [forallb simple_holds attrs set_attrs].
  by rewrite lookup_insert_ne.
Qed.

Lemma add_tabindex_idemp (pr : props) :
  add_tabindex (add_tabindex pr) = add_tabindex pr.
Proof.
  destruct (decide (is_Some (attrs pr !! "tabindex"))) as [Ht|Ht].
  - assert (Hid : add_tabindex pr = pr).
    { unfold add_tabindex. by rewrite bool_decide_eq_true_2. }
    by rewrite !Hid.
  - unfold add_tabindex at 2 3. rewrite bool_decide_eq_false_2 by done.
    unfold add_tabindex. rewrite bool_decide_eq_true_2; [done|].
    cbn [attrs set_attrs]. rewrite lookup_insert_eq. by eexists.
Qed.

(** X9 ([improveKeyboardNavigation]).  After the call every element
    below the document that has the role of a button carries a
    [tabindex]: the one it had, or ["0"] when it had none.  No other
    attribute, no class, no text and no value changes, elements with
    another role are as they were, and a second call changes nothing. *)
Theorem keyboard_navigation_tabindex (doc : node) :
  (∀ p pr, p ≠ [] → props_at doc p = Some pr →
     ∃ pr', props_at (improveKeyboardNavigation doc) p = Some pr'
            ∧ (matches_sel sel_role_button pr' = true →
               is_Some (attrs pr' !! "tabindex"))
            ∧ (is_Some (attrs pr !! "tabindex")
               ∨ matches_sel sel_role_button pr = false → pr' = pr)
            ∧ (attrs pr !! "tabindex" = None →
               matches_sel sel_role_button pr = true →
               attrs pr' !! "tabindex" = Some "0")
            ∧ (∀ a, a ≠ "tabindex" → attrs pr' !! a = attrs pr !! a)
            ∧ tag pr' = tag pr ∧ classList pr' = classList pr
            ∧ value pr' = value pr ∧ disabled pr' = disabled pr)
  ∧ (∀ p, is_Some (get (improveKeyboardNavigation doc) p)
          ↔ is_Some (get doc p))
  ∧ textContent (improveKeyboardNavigation doc) = textContent doc
  ∧ control_values (improveKeyboardNavigation doc) = control_values doc
  ∧ improveKeyboardNavigation (improveKeyboardNavigation doc)
    = improveKeyboardNavigation doc.
Proof.
  unfold improveKeyboardNavigation, forEach_desc. split_and!.
  - intros p pr Hp Hpr. rewrite props_at_map_desc, Hpr by done.
    eexists. split; [done|].
    destruct (matches_sel sel_role_button pr) eqn:Hrole.
    + unfold add_tabindex. case_bool_decide as Ht.
      * split_and!; try done. intros Hn. rewrite Hn in Ht. by destruct Ht.
      * cbn [attrs set_attrs tag classList value disabled].
        split_and!; try done.
        -- intros _. rewrite lookup_insert_eq. by eexists.
        -- intros [Hs|Hs]; [done|discriminate Hs].
        -- intros _ _. by rewrite lookup_insert_eq.
        -- intros a Ha. by rewrite lookup_insert_ne.
    + split_and!; try done. intros Hm. by rewrite Hrole in Hm.
  - intros p. destruct p as [|i p].
    + by destruct doc.
    + rewrite get_map_desc by done. by rewrite fmap_is_Some.
  - apply textContent_map_desc.
  - apply control_values_map_desc. intros pr.
    destruct (matches_sel sel_role_button pr); [|done].
    unfold add_tabindex. by case_bool_decide.
  - apply map_desc_idemp. intros pr.
    destruct (matches_sel sel_role_button pr) eqn:Hrole.
    + by rewrite role_add_tabindex, Hrole, add_tabindex_idemp.
    + by rewrite Hrole.
Qed.

Lemma textContent_label_incl (n : node) :
  textContent (label_incl n) = textContent n.
Proof.
  induction n as [s|pr ks IH] using node_ind_kids; [done|].
  cbn [label_incl textContent]. f_equal. rewrite map_map.
  induction IH as [|k ks Hk _ IHks]; [done|]. cbn [map]. by rewrite Hk, IHks.
Qed.

Lemma get_label_incl (n : node) (p : path) :
  get (label_incl n) p = label_incl <$> get n p.
Proof.
  revert n. induction p as [|i p IH]; intros n; [done|].
  destruct n as [s|pr ks]; [done|]. cbn [label_incl get].
  rewrite list_lookup_fmap. destruct (ks !! i) as [k|]; [apply IH|done].
Qed.

Lemma get_ensureProperAriaLabels (doc : node) (p : path) :
  p ≠ [] → get (ensureProperAriaLabels doc) p = label_incl <$> get doc p.
Proof.
  intros Hp. destruct p as [|i p]; [done|].
  destruct doc as [s|pr ks]; [done|]. cbn [ensureProperAriaLabels get].
  rewrite list_lookup_fmap. destruct (ks !! i) as [k|]; [|done].
  apply get_label_incl.
Qed.

Lemma label_props_text (n n' : node) (pr : props) :
  textContent n = textContent n' → label_props n pr = label_props n' pr.
Proof. intros Ht. unfold label_props. by rewrite Ht. Qed.

Lemma fallback_label_truthy (pr : props) :
  attr_truthy (Some (fallback_label pr)) = true.
Proof.
  unfold fallback_label. destruct (attrs pr !! "title") as [t|]; [|done].
  cbn [attr_truthy default]. by destruct (negb (bool_decide (t = ""))) eqn:Ht.
Qed.

Lemma labelled_set_attrs (f : gmap string string → gmap string string)
      (pr : props) :
  labelled (set_attrs f pr) = labelled pr.
Proof. done. Qed.

Lemma label_props_cases (n : node) (pr : props) :
  (labelled pr = true ∧ blank (textContent n) = true
   ∧ attr_truthy (attrs pr !! "aria-label") = false
   ∧ label_props n pr
     = set_attrs (insert "aria-label" (fallback_label pr)) pr)
  ∨ ((labelled pr = false ∨ blank (textContent n) = false
      ∨ attr_truthy (attrs pr !! "aria-label") = true)
     ∧ label_props n pr = pr).
Proof.
  unfold label_props.
  destruct (labelled pr), (blank (textContent n)),
    (attr_truthy (attrs pr !! "aria-label")); cbn [andb negb]; auto 10.
Qed.

Lemma label_props_idemp (n : node) (pr : props) :
  label_props n (label_props n pr) = label_props n pr.
Proof.
  destruct (label_props_cases n pr) as [(Hl & Hb & Ha & ->)|[Hc ->]].
  - unfold label_props at 1. rewrite labelled_set_attrs, Hl, Hb.
    cbn [attrs set_attrs]. rewrite lookup_insert_eq, fallback_label_truthy.
    done.
  - destruct (label_props_cases n pr) as [(Hl & Hb & Ha & _)|[_ ->]];
      [|done].
    destruct Hc as [Hc|[Hc|Hc]]; congruence.
Qed.

Lemma label_incl_idemp (n : node) : label_incl (label_incl n) = label_incl n.
Proof.
  induction n as [s|pr ks IH] using node_ind_kids; [done|].
  cbn [label_incl]. f_equal.
  - rewrite (label_props_text _ (Elem pr ks)).
    + apply label_props_idemp.
    + exact (textContent_label_incl (Elem pr ks)).
  - rewrite map_map.
    induction IH as [|k ks' Hk _ IHks]; [done|]. cbn [map].
    by rewrite Hk, IHks.
Qed.

(** X10 ([ensureProperAriaLabels]).  After the call every element
    below the document with the class [button-cta] or [scroll-to-top]
    has text that is not blank or an [aria-label] that is not empty.
    An element that had one of the two, or carries neither class, is as
    it was; one that had neither gets its [title] as label, and
    [Button] when it has no title or an empty one.  No text changes,
    and a second call changes nothing. *)
Theorem aria_labels_ensured (doc : node) :
  (∀ p pr ks, p ≠ [] → get doc p = Some (Elem pr ks) →
     ∃ pr' ks',
       get (ensureProperAriaLabels doc) p = Some (Elem pr' ks')
       ∧ textContent (Elem pr' ks') = textContent (Elem pr ks)
       ∧ (labelled pr' = true → named (Elem pr' ks') = true)
       ∧ (labelled pr = false ∨ named (Elem pr ks) = true → pr' = pr)
       ∧ (labelled pr = true → named (Elem pr ks) = false →
          pr' = set_attrs (insert "aria-label" (fallback_label pr)) pr
          ∧ fallback_label pr ≠ ""
          ∧ (∀ t, attrs pr !! "title" = Some t → t ≠ "" →
                  fallback_label pr = t)
          ∧ (attrs pr !! "title" = None ∨ attrs pr !! "title" = Some "" →
             fallback_label pr = "Button")))
  ∧ (∀ p, is_Some (get (ensureProperAriaLabels doc) p)
          ↔ is_Some (get doc p))
  ∧ textContent (ensureProperAriaLabels doc) = textContent doc
  ∧ ensureProperAriaLabels (ensureProperAriaLabels doc)
    = ensureProperAriaLabels doc.
Proof.
  split_and!.
  - intros p pr ks Hp Hget.
    rewrite get_ensureProperAriaLabels, Hget by done.
    cbn [fmap option_fmap option_map label_incl]. eexists _, _.
    split; [done|].
    assert (Htext : textContent (Elem (label_props (Elem pr ks) pr)
                                      (map label_incl ks))
                    = textContent (Elem pr ks)).
    { exact (textContent_label_incl (Elem pr ks)). }
    split; [done|]. unfold named. rewrite Htext.
    destruct (label_props_cases (Elem pr ks) pr)
      as [(Hl & Hb & Ha & ->)|[Hc ->]].
    + rewrite Hb, Ha. cbn [negb orb attrs set_attrs].
      rewrite lookup_insert_eq, fallback_label_truthy.
      split_and!; try done.
      * intros [Hl'|Hn]; congruence.
      * intros _ _. split_and!; [done|..].
        -- pose proof (fallback_label_truthy pr) as Hf.
           cbn [attr_truthy] in Hf. intros Heq. by rewrite Heq in Hf.
        -- intros t Ht Hne. unfold fallback_label. rewrite Ht.
           cbn [attr_truthy default].
           by rewrite bool_decide_eq_false_2.
        -- intros [Ht|Ht]; unfold fallback_label; by rewrite Ht.
    + split_and!; try done.
      * intros Hl. destruct Hc as [Hc | [-> | ->] ]; [congruence|done|].
        by rewrite orb_true_r.
      * intros Hl Hn. destruct Hc as [Hc|[Hc|Hc]]; [congruence|..];
          rewrite Hc in Hn; [done|by rewrite orb_true_r in Hn].
  - intros p. destruct p as [|i p].
    + by destruct doc.
    + rewrite get_ensureProperAriaLabels by done. by rewrite fmap_is_Some.
  - destruct doc as [s|pr ks]; [done|].
    cbn [ensureProperAriaLabels textContent]. f_equal. rewrite map_map.
    apply map_ext. intros k. apply textContent_label_incl.
  - destruct doc as [s|pr ks]; [done|].
    cbn [ensureProperAriaLabels]. f_equal. rewrite map_map.
    apply map_ext. intros k. apply label_incl_idemp.
Qed.


Lemma keyboard_navigation_tabindex_witness :
  ∃ pr', props_at (improveKeyboardNavigation Samples.toolbar) [0] = Some pr'
         ∧ attrs pr' !! "tabindex" = Some "0".
Proof.
  destruct (keyboard_navigation_tabindex Samples.toolbar) as (H & _).
  destruct (H [0] (Props "div" [] {[ "role" := "button" ]} [] [] false)
              ltac:(discriminate) ltac:(vm_compute; reflexivity))
    as (pr' & Hp & _ & _ & Hz & _).
  exists pr'. split; [exact Hp|]. apply Hz; vm_compute; reflexivity.
Defined.

Lemma aria_labels_ensured_witness :
  ∃ pr' ks',
    get (ensureProperAriaLabels Samples.toolbar) [2] = Some (Elem pr' ks')
    ∧ named (Elem pr' ks') = true
    ∧ attrs pr' !! "aria-label" = Some "Hire me".
Proof.
  destruct (aria_labels_ensured Samples.toolbar) as (H & _).
  destruct (H [2] (Props "a" ["button-cta"] {[ "title" := "Hire me" ]}
                         [] [] false)
              [Samples.element "i" [] []]
              ltac:(discriminate) ltac:(vm_compute; reflexivity))
    as (pr' & ks' & Hg & _ & Hn & _ & Hl).
  exists pr', ks'. split; [exact Hg|].
  destruct (Hl ltac:(vm_compute; reflexivity) ltac:(vm_compute; reflexivity))
    as (-> & _ & Ht & _).
  split.
  - apply Hn. vm_compute. reflexivity.
  - cbn [attrs set_attrs]. rewrite lookup_insert_eq.
    rewrite (Ht "Hire me"); [reflexivity|vm_compute; reflexivity|discriminate].
Defined.


End AccessibilityFacts.

(** ** Images without an observer, and the fade-in of elements *)

Section ObserverFacts.
Import JsString Dom PerformanceOptimizer.

Lemma classList_add_idemp (c : string) (l : list string) :
  classList_add c (classList_add c l) = classList_add c l.
Proof. unfold classList_add at 1. by rewrite classList_contains_add. Qed.

Lemma observe_faded_once (hasObserver : bool) (els : gmap nat (list string)) :
  faded_once els (observeElementsForAnimation hasObserver els).
Proof.
  intros i. unfold observeElementsForAnimation.
  destruct hasObserver; cbn [negb elements watched]; (split; [|by left]);
    intros Hi; [|set_solver].
  split; [done|]. apply elem_of_dom in Hi as [cls Hcls].
  apply map_lookup_filter_Some in Hcls as [Hcls Han]. by exists cls.
Qed.

Lemma on_fade_entry_faded_once (els : gmap nat (list string))
      (s : fade_state) (e : entry) :
  faded_once els s →
  (∃ cls, els !! e.1 = Some cls ∧ animated cls = true) →
  faded_once els (on_fade_entry s e).
Proof.
  intros Hs (cls & Hcls & Han). unfold on_fade_entry.
  destruct e as [t []]; cbn [fst snd] in *; [|done].
  intros i. cbn [elements watched]. destruct (decide (i = t)) as [->|Hne].
  - split; [set_solver|]. right. exists cls. split_and!; [done..|].
    rewrite lookup_alter_eq.
    destruct (Hs t) as [_ [Heq|(cls' & Hcls' & _ & Heq)]]; rewrite Heq.
    + by rewrite Hcls.
    + rewrite Hcls in Hcls'. injection Hcls' as <-. cbn.
      by rewrite classList_add_idemp.
  - rewrite lookup_alter_ne by done. destruct (Hs i) as [Hw Hel].
    split; [|done]. intros Hi. apply Hw. set_solver.
Qed.

Lemma on_fade_entry_watched (s : fade_state) (e : entry) :
  watched (on_fade_entry s e) ⊆ watched s.
Proof. unfold on_fade_entry. destruct (e.2); cbn; set_solver. Qed.

Lemma fade_callback_watched (entries : list entry) (s : fade_state) :
  watched (elementObserver_callback entries s) ⊆ watched s.
Proof.
  unfold elementObserver_callback. revert s.
  induction entries as [|e entries IH]; intros s; [done|]. cbn [foldl].
  etrans; [apply IH|apply on_fade_entry_watched].
Qed.

Lemma fade_callback_faded_once (els : gmap nat (list string))
      (entries : list entry) (s : fade_state) :
  faded_once els s →
  (∀ t, t ∈ entries.*1 → ∃ cls, els !! t = Some cls ∧ animated cls = true) →
  faded_once els (elementObserver_callback entries s).
Proof.
  unfold elementObserver_callback. revert s.
  induction entries as [|e entries IH]; intros s Hs Hent; [done|].
  cbn [foldl]. apply IH.
  - apply on_fade_entry_faded_once; [exact Hs|]. apply Hent.
    rewrite fmap_cons. by left.
  - intros t Ht. apply Hent. rewrite fmap_cons. by right.
Qed.

Lemma fade_notify_faded_once (els : gmap nat (list string))
      (s s' : fade_state) :
  faded_once els s → fade_notify s s' → faded_once els s'.
Proof.
  intros Hs Hstep. destruct Hstep as [s0 entries Hw].
  apply fade_callback_faded_once; [exact Hs|].
  intros t Ht. by apply (Hs t), Hw.
Qed.

Lemma reachable_faded_once (hasObserver : bool)
      (els : gmap nat (list string)) (s : fade_state) :
  rtc fade_notify (observeElementsForAnimation hasObserver els) s →
  faded_once els s
  ∧ watched s ⊆ watched (observeElementsForAnimation hasObserver els).
Proof.
  revert s. apply rtc_ind_r.
  - split; [apply observe_faded_once|done].
  - intros s1 s2 _ Hstep [IH1 IH2]. split.
    + by eapply fade_notify_faded_once.
    + destruct Hstep as [s0 entries _].
      etrans; [apply fade_callback_watched|done].
Qed.

Lemma fade_callback_unwatched (entries : list entry) (s : fade_state) :
  watched s = ∅ → (∀ t, t ∈ entries.*1 → t ∈ watched s) →
  elementObserver_callback entries s = s.
Proof.
  intros Hw Hent. destruct entries as [|e entries]; [done|].
  specialize (Hent e.1). rewrite Hw in Hent.
  exfalso. apply (not_elem_of_empty (C:=gset nat) e.1), Hent.
  rewrite fmap_cons. by left.
Qed.

(** X11 ([observeElementsForAnimation]).  Whatever the observer
    reports, the class list of an element is the one it had when the
    function ran, or that list with [fade-in] added; the latter only
    for an element that then carried [card], [project-card] or
    [feature].  An element still under observation is unchanged, no
    element is put under observation again, and without
    [IntersectionObserver] nothing is observed and nothing ever
    changes. *)
Theorem fade_in_only_observed (hasObserver : bool)
        (els : gmap nat (list string)) (s : fade_state) (i : nat) :
  rtc fade_notify (observeElementsForAnimation hasObserver els) s →
  (elements s !! i = els !! i
   ∨ ∃ cls, els !! i = Some cls ∧ animated cls = true
            ∧ hasObserver = true
            ∧ elements s !! i = Some (classList_add "fade-in" cls))
  ∧ (i ∈ watched s →
     elements s !! i = els !! i
     ∧ i ∈ watched (observeElementsForAnimation hasObserver els))
  ∧ (∀ s', fade_notify s s' → watched s' ⊆ watched s)
  ∧ (hasObserver = false → s = FadeState els ∅).
Proof.
  intros Hreach.
  assert (Hoff : hasObserver = false → s = FadeState els ∅).
  { intros ->. revert s Hreach. apply rtc_ind_r; [done|].
    intros s1 s2 _ Hstep IH. destruct Hstep as [s0 entries Hw].
    subst s0. by apply fade_callback_unwatched. }
  destruct (reachable_faded_once hasObserver els s Hreach) as [Hs Hsub].
  destruct (Hs i) as [Hw Hel]. split_and!.
  - destruct Hel as [Heq|(cls & Hcls & Han & Heq)]; [by left|].
    destruct hasObserver; [right; by exists cls|].
    left. by rewrite (Hoff eq_refl).
  - intros Hi. split; [by apply Hw|by apply Hsub].
  - intros s' Hstep. destruct Hstep as [s0 entries _].
    apply fade_callback_watched.
  - done.
Qed.

Lemma fade_in_only_observed_witness :
  let els : gmap nat (list string) :=
    {[ 0 := ["card"]; 1 := ["feature"; "wide"]; 2 := ["hero"] ]} in
  let s := elementObserver_callback [(1, true); (0, false); (1, true)]
             (observeElementsForAnimation true els) in
  elements s !! 2 = els !! 2
  ∨ ∃ cls, els !! 2 = Some cls ∧ animated cls = true
           ∧ true = true
           ∧ elements s !! 2 = Some (classList_add "fade-in" cls).
Proof.
  intros els s.
  apply (fade_in_only_observed true els s 2).
  eapply rtc_l; [apply fade_notify_entries|apply rtc_refl].
  intros t Ht. vm_compute in Ht. vm_compute.
  repeat match goal with
         | H : _ ∈ _ :: _ |- _ => apply elem_of_cons in H as [-> | H]
         | H : _ ∈ [] |- _ => by apply elem_of_nil in H
         end; set_solver.
Defined.



End ObserverFacts.

(** ** Messages replace each other *)

Section ReplacedMessageFacts.
Import JsString Dom FormManager.

Lemma update_ext (f g : node → node) (p : path) (n : node) :
  (∀ m, f m = g m) → update f p n = update g p n.
Proof.
  intros Hfg. revert n. induction p as [|i p IH]; intros n; cbn [update].
  - apply Hfg.
  - destruct n as [s|pr ks]; [done|]. f_equal.
    apply list_alter_ext; [|done]. intros k _. apply IH.
Qed.

Lemma update_fix (g : node → node) (p : path) (n m : node) :
  get n p = Some m → g m = m → update g p n = n.
Proof.
  revert n. induction p as [|i p IH]; intros n Hn Hg; cbn [update get] in *.
  - by injection Hn as ->.
  - destruct n as [s|pr ks]; [done|]. f_equal.
    destruct (ks !! i) as [k|] eqn:Hk; [|done]. cbn in Hn.
    rewrite <- (list_alter_id (λ x, x) ks i) at 2 by done.
    apply list_alter_ext; [|done]. intros k' Hk'.
    rewrite Hk in Hk'. injection Hk' as <-. by apply IH.
Qed.

Lemma set_textContent_twice (t t' : jsstring) (m : node) :
  set_textContent t (set_textContent t' m) = set_textContent t m.
Proof. by destruct m. Qed.

Lemma mark_fix (pe : props) (m : node) :
  props_of m = Some (set_attrs (insert "aria-invalid" "true")
                       (set_classList (classList_add "error") pe)) →
  setAttribute "aria-invalid" "true" (addClass "error" m) = m.
Proof.
  destruct m as [s|pr ks]; [done|]. intros [= ->].
  unfold setAttribute, addClass, on_props, set_attrs, set_classList.
  cbn [tag classList attrs value defaultValue disabled].
  by rewrite classList_add_idemp, insert_insert_eq.
Qed.

Lemma showError_in_marked (i : nat) (msg : jsstring) (n m : node)
      (pe : props) :
  get n [i] = Some m →
  props_of m = Some (set_attrs (insert "aria-invalid" "true")
                       (set_classList (classList_add "error") pe)) →
  showError_in i msg n
  = match querySelector sel_error_message n with
    | Some rel => update (set_textContent msg) rel n
    | None => update (set_textContent msg) [childCount n]
                     (appendChild errorSpan n)
    end.
Proof.
  intros Hm Hpe. unfold showError_in. rewrite update_update.
  rewrite (update_fix _ [i] n m Hm); [done|].
  cbn [compose]. by apply (mark_fix pe).
Qed.

Lemma update_snoc_child (g : node → node) (pr : props) (ks : list node)
      (k : node) :
  update g [length ks] (Elem pr (ks ++ [k])) = Elem pr (ks ++ [g k]).
Proof.
  cbn [update]. f_equal.
  rewrite <- (Nat.add_0_r (length ks)). by rewrite alter_app_r.
Qed.

Lemma querySelector_appended (pr : props) (ks : list node) (k : node) :
  querySelector sel_error_message (Elem pr ks) = None →
  is_match sel_error_message k = true →
  querySelector sel_error_message (Elem pr (ks ++ [k])) = Some [length ks].
Proof.
  intros Hnone Hk. apply (first_kid_None _ _ 0) in Hnone.
  destruct k as [s|pk kk]; [done|]. cbn [querySelector].
  apply first_kid_Some. exists (length ks), [], (Elem pk kk). split_and!.
  - done.
  - by rewrite lookup_app_r, Nat.sub_diag.
  - cbn [find_incl]. cbn [is_match] in Hk. by rewrite Hk.
  - by rewrite take_app_length.
Qed.

Lemma showError_in_twice (i : nat) (m1 m2 : jsstring) (pr : props)
      (ks : list node) (pe : props) (kse : list node) :
  ks !! i = Some (Elem pe kse) →
  showError_in i m2 (showError_in i m1 (Elem pr ks))
  = showError_in i m2 (Elem pr ks).
Proof.
  intros Hi.
  destruct (showError_in_shown i m1 pr ks pe kse Hi) as [_ Hmarked].
  unfold props_at in Hmarked.
  destruct (get (showError_in i m1 (Elem pr ks)) [i]) as [m|] eqn:Hm;
    [|done].
  cbn in Hmarked. rewrite (showError_in_marked i m2 _ m pe Hm Hmarked).
  clear Hm Hmarked m. unfold showError_in.
  set (X := update (setAttribute "aria-invalid" "true") [i]
              (update (addClass "error") [i] (Elem pr ks))).
  assert (HX : ∃ ksX, X = Elem pr ksX) by (by eexists).
  destruct HX as [ksX HX]. clearbody X. subst X.
  destruct (querySelector sel_error_message (Elem pr ksX)) as [rel|] eqn:Hsel.
  - rewrite (querySelector_update_same _ _ _ _
               (is_match_set_textContent _ m1) Hsel).
    rewrite update_update. apply update_ext. intros m.
    apply set_textContent_twice.
  - cbn [childCount appendChild]. rewrite !update_snoc_child.
    rewrite (querySelector_appended pr ksX _ Hsel) by done.
    rewrite update_snoc_child. by rewrite set_textContent_twice.
Qed.

(** X13 ([showError], called again for the same field).  A message
    shown for a field replaces the one shown before and leaves nothing
    of it: showing a first message and then a second gives the very
    form that showing the second alone gives.  In particular showing
    the same message twice is the same as showing it once. *)
Theorem showError_replaces (form : node) (e : path) (m1 m2 : jsstring) :
  is_descendant form e →
  showError (Some e) m2 (showError (Some e) m1 form)
  = showError (Some e) m2 form
  ∧ showError (Some e) m1 (showError (Some e) m1 form)
    = showError (Some e) m1 form.
Proof.
  intros He.
  destruct (is_descendant_child form e He)
    as (q & i & pr & ks & pe & kse & -> & Hq & Hi).
  assert (Htwice : ∀ a b,
             showError (Some (q ++ [i])) b (showError (Some (q ++ [i])) a form)
             = showError (Some (q ++ [i])) b form).
  { intros a b. rewrite (showError_local form q i a _ Hq).
    rewrite (showError_local _ q i b (showError_in i a (Elem pr ks)))
      by by rewrite get_update, Hq.
    rewrite update_update, (showError_local form q i b _ Hq).
    apply (update_ext_at _ _ _ _ _ Hq). cbn [compose].
    by apply (showError_in_twice i a b pr ks pe kse). }
  split; apply Htwice.
Qed.

Lemma showError_replaces_witness :
  let form := Samples.contactForm "abc" "" in
  showError (Some Samples.emailField) msg_email_invalid
    (showError (Some Samples.emailField) msg_email_required form)
  = showError (Some Samples.emailField) msg_email_invalid form.
Proof.
  refine (proj1 (showError_replaces (Samples.contactForm "abc" "")
                   Samples.emailField msg_email_required msg_email_invalid
                   _)).
  split; [done|]. by eexists _, _.
Defined.

End ReplacedMessageFacts.

(** ** Editing a field that shows an error *)

Section InputFacts.
Import JsString Dom FormManager.










End InputFacts.

(** ** A form without error marks, and a second submission *)

Section ResubmissionFacts.
Import JsString Dom FormManager.

Lemma list_sum_zero (g : node → nat) (ks : list node) :
  list_sum (map g ks) = 0 → Forall (λ k, g k = 0) ks.
Proof.
  induction ks as [|k ks IH]; simpl; intros Hs; [done|].
  constructor; [lia|apply IH; lia].
Qed.

Lemma map_eq_id (F : node → node) (ks : list node) :
  Forall (λ k, F k = k) ks → map F ks = ks.
Proof. induction 1 as [|k ks Hk _ IH]; [done|]. cbn [map]. by rewrite Hk, IH. Qed.

Lemma map_incl_clean (sel : selector) (h : props → props) (n : node) :
  count_incl sel n = 0 →
  map_incl (λ pr, if matches_sel sel pr then h pr else pr) n = n.
Proof.
  induction n as [s|pr ks IH] using node_ind_kids; [done|].
  cbn [count_incl map_incl]. intros Hc.
  destruct (matches_sel sel pr); [lia|]. f_equal.
  apply map_eq_id. apply list_sum_zero in Hc.
  rewrite Forall_forall in IH, Hc. apply Forall_forall.
  intros k Hk. by apply IH, Hc.
Qed.

Lemma forEach_desc_clean (sel : selector) (h : props → props) (n : node) :
  count_desc sel n = 0 → forEach_desc sel h n = n.
Proof.
  destruct n as [s|pr ks]; [done|].
  cbn [count_desc forEach_desc map_desc]. intros Hc. f_equal.
  apply map_eq_id. apply list_sum_zero in Hc.
  eapply Forall_impl; [exact Hc|]. intros k Hk. by apply map_incl_clean.
Qed.

Lemma remove_below_clean (sel : selector) (n : node) :
  count_desc sel n = 0 → remove_below sel n = n.
Proof.
  induction n as [s|pr ks IH] using node_ind_kids; [done|].
  cbn [count_desc remove_below]. intros Hc. f_equal.
  apply list_sum_zero in Hc. rewrite keep_map_filter.
  assert (Hall : filter (λ k, negb (is_match sel k) = true) ks = ks).
  { clear IH. induction Hc as [|k ks Hk _ IHks]; [done|].
    rewrite filter_cons, decide_True, IHks; [done|].
    by rewrite (count_incl_zero_is_match sel k Hk). }
  rewrite Hall. apply map_eq_id.
  rewrite Forall_forall in IH, Hc. apply Forall_forall.
  intros k Hk. apply IH; [done|].
  pose proof (count_desc_le_incl sel k). specialize (Hc k Hk). cbn in Hc. lia.
Qed.

Lemma clearErrors_clean (f : node) :
  count_desc sel_error f = 0 → count_desc sel_error_message f = 0 →
  clearErrors f = f.
Proof.
  intros He Hm. unfold clearErrors.
  rewrite (forEach_desc_clean sel_error unmark f He).
  by apply remove_below_clean.
Qed.

Lemma count_desc_button_updates (sel : selector) (t : jsstring) (d : bool)
      (b : path) (f : node) :
  b ≠ [] →
  count_desc sel (update (on_props (set_disabled d)) b
                    (update (set_textContent t) b f))
  ≤ count_desc sel f.
Proof.
  intros Hb. rewrite !count_desc_weight_desc.
  apply weight_desc_button_updates; [done|].
  intros pr. by rewrite matches_sel_set_disabled.
Qed.

Lemma querySelector_button_updates (sel : selector) (t : jsstring) (d : bool)
      (b : path) (f : node) :
  querySelector sel f = Some b →
  querySelector sel (update (on_props (set_disabled d)) b
                       (update (set_textContent t) b f)) = Some b.
Proof.
  intros Hb. apply querySelector_update_same.
  - intros m. apply is_match_on_props. intros pr.
    apply matches_sel_set_disabled.
  - apply querySelector_update_same; [|done].
    intros m. apply is_match_set_textContent.
Qed.

Lemma run_task_button (b : path) (t : jsstring) (f : node) (pr : props)
      (ks : list node) :
  get f b = Some (Elem pr ks) →
  let f' := run_task (ResetForm b t) f in
  textAt f' b = Some t ∧ disabledAt f' b = Some false
  ∧ ∃ pr' ks', get f' b = Some (Elem pr' ks').
Proof.
  intros Hb f'. subst f'. unfold run_task, reset.
  set (h := λ pr, if is_control pr then set_value (defaultValue pr) pr
                  else pr).
  assert (Hget : get (map_incl h f) b = Some (Elem (h pr) (map (map_incl h) ks)))
    by by rewrite get_map_incl, Hb.
  destruct (button_after_updates t false b _ _ _ Hget) as (Ht & Hd & ks' & Hg).
  split_and!; [done..|]. by eexists _, _.
Qed.

(** X15 ([clearErrors]).  Clearing the errors of a form that carries
    no error class and holds no error-message element below it leaves
    the form as it is, and clearing twice is the same as clearing once;
    so a submission that passes validation changes such a form at the
    submit button only. *)
Theorem clearErrors_idempotent (f : node) :
  clearErrors (clearErrors f) = clearErrors f
  ∧ (count_desc sel_error f = 0 → count_desc sel_error_message f = 0 →
     clearErrors f = f
     ∧ ((validateForm f).1 = true → validateForm f = (true, f))).
Proof.
  split.
  - apply clearErrors_clean.
    + apply count_desc_error_clearErrors.
    + apply count_desc_error_message_clearErrors.
  - intros He Hm. pose proof (clearErrors_clean f He Hm) as Hclean.
    split; [done|]. intros Hok.
    destruct (validateForm f) as [ok f'] eqn:Hv. cbn in Hok. subst ok.
    by rewrite (validateForm_true _ _ Hv), Hclean.
Qed.

Lemma clearErrors_idempotent_witness :
  let f := Samples.contactForm "a@b.co" "hello" in
  validateForm f = (true, f).
Proof.
  refine (proj2 (proj2 (clearErrors_idempotent
                          (Samples.contactForm "a@b.co" "hello")) _ _) _);
    vm_compute; reflexivity.
Defined.

(** X16 ([handleSubmit], a second submission during the delay).  Let a
    submission pass validation on a page without pending timers, and
    let a second submit event reach the form less than two seconds
    later and pass validation too.  The second call reads the
    confirmation text as the text of the button, so two timers are
    pending, the second of which restores the confirmation text: once
    both have run the button is enabled again and reads the
    confirmation text, not the text it had before the first
    submission. *)
Theorem resubmission_keeps_confirmation (pg : page) (f1 : node) (b : path)
        (d : N) :
  timers pg = [] →
  validateForm (form pg) = (true, f1) →
  querySelector sel_submit f1 = Some b →
  (d < 2000)%N →
  let originalText := from_option textContent [] (get f1 b) in
  let pg1 := run [Submit; Advance d] pg in
  (validateForm (form pg1)).1 = true →
  let pg2 := step Submit pg1 in
  (textAt (form pg1) b = Some msg_sent
   ∧ timers pg1 = [Timer (clock pg + 2000) (ResetForm b originalText)])
  ∧ timers pg2
    = [Timer (clock pg + 2000) (ResetForm b originalText);
       Timer (clock pg + d + 2000) (ResetForm b msg_sent)]
  ∧ ∀ dt, (2000 ≤ dt)%N →
          let pg3 := step (Advance dt) pg2 in
          timers pg3 = []
          ∧ textAt (form pg3) b = Some msg_sent
          ∧ disabledAt (form pg3) b = Some false.
Proof.
  intros Htimers Hv Hb Hd originalText pg1 Hok pg2.
  pose proof (handleSubmit_success pg f1 b Hv Hb) as Hpg.
  rewrite Htimers in Hpg. cbn [app] in Hpg. fold originalText in Hpg.
  set (f3 := update (on_props (set_disabled true)) b
               (update (set_textContent msg_sent) b f1)) in *.
  assert (Hpg1 : pg1 = Page f3 (clock pg + d)
                         [Timer (clock pg + 2000) (ResetForm b originalText)]).
  { unfold pg1. cbn [run foldl step]. rewrite Hpg, advance_single_timer.
    by rewrite decide_False by lia. }
  destruct (querySelector_Some _ _ _ Hb) as (Hne & prb & ksb & Hget & _).
  destruct (button_after_updates msg_sent true b _ _ _ Hget)
    as (Htext & _ & ksb' & Hget3).
  fold f3 in Htext, Hget3.
  pose proof (validateForm_true _ _ Hv) as Hf1.
  assert (Hclean : clearErrors f3 = f3).
  { apply clearErrors_clean.
    - pose proof (count_desc_button_updates sel_error msg_sent true b f1 Hne).
      pose proof (count_desc_error_clearErrors (form pg)).
      fold f3 in H. rewrite Hf1 in H. lia.
    - pose proof (count_desc_button_updates sel_error_message msg_sent true
                    b f1 Hne).
      pose proof (count_desc_error_message_clearErrors (form pg)).
      fold f3 in H. rewrite Hf1 in H. lia. }
  rewrite Hpg1 in Hok. cbn [form] in Hok.
  destruct (validateForm f3) as [ok f'] eqn:Hv3. cbn in Hok. subst ok.
  pose proof (validateForm_true _ _ Hv3) as Hf'. rewrite Hclean in Hf'.
  subst f'.
  pose proof (querySelector_button_updates sel_submit msg_sent true b f1 Hb)
    as Hb3.
  fold f3 in Hb3.
  assert (Hpg2 : pg2
                 = Page (update (on_props (set_disabled true)) b
                           (update (set_textContent msg_sent) b f3))
                        (clock pg + d)
                        [Timer (clock pg + 2000) (ResetForm b originalText);
                         Timer (clock pg + d + 2000) (ResetForm b msg_sent)]).
  { unfold pg2. cbn [step]. rewrite Hpg1.
    rewrite (handleSubmit_success (Page f3 _ _) f3 b Hv3 Hb3).
    cbn [form clock timers app].
    unfold textAt in Htext. destruct (get f3 b) as [m|]; [|done].
    cbn in Htext. injection Htext as Htext. cbn [from_option].
    by rewrite Htext. }
  split_and!.
  - by rewrite Hpg1.
  - by rewrite Hpg1.
  - by rewrite Hpg2.
  - intros dt Hdt pg3. unfold pg3. rewrite Hpg2. cbn [step].
    unfold advance. cbn [form clock timers].
    rewrite !filter_cons, !filter_nil. cbn [due].
    rewrite (decide_False (P:=¬ (clock pg + 2000 ≤ clock pg + d + dt)%N))
      by lia.
    rewrite (decide_False (P:=¬ (clock pg + d + 2000 ≤ clock pg + d + dt)%N))
      by lia.
    rewrite (decide_True (P:=(clock pg + 2000 ≤ clock pg + d + dt)%N)) by lia.
    rewrite (decide_True (P:=(clock pg + d + 2000 ≤ clock pg + d + dt)%N))
      by lia.
    cbn [foldl job]. split; [done|].
    destruct (button_after_updates msg_sent true b _ _ _ Hget3)
      as (_ & _ & ksb5 & Hget5).
    destruct (run_task_button b originalText _ _ _ Hget5)
      as (_ & _ & pr6 & ks6 & Hget6).
    destruct (run_task_button b msg_sent _ _ _ Hget6) as (Ht7 & Hd7 & _).
    done.
Qed.

Lemma resubmission_keeps_confirmation_witness :
  let pg := Page (Samples.contactForm "a@b.co" "hello") 0 [] in
  let pg3 := run [Submit; Advance 500; Submit; Advance 2000] pg in
  timers pg3 = []
  ∧ textAt (form pg3) Samples.submitButton = Some msg_sent
  ∧ disabledAt (form pg3) Samples.submitButton = Some false.
Proof.
  refine (proj2 (proj2 (resubmission_keeps_confirmation
                          (Page (Samples.contactForm "a@b.co" "hello") 0 [])
                          (Samples.contactForm "a@b.co" "hello")
                          Samples.submitButton 500%N _ _ _ _ _)) 2000%N _).
  - reflexivity.
  - vm_compute. reflexivity.
  - vm_compute. reflexivity.
  - reflexivity.
  - vm_compute. reflexivity.
  - discriminate.
Defined.

End ResubmissionFacts.

(** ** What the email pattern accepts *)

Section EmailShape.
Import JsString Regex Dom FormManager.

Lemma filter_at_none (s : list N) :
  Forall (λ c, not_space_at c = true) s → filter (λ c, c = 64%N) s = [].
Proof.
  induction 1 as [|c s Hc _ IH]; [done|].
  rewrite filter_cons, decide_False, IH; [done|].
  apply not_space_at_spec in Hc as [_ Hc]. done.
Qed.

Lemma no_space_of_not_space_at (s : jsstring) :
  Forall (λ c, not_space_at c = true) s →
  Forall (λ c, is_space c = false) s.
Proof.
  intros Hs. eapply Forall_impl; [exact Hs|].
  intros c Hc. by apply not_space_at_spec in Hc as [Hc _].
Qed.

(** X17 ([isValidEmail]).  A value the pattern accepts holds exactly
    one [@], no white space anywhere (so a value with a leading or
    trailing blank is refused, although the required-check trims), at
    least five code units, and neither starts nor ends with [@]; it is
    never blank, so the required-message and the invalid-message never
    compete for the same value. *)
Theorem isValidEmail_shape (v : list N) :
  isValidEmail v = true →
  length (filter (λ c, c = 64%N) v) = 1
  ∧ Forall (λ c, is_space c = false) v
  ∧ 5 ≤ length v
  ∧ head v ≠ Some 64%N ∧ last v ≠ Some 64%N
  ∧ blank v = false
  ∧ (∀ c, is_space c = true →
          isValidEmail (c :: v) = false ∧ isValidEmail (v ++ [c]) = false).
Proof.
  intros Hv.
  assert (Hshape : ∀ s : list N, isValidEmail s = true →
            length (filter (λ c, c = 64%N) s) = 1
            ∧ Forall (λ c, is_space c = false) s
            ∧ 5 ≤ length s
            ∧ head s ≠ Some 64%N ∧ last s ≠ Some 64%N).
  { intros s (l & d & t & -> & Hl & Hd & Ht & Hall)%isValidEmail_spec.
    change jsstring with (list N) in *.
    apply Forall_app in Hall as [Hfl Hall].
    apply Forall_app in Hall as [Hfd Hft].
    split_and!.
    - rewrite filter_app, filter_cons, decide_True by done.
      rewrite filter_app, filter_cons, decide_False by done.
      rewrite !filter_at_none by done. done.
    - apply Forall_app. split; [by apply no_space_of_not_space_at|].
      constructor; [done|]. apply Forall_app.
      split; [by apply no_space_of_not_space_at|].
      constructor; [done|]. by apply no_space_of_not_space_at.
    - rewrite length_app. cbn [length]. rewrite length_app. cbn [length].
      destruct l, d, t; cbn [length]; try done; lia.
    - destruct l as [|c l]; [done|]. cbn. intros [= ->].
      apply Forall_cons in Hfl as [Hc _]. by apply not_space_at_spec in Hc as [_ Hc].
    - destruct t as [|c t _] using rev_ind; [done|].
      assert (l ++ 64%N :: d ++ 46%N :: t ++ [c]
              = (l ++ 64%N :: d ++ 46%N :: t) ++ [c]) as ->.
      { rewrite <- app_assoc. cbn [app]. do 2 f_equal.
        rewrite <- app_assoc. done. }
      rewrite last_snoc. intros [= ->].
      apply Forall_app in Hft as [_ Hc]. rewrite Forall_singleton in Hc.
      by apply not_space_at_spec in Hc as [_ Hc]. }
  destruct (Hshape v Hv) as (Hat & Hsp & Hlen & Hhd & Hlast).
  split_and!; [done..| |].
  - destruct (blank v) eqn:Hb; [|done].
    apply blank_spec in Hb. destruct v as [|c v]; [cbn in Hlen; lia|].
    apply Forall_cons in Hb as [Hb _]. apply Forall_cons in Hsp as [Hs _].
    congruence.
  - intros c Hc. split.
    + destruct (isValidEmail (c :: v)) eqn:Hv'; [|done].
      destruct (Hshape _ Hv') as (_ & Hsp' & _).
      apply Forall_cons in Hsp' as [Hs _]. congruence.
    + destruct (isValidEmail (v ++ [c])) eqn:Hv'; [|done].
      destruct (Hshape _ Hv') as (_ & Hsp' & _).
      apply Forall_app in Hsp' as [_ Hs]. rewrite Forall_singleton in Hs.
      congruence.
Qed.

Lemma isValidEmail_shape_witness :
  length (filter (λ c, c = 64%N) (lit "a@b.co" : list N)) = 1
  ∧ isValidEmail (lit " a@b.co") = false.
Proof.
  destruct (isValidEmail_shape (lit "a@b.co") ltac:(vm_compute; reflexivity))
    as (Hat & _ & _ & _ & _ & _ & Hsp).
  split; [exact Hat|]. exact (proj1 (Hsp 32%N eq_refl)).
Defined.

End EmailShape.

(** ** Typing during the delay *)

Section DelayFacts.
Import JsString Dom FormManager.

Lemma elem_update_on_props (h : props → props) (el b : path) (f : node)
      (pr : props) (ks : list node) :
  get f b = Some (Elem pr ks) →
  ∃ pr' ks', get (update (on_props h) el f) b = Some (Elem pr' ks').
Proof.
  intros Hb.
  destruct (get_update_on_props_cases h el b f) as [->|(r & _ & ->)];
    [by eexists _, _|].
  rewrite Hb. cbn. destruct r as [|i r]; cbn [update on_props];
    by eexists _, _.
Qed.

Lemma run_inputs (inputs : list (path * jsstring)) (pg : page) (b : path)
      (pr : props) (ks : list node) :
  get (form pg) b = Some (Elem pr ks) →
  let pg' := run ((λ iv, Input iv.1 iv.2) <$> inputs) pg in
  timers pg' = timers pg ∧ clock pg' = clock pg
  ∧ ∃ pr' ks', get (form pg') b = Some (Elem pr' ks').
Proof.
  revert pg pr ks. induction inputs as [|[el v] inputs IH];
    intros pg pr ks Hb; [by split_and!; [..|eexists _, _]|].
  cbn [fmap list_fmap run foldl fst snd].
  destruct (elem_update_on_props (set_value v) el b (form pg) pr ks Hb)
    as (pr1 & ks1 & Hb1).
  destruct (IH (step (Input el v) pg) pr1 ks1 Hb1) as (Ht & Hc & Hg).
  done.
Qed.

(** X18 ([handleSubmit], the callback of its timer).  Whatever the
    user types into whichever controls after a submission that passed
    validation, the timer that runs two seconds after the submission
    resets the form: every control is back at its default value, so
    what was typed during the delay is lost, and the submit button is
    enabled and reads what it read before the submission. *)
Theorem typed_during_delay_is_reset (pg : page) (f1 : node) (b : path)
        (inputs : list (path * jsstring)) (dt : N) :
  timers pg = [] →
  validateForm (form pg) = (true, f1) →
  querySelector sel_submit f1 = Some b →
  (2000 ≤ dt)%N →
  let originalText := from_option textContent [] (get f1 b) in
  let pg' := run (Submit :: ((λ iv, Input iv.1 iv.2) <$> inputs)
                         ++ [Advance dt]) pg in
  timers pg' = []
  ∧ modifiedControls (form pg') = 0
  ∧ (∀ p pr ks, get (form pg') p = Some (Elem pr ks) →
                is_control pr = true → value pr = defaultValue pr)
  ∧ textAt (form pg') b = Some originalText
  ∧ disabledAt (form pg') b = Some false.
Proof.
  intros Htimers Hv Hb Hdt originalText pg'.
  pose proof (handleSubmit_success pg f1 b Hv Hb) as Hpg.
  rewrite Htimers in Hpg. cbn [app] in Hpg. fold originalText in Hpg.
  destruct (querySelector_Some _ _ _ Hb) as (Hne & prb & ksb & Hget & _).
  destruct (button_after_updates msg_sent true b _ _ _ Hget)
    as (_ & _ & ksb' & Hget3).
  set (pg1 := handleSubmit pg) in *.
  assert (Hget1 : get (form pg1) b = Some (Elem (set_disabled true prb) ksb'))
    by by rewrite Hpg.
  destruct (run_inputs inputs pg1 b _ _ Hget1) as (Ht2 & Hc2 & pr2 & ks2 & Hg2).
  set (pg2 := run ((λ iv, Input iv.1 iv.2) <$> inputs) pg1) in *.
  assert (Hpg' : pg' = Page (run_task (ResetForm b originalText) (form pg2))
                            (clock pg + dt) []).
  { unfold pg'. cbn [run foldl]. rewrite foldl_app. cbn [foldl step].
    change (foldl (λ pg e, step e pg) (handleSubmit pg)
                  ((λ iv, Input iv.1 iv.2) <$> inputs)) with pg2.
    destruct pg2 as [f2 c2 t2]. cbn [timers clock form] in *.
    rewrite Ht2, Hc2, Hpg. cbn [timers clock].
    rewrite advance_single_timer. by rewrite decide_True by lia. }
  rewrite Hpg'. cbn [form timers].
  destruct (run_task_button b originalText _ _ _ Hg2) as (Htext & Hdis & _).
  pose proof (modifiedControls_run_task b originalText (form pg2)) as Hmod.
  split_and!; [done..| |done|done].
  intros p pr ks Hp Hc. by eapply modifiedControls_zero.
Qed.

Lemma typed_during_delay_is_reset_witness :
  let pg := Page (Samples.contactForm "a@b.co" "hello") 0 [] in
  let pg' := run [Submit; Input Samples.emailField (lit "c@d.org");
                  Input Samples.messageField (lit "more");
                  Advance 2000] pg in
  modifiedControls (form pg') = 0
  ∧ textAt (form pg') Samples.submitButton = Some (lit "Send").
Proof.
  destruct (typed_during_delay_is_reset
              (Page (Samples.contactForm "a@b.co" "hello") 0 [])
              (Samples.contactForm "a@b.co" "hello") Samples.submitButton
              [(Samples.emailField, lit "c@d.org");
               (Samples.messageField, lit "more")] 2000%N)
    as (_ & Hmod & _ & Htext & _).
  - reflexivity.
  - vm_compute. reflexivity.
  - vm_compute. reflexivity.
  - discriminate.
  - split; [exact Hmod|exact Htext].
Defined.

End DelayFacts.

(** ** Validation and the values of the controls *)

Section KeptValuesFacts.
Import JsString Dom FormManager.

Lemma map_alter_same {B : Type} (F : node → B) (h : node → node)
      (ks : list node) (i : nat) :
  (∀ k, ks !! i = Some k → F (h k) = F k) →
  map F (alter h i ks) = map F ks.
Proof.
  revert i. induction ks as [|k ks IH]; intros i Hh; [done|].
  destruct i as [|i]; cbn [alter list_alter map].
  - by rewrite (Hh k eq_refl).
  - f_equal. apply IH. intros k' Hk'. by apply Hh.
Qed.

Lemma control_values_update (g : node → node) (p : path) (n m : node) :
  get n p = Some m → control_values (g m) = control_values m →
  control_values (update g p n) = control_values n.
Proof.
  revert n. induction p as [|i p IH]; intros n Hn Hg; cbn [get update] in *.
  - by injection Hn as ->.
  - destruct n as [s|pr ks]; [done|]. cbn [control_values]. do 2 f_equal.
    apply map_alter_same. intros k Hk. rewrite Hk in Hn. by apply IH.
Qed.

Lemma concat_nil_Forall (l : list (list jsstring)) :
  concat l = [] → Forall (λ x, x = []) l.
Proof.
  induction l as [|x l IH]; [done|]. cbn [concat].
  intros [-> Hl]%app_eq_nil. constructor; [done|by apply IH].
Qed.

Lemma control_values_nil_kids (pr : props) (ks : list node) (i : nat)
      (k : node) :
  control_values (Elem pr ks) = [] → ks !! i = Some k →
  control_values k = [].
Proof.
  cbn [control_values]. intros [_ Hks]%app_eq_nil Hk.
  apply concat_nil_Forall in Hks. rewrite Forall_forall in Hks.
  apply Hks. change (map control_values ks) with (control_values <$> ks).
  apply list_elem_of_fmap. exists k. split; [done|].
  by eapply list_elem_of_lookup_2.
Qed.

Lemma control_values_nil_get (n : node) (p : path) (m : node) :
  control_values n = [] → get n p = Some m → control_values m = [].
Proof.
  revert n. induction p as [|i p IH]; intros n Hn Hp; cbn [get] in Hp.
  - by injection Hp as <-.
  - destruct n as [s|pr ks]; [done|].
    destruct (ks !! i) as [k|] eqn:Hk; [|done]. cbn in Hp.
    apply (IH k); [|done]. by eapply control_values_nil_kids.
Qed.

Lemma controls_outside_nil (sel : selector) (n : node) :
  control_values n = [] → controls_outside sel n = true.
Proof.
  induction n as [s|pr ks IH] using node_ind_kids; [done|].
  intros Hn. cbn [controls_outside]. apply forallb_forall.
  intros k Hk. apply list_elem_of_In in Hk.
  apply list_elem_of_lookup_1 in Hk as [i Hi].
  pose proof (control_values_nil_kids pr ks i k Hn Hi) as Hnil.
  destruct (is_match sel k); [by rewrite Hnil|].
  rewrite Forall_forall in IH. apply IH; [|done].
  by eapply list_elem_of_lookup_2.
Qed.

Lemma controls_outside_kid (sel : selector) (pr : props) (ks : list node)
      (i : nat) (k : node) :
  controls_outside sel (Elem pr ks) = true → ks !! i = Some k →
  (is_match sel k = true ∧ control_values k = [])
  ∨ (is_match sel k = false ∧ controls_outside sel k = true).
Proof.
  cbn [controls_outside]. intros Hall Hk.
  rewrite forallb_forall in Hall.
  specialize (Hall k). rewrite <- list_elem_of_In in Hall.
  specialize (Hall (list_elem_of_lookup_2 _ _ _ Hk)).
  destruct (is_match sel k); [left|by right].
  split; [done|]. by destruct (control_values k).
Qed.

Lemma controls_outside_get (sel : selector) (n : node) (p : path)
      (m : node) :
  controls_outside sel n = true → get n p = Some m →
  controls_outside sel m = true
  ∧ (p ≠ [] → is_match sel m = true → control_values m = []).
Proof.
  revert n. induction p as [|i p IH]; intros n Hn Hp; cbn [get] in Hp.
  - injection Hp as <-. done.
  - destruct n as [s|pr ks]; [done|].
    destruct (ks !! i) as [k|] eqn:Hk; [|done]. cbn in Hp.
    destruct (controls_outside_kid sel pr ks i k Hn Hk)
      as [[Hmatch Hnil]|[Hmatch Hout]].
    + pose proof (control_values_nil_get k p m Hnil Hp) as Hm.
      split; [by apply controls_outside_nil|done].
    + destruct (IH k Hout Hp) as [Hm Hin]. split; [done|].
      intros _ Hmm. destruct p as [|j p].
      * injection Hp as <-. congruence.
      * by apply Hin.
Qed.

Lemma control_values_set_textContent (t : jsstring) (m : node) :
  control_values m = [] → control_values (set_textContent t m) = [].
Proof.
  destruct m as [s|pr ks]; [done|]. cbn [control_values set_textContent].
  intros [-> _]%app_eq_nil. by destruct (truthy t).
Qed.

Lemma control_values_on_props (h : props → props) (m : node) :
  (∀ pr, is_control (h pr) = is_control pr ∧ value (h pr) = value pr) →
  control_values (on_props h m) = control_values m.
Proof.
  intros Hh. destruct m as [s|pr ks]; [done|].
  cbn [on_props control_values]. by destruct (Hh pr) as [-> ->].
Qed.

Lemma mark_on_props (k : node) :
  setAttribute "aria-invalid" "true" (addClass "error" k)
  = on_props (λ pr, set_attrs (insert "aria-invalid" "true")
                      (set_classList (classList_add "error") pr)) k.
Proof. by destruct k. Qed.

Lemma control_values_showError_in (i : nat) (msg : jsstring) (n : node) :
  controls_outside sel_error_message n = true →
  control_values (showError_in i msg n) = control_values n.
Proof.
  intros Hout. unfold showError_in. rewrite update_update.
  set (hm := λ pr, set_attrs (insert "aria-invalid" "true")
                     (set_classList (classList_add "error") pr)).
  rewrite (update_ext _ (on_props hm)) by (intros k; apply mark_on_props).
  set (X := update (on_props hm) [i] n).
  assert (HcvX : control_values X = control_values n).
  { unfold X. destruct (get n [i]) as [k|] eqn:Hk.
    - apply (control_values_update _ _ _ k Hk).
      by apply control_values_on_props.
    - by rewrite update_invalid. }
  destruct (querySelector sel_error_message X) as [rel|] eqn:Hsel.
  - rewrite <- HcvX.
    destruct (querySelector_Some _ _ _ Hsel) as (Hne & pm & km & Hget & Hm).
    apply (control_values_update _ _ _ _ Hget).
    assert (Hnil : control_values (Elem pm km) = []).
    { unfold X in Hget.
      destruct (get_update_on_props_cases hm [i] rel n)
        as [Heq|(r & _ & Heq)]; rewrite Heq in Hget.
      - by apply (controls_outside_get sel_error_message n rel _ Hout Hget).
      - destruct (get n rel) as [m0|] eqn:Hm0; [|done].
        cbn in Hget. injection Hget as Hget.
        destruct (controls_outside_get sel_error_message n rel m0 Hout Hm0)
          as [_ Hin].
        assert (Hcv : control_values (update (on_props hm) r m0)
                      = control_values m0).
        { destruct (get m0 r) as [m1|] eqn:Hm1.
          - apply (control_values_update _ _ _ m1 Hm1).
            by apply control_values_on_props.
          - by rewrite update_invalid. }
        rewrite <- Hget, Hcv. apply Hin; [done|].
        assert (Hpo : props_of (update (on_props hm) r m0) = Some pm)
          by by rewrite Hget.
        destruct r as [|j r].
        + destruct m0 as [s|p0 k0]; [done|]. cbn in Hpo.
          injection Hpo as <-. cbn [is_match].
          rewrite <- Hm. unfold hm.
          symmetry. rewrite (matches_error_message_classList
                               (set_attrs (insert "aria-invalid" "true")))
            by done.
          apply matches_error_message_add_error.
        + rewrite props_of_update_below in Hpo by done.
          destruct m0 as [s|p0 k0]; [done|]. cbn in Hpo.
          injection Hpo as ->. done. }
    rewrite Hnil. by apply control_values_set_textContent.
  - destruct X as [s|px kx] eqn:HX; [done|].
    cbn [childCount appendChild]. rewrite update_snoc_child.
    rewrite <- HcvX. cbn [control_values]. f_equal.
    rewrite map_app, concat_app. cbn [map concat].
    by rewrite control_values_set_textContent, !app_nil_r.
Qed.

(** X19 ([validateForm], [showError], [clearErrors]).  On a form in
    which no control lies inside an error-message element, validation
    never alters what the user typed: whether it passes or fails, the
    controls of the form and their values are, in order, what they were
    before the call. *)
Theorem validateForm_keeps_values (form : node) :
  controls_outside sel_error_message form = true →
  control_values (validateForm form).2 = control_values form
  ∧ (∀ e msg, is_descendant form e →
              control_values (showError (Some e) msg form)
              = control_values form)
  ∧ control_values (clearErrors form) = control_values form.
Proof.
  intros Hout.
  assert (Hshow : ∀ e msg, is_descendant form e →
                  control_values (showError (Some e) msg form)
                  = control_values form).
  { intros e msg He.
    destruct (is_descendant_child form e He)
      as (q & i & pr & ks & pe & kse & -> & Hq & Hi).
    rewrite (showError_local form q i msg _ Hq).
    apply (control_values_update _ _ _ _ Hq).
    apply control_values_showError_in.
    by apply (controls_outside_get sel_error_message form q _ Hout Hq). }
  pose proof (proj2 (control_values_clearErrors form) Hout) as Hclear.
  split_and!; [|done|done].
  unfold validateForm.
  destruct (querySelector sel_email form) as [e|] eqn:He; [|done].
  pose proof (querySelector_is_descendant _ _ _ He) as Hde.
  destruct (blank (valueOf form e)); [by apply Hshow|].
  destruct (isValidEmail (valueOf form e)); cbn [negb]; [|by apply Hshow].
  destruct (querySelector sel_textarea form) as [t|] eqn:Ht; [|done].
  pose proof (querySelector_is_descendant _ _ _ Ht) as Hdt.
  destruct (blank (valueOf form t)); [by apply Hshow|done].
Qed.

Lemma validateForm_keeps_values_witness :
  let form := Samples.formWithStaleError in
  control_values (validateForm form).2 = control_values form.
Proof.
  refine (proj1 (validateForm_keeps_values Samples.formWithStaleError _)).
  vm_compute. reflexivity.
Defined.

End KeptValuesFacts.
